(** * Housing market agent-based model (try2.py): embedding and verification

    The Python program is embedded as follows.

    - Python [int] values (savings, income, market value, energy label) are
      [Z]; the float-valued quantities (house quality, normalised values and
      satisfaction scores) are read as exact rationals [Q], so 0.4 is 4/10
      and [/] is exact division.  Rationals neither round nor overflow.
      Statements about [normalize] with arbitrary bounds are therefore kept
      to bounds whose difference is finite ([DOUBLE_MAX]), and the selection
      rule of [HomeOwner.step] is proved over any arithmetic of scores
      ([scored_HomeOwner_step]), of which the rationals are one instance.
    - Every [House] object lives in [house_map]; a reference to a house is
      its key there.  The key [f"H_{i}"] is the number [i].  In the same way
      a reference to a [HomeOwner] is its position in [schedule.agents]
      (the owner [f"Owner_{i}"] is the number [i]); the schedule runs the
      owners in the order in which they were added.
    - A Python exception ([KeyError], [IndexError], [AttributeError]) is the
      result [None].
    - A reference always points at an object in Python.  A number that is
      not a key of [house_map] stands for no Python state: the scan of the
      vacancy pool skips it and the mutation of the old house does nothing
      there.  The states the program reaches have no such number (see [wf]).
    - The first line of try2.py keeps [import mesa] inside a cell marker
      comment; the program is read with the module imported.
    - The values drawn from [random] in [__init__] are inputs of the
      initialisation. *)

From Stdlib Require Import ZArith QArith Qminmax Lia Lqa Permutation.
From stdpp Require Import base option list.

(** ** Global constants *)

Definition COST_PER_LABEL_UPGRADE : Z := 5000.
Definition MOVING_COST_FIXED : Z := 2000.

Definition WEIGHT_FINANCIAL : Q := 4 # 10.
Definition WEIGHT_COMFORT : Q := 3 # 10.
Definition WEIGHT_ENVIRONMENT : Q := 3 # 10.

Definition MIN_WEALTH : Z := 0.
Definition MAX_WEALTH : Z := 500000.
Definition MAX_QUALITY : Q := 1.

(** ** Helper functions *)

(** Python's [a > b] on scores. *)
Definition Qgtb (a b : Q) : bool :=
  match (b ?= a)%Q with Lt => true | _ => false end.

Definition normalize (value min_val max_val : Q) : Q :=
  if Qeq_bool max_val min_val then 0%Q
  else
    let val := Qmax min_val (Qmin value max_val) in
    ((val - min_val) / (max_val - min_val))%Q.

Definition calculate_mortgage_capacity (income : Z) : Z := (income * 5)%Z.

(** ** Data model *)

Inductive Intention := STAY | UPGRADE | BUY.

#[global] Instance Intention_eq_dec : EqDecision Intention.
Proof. solve_decision. Defined.

Record House := mkHouse {
  energy_label : Z;
  size : Z;
  quality : Q;
  market_value : Z;
  owner : option nat;
  is_vacant : bool
}.

Record HomeOwner := mkHomeOwner {
  income : Z;
  savings : Z;
  house : nat;
  intention : Intention;
  target_house_id : option nat
}.

Record HousingModel := mkModel {
  agents : list HomeOwner;
  house_map : list House;
  vacancy_pool : list nat
}.

(** [House.update_energy_label] *)
Definition update_energy_label (h : House) (levels : Z) : House :=
  {| energy_label := energy_label h + levels;
     size := size h;
     quality := quality h;
     market_value := market_value h + levels * 2000;
     owner := owner h;
     is_vacant := is_vacant h |}.

(** ** The utility model: [HomeOwner.calculate_satisfaction] *)

Definition calculate_satisfaction (self : HomeOwner) (target_house : House)
    (upgrade_cost moving_cost bonus_energy : Z) : Q :=
  let projected_savings := (savings self - upgrade_cost - moving_cost)%Z in
  let norm_financial :=
    normalize (inject_Z projected_savings) (inject_Z MIN_WEALTH) (inject_Z MAX_WEALTH) in
  let projected_label := Z.min (energy_label target_house + bonus_energy) 7 in
  let norm_energy := normalize (inject_Z projected_label) 0 7 in
  let norm_quality := normalize (quality target_house) 0 MAX_QUALITY in
  (WEIGHT_FINANCIAL * norm_financial
   + WEIGHT_ENVIRONMENT * norm_energy
   + WEIGHT_COMFORT * norm_quality)%Q.

(** ** The decision engine: [HomeOwner.step] *)

(** The default low value of an option that is not evaluated. *)
Definition SENTINEL : Q := (-999)%Q.

Definition S_current (self : HomeOwner) (own : House) : Q :=
  calculate_satisfaction self own 0 0 0.

Definition S_upgrade (self : HomeOwner) (own : House) : Q :=
  if (savings self >? COST_PER_LABEL_UPGRADE)%Z && (energy_label own <? 7)%Z
  then calculate_satisfaction self own COST_PER_LABEL_UPGRADE 0 1
  else SENTINEL.

(** One iteration of the loop over the vacancy pool; the loop state is the
    pair [(best_market_house, S_move)]. *)
Definition market_iter (self : HomeOwner) (st : option nat * Q)
    (cand : nat * House) : option nat * Q :=
  let '(hid, h) := cand in
  if (market_value h <=? savings self + calculate_mortgage_capacity (income self))%Z
  then
    let s_temp := calculate_satisfaction self h 0 MOVING_COST_FIXED 0 in
    if Qgtb s_temp (snd st) then (Some hid, s_temp) else st
  else st.

Definition evaluate_market (self : HomeOwner) (pool : list (nat * House))
    : option nat * Q :=
  fold_left (market_iter self) pool (None, SENTINEL).

(** Part D of [HomeOwner.step]: the new values of [intention] and
    [target_house_id].  [None] is the [AttributeError] raised by
    [best_market_house.unique_id] when no house was retained. *)
Definition set_intention (s_current s_upgrade : Q) (market : option nat * Q)
    : option (Intention * option nat) :=
  let '(best_market_house, s_move) := market in
  if Qgtb s_move s_upgrade && Qgtb s_move s_current then
    match best_market_house with
    | Some hid => Some (BUY, Some hid)
    | None => None
    end
  else if Qgtb s_upgrade s_current then Some (UPGRADE, None)
  else Some (STAY, None).

Definition decision (self : HomeOwner) (own : House) (pool : list (nat * House))
    : option (Intention * option nat) :=
  set_intention (S_current self own) (S_upgrade self own) (evaluate_market self pool).

(** The houses of the vacancy pool, each with its key. *)
Definition pool_houses (m : HousingModel) : list (nat * House) :=
  omap (fun hid => (fun h => (hid, h)) <$> house_map m !! hid) (vacancy_pool m).

Definition with_intention (a : HomeOwner) (d : Intention * option nat) : HomeOwner :=
  {| income := income a; savings := savings a; house := house a;
     intention := fst d; target_house_id := snd d |}.

Definition HomeOwner_step (m : HousingModel) (i : nat) : option HousingModel :=
  self ← agents m !! i;
  own ← house_map m !! house self;
  d ← decision self own (pool_houses m);
  Some {| agents := <[i := with_intention self d]> (agents m);
          house_map := house_map m;
          vacancy_pool := vacancy_pool m |}.

(** [self.schedule.step()]: every agent of the schedule runs its [step], in
    the order of the schedule. *)
Fixpoint schedule_loop (m : HousingModel) (idxs : list nat) : option HousingModel :=
  match idxs with
  | [] => Some m
  | i :: rest => m' ← HomeOwner_step m i; schedule_loop m' rest
  end.

Definition schedule_step (m : HousingModel) : option HousingModel :=
  schedule_loop m (seq 0 (length (agents m))).

(** ** The state mutator: [HousingModel.execute_move] *)

Definition vacate (h : House) : House :=
  {| energy_label := energy_label h; size := size h; quality := quality h;
     market_value := market_value h; owner := None; is_vacant := true |}.

Definition occupy (buyer : nat) (h : House) : House :=
  {| energy_label := energy_label h; size := size h; quality := quality h;
     market_value := market_value h; owner := Some buyer; is_vacant := false |}.

Definition pay_move (b : HomeOwner) (hid : nat) : HomeOwner :=
  {| income := income b; savings := savings b - MOVING_COST_FIXED; house := hid;
     intention := intention b; target_house_id := target_house_id b |}.

(** Python's [list.remove]: the first occurrence goes. *)
Fixpoint remove_first (x : nat) (l : list nat) : list nat :=
  match l with
  | [] => []
  | y :: l' => if decide (x = y) then l' else y :: remove_first x l'
  end.

Definition execute_move (m : HousingModel) (buyer : nat) (house_id : option nat)
    : option HousingModel :=
  b ← agents m !! buyer;
  let old_house := house b in
  let houses1 := alter vacate old_house (house_map m) in
  let pool1 := vacancy_pool m ++ [old_house] in
  hid ← house_id;
  new_house ← houses1 !! hid;
  let houses2 := <[hid := occupy buyer new_house]> houses1 in
  let pool2 := if decide (hid ∈ pool1) then remove_first hid pool1 else pool1 in
  Some {| agents := <[buyer := pay_move b hid]> (agents m);
          house_map := houses2;
          vacancy_pool := pool2 |}.

(** ** Market clearing: [HousingModel.resolve_market_conflicts] *)

(** The dictionary [bids], in insertion order: target key and the bidders in
    the order they were appended. *)
Fixpoint add_bid (bids : list (option nat * list nat)) (target : option nat)
    (agent : nat) : list (option nat * list nat) :=
  match bids with
  | [] => [(target, [agent])]
  | (t, bs) :: rest =>
      if decide (t = target) then (t, bs ++ [agent]) :: rest
      else (t, bs) :: add_bid rest target agent
  end.

Definition bid_step (m : HousingModel) (bids : list (option nat * list nat))
    (i : nat) : list (option nat * list nat) :=
  match agents m !! i with
  | Some a =>
      if decide (intention a = BUY) then add_bid bids (target_house_id a) i
      else bids
  | None => bids
  end.

Definition collect_bids (m : HousingModel) : list (option nat * list nat) :=
  fold_left (bid_step m) (seq 0 (length (agents m))) [].

(** The sort key [x.savings + calculate_mortgage_capacity(x.income)], read in
    the model state at the time of the sort. *)
Definition capacity (a : HomeOwner) : Z :=
  savings a + calculate_mortgage_capacity (income a).

Definition capacity_of (m : HousingModel) (i : nat) : Z :=
  match agents m !! i with
  | Some a => capacity a
  | None => 0
  end.

(** [sorted(l, key=key, reverse=True)]: a stable sort, descending in the key;
    elements with equal keys keep their original order. *)
Fixpoint insert_desc (key : nat -> Z) (x : nat) (l : list nat) : list nat :=
  match l with
  | [] => [x]
  | y :: l' => if (key x <? key y)%Z then y :: insert_desc key x l' else x :: y :: l'
  end.

Definition sorted_desc (key : nat -> Z) (l : list nat) : list nat :=
  foldr (insert_desc key) [] l.

(** [sorted(potential_buyers, key=..., reverse=True)[0]] *)
Definition select_winner (m : HousingModel) (potential_buyers : list nat) : option nat :=
  head (sorted_desc (capacity_of m) potential_buyers).

Fixpoint resolve_loop (m : HousingModel) (bids : list (option nat * list nat))
    : option HousingModel :=
  match bids with
  | [] => Some m
  | (house_id, potential_buyers) :: rest =>
      winner ← select_winner m potential_buyers;
      m' ← execute_move m winner house_id;
      resolve_loop m' rest
  end.

Definition resolve_market_conflicts (m : HousingModel) : option HousingModel :=
  resolve_loop m (collect_bids m).

(** ** The tick: [HousingModel.step] *)

Definition pay_upgrade (a : HomeOwner) : HomeOwner :=
  {| income := income a; savings := savings a - COST_PER_LABEL_UPGRADE;
     house := house a; intention := STAY; target_house_id := target_house_id a |}.

Definition upgrade_agent (m : HousingModel) (i : nat) : HousingModel :=
  match agents m !! i with
  | Some a =>
      if decide (intention a = UPGRADE) then
        {| agents := <[i := pay_upgrade a]> (agents m);
           house_map := alter (fun h => update_energy_label h 1) (house a) (house_map m);
           vacancy_pool := vacancy_pool m |}
      else m
  | None => m
  end.

Definition handle_upgrades (m : HousingModel) : HousingModel :=
  fold_left upgrade_agent (seq 0 (length (agents m))) m.

Definition HousingModel_step (m : HousingModel) : option HousingModel :=
  m1 ← schedule_step m;
  m2 ← resolve_market_conflicts m1;
  Some (handle_upgrades m2).

Fixpoint run (n : nat) (m : HousingModel) : option HousingModel :=
  match n with
  | O => Some m
  | S n' => m' ← HousingModel_step m; run n' m'
  end.

(** ** Initialisation: [HousingModel.__init__]

    The values drawn from [random] are inputs: one tuple
    (energy_label, size, quality, price) per house and one pair
    (income, savings) per owner; [n_houses] and [n_agents] are the lengths of
    the two lists. *)

Definition HouseDraw : Type := Z * Z * Q * Z.
Definition OwnerDraw : Type := Z * Z.

Definition new_house (d : HouseDraw) : House :=
  let '(l, s, q, p) := d in
  {| energy_label := l; size := s; quality := q; market_value := p;
     owner := None; is_vacant := false |}.

Definition set_owner (o : nat) (h : House) : House :=
  {| energy_label := energy_label h; size := size h; quality := quality h;
     market_value := market_value h; owner := Some o; is_vacant := is_vacant h |}.

Definition set_vacant (h : House) : House :=
  {| energy_label := energy_label h; size := size h; quality := quality h;
     market_value := market_value h; owner := owner h; is_vacant := true |}.

(** One iteration of the loop that creates the owners; [all_houses[i]] raises
    [IndexError] when there are more owners than houses. *)
Definition add_owner (m : HousingModel) (d : OwnerDraw) : option HousingModel :=
  let i := length (agents m) in
  h ← house_map m !! i;
  Some {| agents := agents m ++ [ {| income := fst d; savings := snd d; house := i;
                                     intention := STAY; target_house_id := None |} ];
          house_map := <[i := set_owner i h]> (house_map m);
          vacancy_pool := vacancy_pool m |}.

Fixpoint add_owners (m : HousingModel) (ds : list OwnerDraw) : option HousingModel :=
  match ds with
  | [] => Some m
  | d :: ds' => m' ← add_owner m d; add_owners m' ds'
  end.

Definition mark_vacant (m : HousingModel) (i : nat) : HousingModel :=
  {| agents := agents m;
     house_map := alter set_vacant i (house_map m);
     vacancy_pool := vacancy_pool m ++ [i] |}.

Definition HousingModel_init (houses : list HouseDraw) (owners : list OwnerDraw)
    : option HousingModel :=
  let n_houses := length houses in
  let n_agents := length owners in
  m1 ← add_owners {| agents := []; house_map := new_house <$> houses;
                     vacancy_pool := [] |} owners;
  Some (fold_left mark_vacant (seq n_agents (n_houses - n_agents)) m1).

(** The ranges of the random draws of [__init__]. *)
Definition valid_house_draw (d : HouseDraw) : Prop :=
  let '(l, s, q, p) := d in
  (0 <= l <= 5)%Z /\ (50 <= s <= 150)%Z /\ (0 <= q)%Q /\ (q < 1)%Q
  /\ (100000 <= p <= 300000)%Z.

Definition valid_owner_draw (d : OwnerDraw) : Prop :=
  (30000 <= fst d <= 80000)%Z /\ (5000 <= snd d <= 50000)%Z.

(** A model state the program can be in between two ticks. *)
Inductive reachable : HousingModel -> Prop :=
  | reachable_init houses owners m :
      Forall valid_house_draw houses ->
      Forall valid_owner_draw owners ->
      HousingModel_init houses owners = Some m ->
      reachable m
  | reachable_step m m' :
      reachable m -> HousingModel_step m = Some m' -> reachable m'.

(** ** The normalisation as the specification words it

    Values below the lower bound go to 0, values above the upper bound go
    to 1, and the values in between are scaled linearly. *)
Definition spec_normalize (v lo hi : Q) : Q :=
  if Qle_bool v lo then 0%Q
  else if Qle_bool hi v then 1%Q
  else ((v - lo) / (hi - lo))%Q.

(** The weighted sum of the specification, with its pairing of weights:
    financial weight on liquidity, environment weight on the rating, comfort
    weight on the quality. *)
Definition spec_satisfaction (savings upgrade_cost moving_cost rating bonus_rating : Z)
    (quality : Q) : Q :=
  let norm_liquidity :=
    spec_normalize (inject_Z (savings - upgrade_cost - moving_cost))
                   (inject_Z MIN_WEALTH) (inject_Z MAX_WEALTH) in
  let norm_rating := spec_normalize (inject_Z (Z.min (rating + bonus_rating) 7)) 0 7 in
  let norm_quality := spec_normalize quality 0 MAX_QUALITY in
  ((4 # 10) * norm_liquidity + (3 # 10) * norm_rating + (3 # 10) * norm_quality)%Q.

(** ** Predicates and relations used in the proofs *)

Definition affordable (self : HomeOwner) (h : House) : Prop :=
  (market_value h <= savings self + calculate_mortgage_capacity (income self))%Z.

Definition move_score (self : HomeOwner) (h : House) : Q :=
  calculate_satisfaction self h 0 MOVING_COST_FIXED 0.

(** What the scan of the vacancy pool retains: nothing and the sentinel when
    no candidate is affordable, otherwise an affordable candidate whose score
    no affordable candidate exceeds. *)
Definition best_buy (self : HomeOwner) (pool : list (nat * House))
    (market : option nat * Q) : Prop :=
  match fst market with
  | None =>
      snd market = SENTINEL /\
      forall hid h, (hid, h) ∈ pool -> ~ affordable self h
  | Some hid =>
      exists h, (hid, h) ∈ pool /\ affordable self h /\
                snd market = move_score self h /\
                forall hid' h', (hid', h') ∈ pool -> affordable self h' ->
                                (move_score self h' <= snd market)%Q
  end.

(** The houses and the owners point at each other, a house is vacant exactly
    when it has no owner, and the vacancy pool lists exactly the vacant
    houses, each once. *)
Record wf (m : HousingModel) : Prop := mk_wf {
  wf_agent_house : forall i a, agents m !! i = Some a ->
    exists h, house_map m !! house a = Some h /\ owner h = Some i;
  wf_house_owner : forall j h i, house_map m !! j = Some h -> owner h = Some i ->
    exists a, agents m !! i = Some a /\ house a = j;
  wf_vacant : forall j h, house_map m !! j = Some h ->
    (is_vacant h = true <-> owner h = None);
  wf_pool : forall j, j ∈ vacancy_pool m <->
    exists h, house_map m !! j = Some h /\ is_vacant h = true;
  wf_pool_nodup : NoDup (vacancy_pool m)
}.

(** What a move leaves alone: the numbers of houses and owners, the label and
    the value of every house, the intention of every owner, and the whole
    record of every owner who is not a buyer. *)
Record move_rel (m m' : HousingModel) : Prop := mk_move_rel {
  mr_houses_len : length (house_map m') = length (house_map m);
  mr_agents_len : length (agents m') = length (agents m);
  mr_house : forall j h, house_map m !! j = Some h ->
    exists h', house_map m' !! j = Some h' /\
               energy_label h' = energy_label h /\ market_value h' = market_value h;
  mr_agent : forall i a, agents m !! i = Some a ->
    exists a', agents m' !! i = Some a' /\ intention a' = intention a /\
               (intention a <> BUY -> a' = a)
}.

(** All bidders of the dictionary, group after group. *)
Definition bidders (bids : list (option nat * list nat)) : list nat :=
  concat (bids.*2).

(** A group of the dictionary is never empty, and each of its bidders is an
    owner whose intention is BUY with the key of the group as target. *)
Definition group_ok (m : HousingModel) (g : option nat * list nat) : Prop :=
  g.2 <> [] /\
  forall i, i ∈ g.2 ->
    exists a, agents m !! i = Some a /\ intention a = BUY /\ target_house_id a = g.1.

(** What the loop needs of a group: its key is a house of the vacancy pool
    and its bidders are owners with intention BUY. *)
Definition bid_valid (m : HousingModel) (g : option nat * list nat) : Prop :=
  (exists t, g.1 = Some t /\ t ∈ vacancy_pool m) /\
  g.2 <> [] /\
  forall i, i ∈ g.2 -> exists a, agents m !! i = Some a /\ intention a = BUY.

(** The owner's intention and target are what [HomeOwner.step] computes for
    them in the model state [m]. *)
Definition decided (m : HousingModel) (a : HomeOwner) : Prop :=
  exists own, house_map m !! house a = Some own /\
    decision a own (pool_houses m) = Some (intention a, target_house_id a).

(** Two owner records that differ at most in intention and target. *)
Definition same_core (a a' : HomeOwner) : Prop :=
  income a' = income a /\ savings a' = savings a /\ house a' = house a.

(** Every owner's house is a key of [house_map]. *)
Definition houses_resolve (m : HousingModel) : Prop :=
  forall i a, agents m !! i = Some a -> is_Some (house_map m !! house a).

(** Every label is on the scale 0..7. *)
Definition labels_ok (m : HousingModel) : Prop :=
  forall j h, house_map m !! j = Some h -> (0 <= energy_label h <= 7)%Z.

(** An owner who is about to upgrade has a house below the top label. *)
Definition upgrade_ready (m : HousingModel) : Prop :=
  forall i a, agents m !! i = Some a -> intention a = UPGRADE ->
    exists h, house_map m !! house a = Some h /\ (energy_label h < 7)%Z.

(** No label and no market value went down from [m] to [m']. *)
Record grow_rel (m m' : HousingModel) : Prop := mk_grow_rel {
  gr_len : length (house_map m') = length (house_map m);
  gr_house : forall j h, house_map m !! j = Some h ->
    exists h', house_map m' !! j = Some h' /\
               (energy_label h <= energy_label h')%Z /\
               (market_value h <= market_value h')%Z
}.

(** Two house records with the same owner and vacancy flag. *)
Definition same_link (h h' : House) : Prop :=
  owner h' = owner h /\ is_vacant h' = is_vacant h.

(** Two owner records with the same house. *)
Definition same_home (a a' : HomeOwner) : Prop := house a' = house a.

(** The state after the upgrade of owner [i], whose record is [a]. *)
Definition upgraded (m : HousingModel) (i : nat) (a : HomeOwner) : HousingModel :=
  {| agents := <[i := pay_upgrade a]> (agents m);
     house_map := alter (fun h => update_energy_label h 1) (house a) (house_map m);
     vacancy_pool := vacancy_pool m |}.

(** The state while the owners are being created: owner [i] lives in house
    [i], the first houses are owned, nothing is vacant yet. *)
Record init_inv (m : HousingModel) : Prop := mk_init_inv {
  ii_agent : forall i a, agents m !! i = Some a -> house a = i;
  ii_house : forall j h, house_map m !! j = Some h ->
    is_vacant h = false /\
    owner h = if decide (j < length (agents m)) then Some j else None;
  ii_pool : vacancy_pool m = [];
  ii_len : length (agents m) <= length (house_map m)
}.

(** The state while the remaining houses are marked vacant, [k] being the
    next house to mark. *)
Record vac_inv (k : nat) (m : HousingModel) : Prop := mk_vac_inv {
  vi_agent : forall i a, agents m !! i = Some a -> house a = i;
  vi_house : forall j h, house_map m !! j = Some h ->
    is_vacant h = bool_decide (length (agents m) <= j < k) /\
    owner h = if decide (j < length (agents m)) then Some j else None;
  vi_pool : vacancy_pool m = seq (length (agents m)) (k - length (agents m));
  vi_len : length (agents m) <= k
}.

(** The state after the move of [buyer], whose record is [b], into the house
    [t], whose record is [ht], in closed form. *)
Definition moved (m : HousingModel) (buyer t : nat) (b : HomeOwner) (ht : House)
    : HousingModel :=
  {| agents := <[buyer := pay_move b t]> (agents m);
     house_map := <[t := occupy buyer ht]> (alter vacate (house b) (house_map m));
     vacancy_pool := remove_first t (vacancy_pool m) ++ [house b] |}.

(** The first element of a list carries the greatest key of the list. *)
Definition head_is_max (key : nat -> Z) (l : list nat) : Prop :=
  match l with
  | [] => True
  | y :: _ => forall z, z ∈ l -> (key z <= key y)%Z
  end.

(** ** The decision engine over any arithmetic of scores

    [HomeOwner.step] once more, with the arithmetic of the scores left open:
    [gt] is Python's [>] on two scores, [sentinel] is the default low value
    -999 and [satisfaction] is the method [calculate_satisfaction].  With
    [Qgtb], [SENTINEL] and [calculate_satisfaction] these are the definitions
    of the decision engine above; with the comparison and the rounded
    operations of double-precision numbers they are the method as Python
    evaluates it. *)
Section ScoredEngine.

Context {score : Type}.
Variable gt : score -> score -> bool.
Variable sentinel : score.
Variable satisfaction : HomeOwner -> House -> Z -> Z -> Z -> score.










End ScoredEngine.

(** ** Double-precision numbers

    The numbers a Python float holds: m * 2^e with a significand m of at most
    53 bits.  An [int] that is such a number converts to a float without
    rounding. *)
Definition double_value (x : Q) : Prop :=
  exists m e : Z,
    (Z.abs m < 2 ^ 53)%Z /\ (-1074 <= e <= 971)%Z /\ (x == inject_Z m * 2 ^ e)%Q.

(** The largest of them, (2^53 - 1) * 2^971. *)
Definition DOUBLE_MAX : Q := inject_Z ((2 ^ 53 - 1) * 2 ^ 971).

(** ** Statements about the assets *)

Definition owned (h : House) : bool :=
  match owner h with Some _ => true | None => false end.

(** Every asset is vacant or owned and not both, and the vacancy pool lists
    exactly the assets whose vacancy flag is set. *)
Definition assets_consistent (m : HousingModel) : Prop :=
  (forall j h, house_map m !! j = Some h -> xorb (is_vacant h) (owned h) = true) /\
  (forall j, j ∈ vacancy_pool m <->
             exists h, house_map m !! j = Some h /\ is_vacant h = true).

(** ** The reference resolver

    The resolver as the specification words it: the winner of every contested
    asset is computed first, over the frozen set of bids, and the moves are
    executed only afterwards. *)
Fixpoint compute_winners (m : HousingModel) (bids : list (option nat * list nat))
    : option (list (nat * option nat)) :=
  match bids with
  | [] => Some []
  | (house_id, potential_buyers) :: rest =>
      winner ← select_winner m potential_buyers;
      ws ← compute_winners m rest;
      Some ((winner, house_id) :: ws)
  end.

Fixpoint execute_moves (m : HousingModel) (ws : list (nat * option nat))
    : option HousingModel :=
  match ws with
  | [] => Some m
  | (winner, house_id) :: rest =>
      m' ← execute_move m winner house_id; execute_moves m' rest
  end.

Definition resolve_reference (m : HousingModel) : option HousingModel :=
  ws ← compute_winners m (collect_bids m);
  execute_moves m ws.

(** ** Example worlds *)

(** Three houses and two owners, drawn inside the ranges of [__init__]. *)
Definition example_houses : list HouseDraw :=
  [ (0, 50, 0 # 1, 100000); (4, 50, 1 # 2, 100000); (5, 50, 1 # 2, 300000) ]%Z.

Definition example_owners : list OwnerDraw := [ (30000, 6000); (80000, 5000) ]%Z.

(** Two bidders of capacity 60000 and 45000. *)
Definition bidder_draws : list OwnerDraw := [ (10000, 10000); (8000, 5000) ]%Z.

(** The state [__init__] builds from [example_houses] and [example_owners]. *)
Definition example_world : HousingModel :=
  {| agents :=
       [ {| income := 30000; savings := 6000; house := 0;
            intention := STAY; target_house_id := None |};
         {| income := 80000; savings := 5000; house := 1;
            intention := STAY; target_house_id := None |} ];
     house_map :=
       [ {| energy_label := 0; size := 50; quality := 0 # 1; market_value := 100000;
            owner := Some 0; is_vacant := false |};
         {| energy_label := 4; size := 50; quality := 1 # 2; market_value := 100000;
            owner := Some 1; is_vacant := false |};
         {| energy_label := 5; size := 50; quality := 1 # 2; market_value := 300000;
            owner := None; is_vacant := true |} ];
     vacancy_pool := [2] |}.

(** The state [__init__] builds from [example_houses] and [bidder_draws]. *)
Definition bidders_world : HousingModel :=
  {| agents :=
       [ {| income := 10000; savings := 10000; house := 0;
            intention := STAY; target_house_id := None |};
         {| income := 8000; savings := 5000; house := 1;
            intention := STAY; target_house_id := None |} ];
     house_map := house_map example_world;
     vacancy_pool := [2] |}.

(** ** The initial state in closed form *)

(** The owner that [__init__] creates at position [i] from the draw [d]. *)
Definition initial_owner (i : nat) (d : OwnerDraw) : HomeOwner :=
  {| income := fst d; savings := snd d; house := i;
     intention := STAY; target_house_id := None |}.

(** The house at position [j] after [__init__] with [n] owners: owned by
    owner [j] when [j < n], vacant otherwise. *)
Definition initial_house (n j : nat) (d : HouseDraw) : House :=
  let h := new_house d in
  {| energy_label := energy_label h; size := size h; quality := quality h;
     market_value := market_value h;
     owner := if decide (j < n) then Some j else None;
     is_vacant := bool_decide (n <= j) |}.

(** ** The reported metric: [compute_avg_label] *)

(** [[a.house.energy_label for a in model.schedule.agents]] *)
Definition agent_labels (m : HousingModel) : list Z :=
  omap (fun a => energy_label <$> house_map m !! house a) (agents m).

(** Python's [sum] of a list of integers. *)
Definition sum_labels (ls : list Z) : Z := foldr Z.add 0%Z ls.

Definition compute_avg_label (m : HousingModel) : Q :=
  match agent_labels m with
  | [] => 0%Q
  | ls => (inject_Z (sum_labels ls) / inject_Z (Z.of_nat (length ls)))%Q
  end.

(** Two house records with the same label, size, quality and value. *)
Definition same_attributes (h h' : House) : Prop :=
  energy_label h' = energy_label h /\ size h' = size h /\
  quality h' = quality h /\ market_value h' = market_value h.

(** * Properties of the helper functions *)

Section Normalize.

Local Open Scope Q_scope.

Lemma Qgtb_spec (a b : Q) : Qgtb a b = true <-> b < a.
Proof.
  unfold Qgtb. rewrite Qlt_alt. destruct (b ?= a); split; congruence.
Qed.

Lemma Qgtb_false (a b : Q) : Qgtb a b = false <-> a <= b.
Proof.
  rewrite <- not_true_iff_false, Qgtb_spec. split.
  - apply Qnot_lt_le.
  - apply Qle_not_lt.
Qed.

Lemma normalize_degenerate (v lo : Q) : normalize v lo lo = 0.
Proof.
  unfold normalize. now rewrite (proj2 (Qeq_bool_iff lo lo) (Qeq_refl lo)).
Qed.

Lemma normalize_unfold (v lo hi : Q) :
  lo < hi -> normalize v lo hi = (Qmax lo (Qmin v hi) - lo) / (hi - lo).
Proof.
  intros Hlt. unfold normalize.
  destruct (Qeq_bool hi lo) eqn:E; [|reflexivity].
  apply Qeq_bool_iff in E. rewrite E in Hlt. now apply Qlt_irrefl in Hlt.
Qed.

Lemma clamp_bounds (v lo hi : Q) :
  lo <= hi -> lo <= Qmax lo (Qmin v hi) /\ Qmax lo (Qmin v hi) <= hi.
Proof.
  intros Hle. split.
  - apply Q.le_max_l.
  - apply Q.max_lub; [exact Hle | apply Q.le_min_r].
Qed.

Lemma clamp_mono (v1 v2 lo hi : Q) :
  v1 <= v2 -> Qmax lo (Qmin v1 hi) <= Qmax lo (Qmin v2 hi).
Proof.
  intros Hle. apply Q.max_le_compat_l. now apply Q.min_le_compat_r.
Qed.

Lemma clamp_low (v lo hi : Q) : v <= lo -> Qmax lo (Qmin v hi) == lo.
Proof.
  intros Hle. apply Q.max_l.
  eapply Qle_trans; [apply Q.le_min_l | exact Hle].
Qed.

Lemma clamp_high (v lo hi : Q) : lo <= hi -> hi <= v -> Qmax lo (Qmin v hi) == hi.
Proof.
  intros Hlh Hle. rewrite (Q.min_r v hi Hle). now apply Q.max_r.
Qed.

Lemma clamp_mid (v lo hi : Q) : lo <= v -> v <= hi -> Qmax lo (Qmin v hi) == v.
Proof.
  intros H1 H2. rewrite (Q.min_l v hi H2). now apply Q.max_r.
Qed.

Lemma div_width_mono (x y w : Q) : 0 < w -> x <= y -> x / w <= y / w.
Proof.
  intros Hw Hxy. unfold Qdiv. apply Qmult_le_compat_r; [exact Hxy|].
  apply Qlt_le_weak. now apply Qinv_lt_0_compat.
Qed.

Lemma normalize_mono (v1 v2 lo hi : Q) :
  lo < hi -> v1 <= v2 -> normalize v1 lo hi <= normalize v2 lo hi.
Proof.
  intros Hlt Hle. rewrite !normalize_unfold by exact Hlt.
  apply div_width_mono.
  - now apply (proj1 (Qlt_minus_iff lo hi)).
  - apply Qplus_le_compat; [now apply clamp_mono | apply Qle_refl].
Qed.

Lemma normalize_low (v lo hi : Q) : lo < hi -> v <= lo -> normalize v lo hi == 0.
Proof.
  intros Hlt Hle. rewrite normalize_unfold by exact Hlt.
  rewrite (clamp_low v lo hi Hle). field.
  intros E. apply Qlt_minus_iff in Hlt. unfold Qminus in E. rewrite E in Hlt.
  now apply Qlt_irrefl in Hlt.
Qed.

Lemma normalize_high (v lo hi : Q) : lo < hi -> hi <= v -> normalize v lo hi == 1.
Proof.
  intros Hlt Hle. rewrite normalize_unfold by exact Hlt.
  rewrite (clamp_high v lo hi (Qlt_le_weak _ _ Hlt) Hle). field.
  intros E. apply Qlt_minus_iff in Hlt. unfold Qminus in E. rewrite E in Hlt.
  now apply Qlt_irrefl in Hlt.
Qed.

Lemma normalize_mid (v lo hi : Q) :
  lo < hi -> lo <= v -> v <= hi -> normalize v lo hi == (v - lo) / (hi - lo).
Proof.
  intros Hlt H1 H2. rewrite normalize_unfold by exact Hlt.
  now rewrite (clamp_mid v lo hi H1 H2).
Qed.

Lemma normalize_range (v lo hi : Q) :
  lo < hi -> 0 <= normalize v lo hi /\ normalize v lo hi <= 1.
Proof.
  intros Hlt. split.
  - rewrite <- (normalize_low lo lo hi Hlt (Qle_refl lo)).
    destruct (Qlt_le_dec v lo) as [H|H].
    + rewrite (normalize_low v lo hi Hlt (Qlt_le_weak _ _ H)).
      rewrite (normalize_low lo lo hi Hlt (Qle_refl lo)). apply Qle_refl.
    + now apply normalize_mono.
  - rewrite <- (normalize_high hi lo hi Hlt (Qle_refl hi)).
    destruct (Qlt_le_dec hi v) as [H|H].
    + rewrite (normalize_high v lo hi Hlt (Qlt_le_weak _ _ H)).
      rewrite (normalize_high hi lo hi Hlt (Qle_refl hi)). apply Qle_refl.
    + now apply normalize_mono.
Qed.

Lemma normalize_spec_normalize (v lo hi : Q) :
  lo < hi -> normalize v lo hi == spec_normalize v lo hi.
Proof.
  intros Hlt. unfold spec_normalize.
  destruct (Qle_bool v lo) eqn:E1.
  - apply Qle_bool_iff in E1. now apply normalize_low.
  - destruct (Qle_bool hi v) eqn:E2.
    + apply Qle_bool_iff in E2. now apply normalize_high.
    + apply normalize_mid; [exact Hlt| |]; apply Qlt_le_weak, Qnot_le_lt;
        intros H; apply Qle_bool_iff in H; congruence.
Qed.

Lemma spec_normalize_range (v lo hi : Q) :
  lo < hi -> 0 <= spec_normalize v lo hi /\ spec_normalize v lo hi <= 1.
Proof.
  intros Hlt. rewrite <- (normalize_spec_normalize v lo hi Hlt).
  now apply normalize_range.
Qed.

End Normalize.

Section Satisfaction.

Local Open Scope Q_scope.

Lemma wealth_bounds : inject_Z MIN_WEALTH < inject_Z MAX_WEALTH.
Proof. reflexivity. Qed.

Lemma label_bounds : 0 < 7.
Proof. reflexivity. Qed.

Lemma quality_bounds : 0 < MAX_QUALITY.
Proof. reflexivity. Qed.

Lemma weighted_sum_nonneg (x y z : Q) :
  0 <= x -> 0 <= y -> 0 <= z ->
  0 <= WEIGHT_FINANCIAL * x + WEIGHT_ENVIRONMENT * y + WEIGHT_COMFORT * z.
Proof.
  intros Hx Hy Hz.
  assert (Hw : forall w v, 0 <= w -> 0 <= v -> 0 <= w * v)
    by (intros; now apply Qmult_le_0_compat).
  assert (H1 := Hw WEIGHT_FINANCIAL x ltac:(discriminate) Hx).
  assert (H2 := Hw WEIGHT_ENVIRONMENT y ltac:(discriminate) Hy).
  assert (H3 := Hw WEIGHT_COMFORT z ltac:(discriminate) Hz).
  lra.
Qed.

Lemma satisfaction_nonneg (self : HomeOwner) (h : House) (uc mc b : Z) :
  0 <= calculate_satisfaction self h uc mc b.
Proof.
  unfold calculate_satisfaction. cbv zeta.
  apply weighted_sum_nonneg.
  - apply normalize_range, wealth_bounds.
  - apply normalize_range, label_bounds.
  - apply normalize_range, quality_bounds.
Qed.

Lemma sentinel_negative : SENTINEL < 0.
Proof. reflexivity. Qed.

Lemma sentinel_below_satisfaction (self : HomeOwner) (h : House) (uc mc b : Z) :
  SENTINEL < calculate_satisfaction self h uc mc b.
Proof.
  eapply Qlt_le_trans; [apply sentinel_negative | apply satisfaction_nonneg].
Qed.

End Satisfaction.

(** * The decision engine *)

Section Decision.

Local Open Scope Q_scope.

Lemma evaluate_market_snoc (self : HomeOwner) (pool : list (nat * House)) c :
  evaluate_market self (pool ++ [c]) = market_iter self (evaluate_market self pool) c.
Proof. unfold evaluate_market. now rewrite fold_left_app. Qed.

Lemma evaluate_market_best (self : HomeOwner) (pool : list (nat * House)) :
  best_buy self pool (evaluate_market self pool).
Proof.
  induction pool as [|[hid h] pool IH] using rev_ind.
  - cbn. split; [reflexivity|]. intros ? ? H. inversion H.
  - rewrite evaluate_market_snoc.
    destruct (evaluate_market self pool) as [best s] eqn:E.
    unfold market_iter, best_buy in *. cbn [fst snd] in *.

    fold (move_score self h).
    destruct (Z.leb_spec (market_value h)
                (savings self + calculate_mortgage_capacity (income self))) as [Ha|Ha].
    + destruct (Qgtb (move_score self h) s) eqn:G; cbn [fst snd].
      * apply Qgtb_spec in G. exists h. split; [|split; [exact Ha|split; [reflexivity|]]].
        { apply elem_of_app. right. apply list_elem_of_singleton. reflexivity. }
        intros hid' h' Hin Haff. apply elem_of_app in Hin as [Hin|Hin].
        -- destruct best as [b|].
           ++ destruct IH as (h0 & _ & _ & _ & Hmax).
              eapply Qle_trans; [apply (Hmax _ _ Hin Haff)|]. now apply Qlt_le_weak.
           ++ destruct IH as [_ Hno]. exfalso. exact (Hno _ _ Hin Haff).
        -- apply list_elem_of_singleton in Hin. inversion Hin; subst. apply Qle_refl.
      * apply Qgtb_false in G. destruct best as [b|].
        -- destruct IH as (h0 & Hin0 & Haff0 & Hs & Hmax).
           exists h0. split; [apply elem_of_app; now left|].
           split; [exact Haff0|]. split; [exact Hs|].
           intros hid' h' Hin Haff. apply elem_of_app in Hin as [Hin|Hin].
           ++ exact (Hmax _ _ Hin Haff).
           ++ apply list_elem_of_singleton in Hin. inversion Hin; subst. exact G.
        -- destruct IH as [Hs _]. subst s. exfalso.
           apply (Qle_not_lt _ _ G). exact (sentinel_below_satisfaction self h 0 MOVING_COST_FIXED 0).
    + destruct best as [b|].
      * destruct IH as (h0 & Hin0 & Haff0 & Hs & Hmax).
        exists h0. split; [apply elem_of_app; now left|].
        split; [exact Haff0|]. split; [exact Hs|].
        intros hid' h' Hin Haff. apply elem_of_app in Hin as [Hin|Hin].
        -- exact (Hmax _ _ Hin Haff).
        -- apply list_elem_of_singleton in Hin. inversion Hin; subst.
           unfold affordable in Haff. lia.
      * destruct IH as [Hs Hno]. split; [exact Hs|].
        intros hid' h' Hin Haff. apply elem_of_app in Hin as [Hin|Hin].
        -- exact (Hno _ _ Hin Haff).
        -- apply list_elem_of_singleton in Hin. inversion Hin; subst.
           unfold affordable in Haff. lia.
Qed.

Lemma S_current_nonneg (self : HomeOwner) (own : House) : 0 <= S_current self own.
Proof. exact (satisfaction_nonneg self own 0 0 0). Qed.

Lemma S_upgrade_gate (self : HomeOwner) (own : House) :
  (savings self <= COST_PER_LABEL_UPGRADE)%Z \/ (7 <= energy_label own)%Z ->
  S_upgrade self own = SENTINEL.
Proof.
  intros H. unfold S_upgrade.
  destruct (Z.gtb_spec (savings self) COST_PER_LABEL_UPGRADE);
    destruct (Z.ltb_spec (energy_label own) 7); cbn [andb]; try reflexivity.
  lia.
Qed.

Lemma S_upgrade_sentinel_or_score (self : HomeOwner) (own : House) :
  SENTINEL <= S_upgrade self own.
Proof.
  unfold S_upgrade.
  destruct ((savings self >? COST_PER_LABEL_UPGRADE)%Z && (energy_label own <? 7)%Z).
  - apply Qlt_le_weak.
    exact (sentinel_below_satisfaction self own COST_PER_LABEL_UPGRADE 0 1).
  - apply Qle_refl.
Qed.

Lemma no_house_no_buy (self : HomeOwner) (own : House) (pool : list (nat * House)) :
  fst (evaluate_market self pool) = None ->
  Qgtb (snd (evaluate_market self pool)) (S_current self own) = false.
Proof.
  intros Hn. pose proof (evaluate_market_best self pool) as Hb.
  unfold best_buy in Hb. rewrite Hn in Hb. destruct Hb as [Hs _]. rewrite Hs.
  apply Qgtb_false. apply Qlt_le_weak.
  eapply Qlt_le_trans; [exact sentinel_negative | exact (S_current_nonneg self own)].
Qed.

Lemma decision_total (self : HomeOwner) (own : House) (pool : list (nat * House)) :
  exists d, decision self own pool = Some d.
Proof.
  unfold decision, set_intention.
  pose proof (no_house_no_buy self own pool) as Hn.
  destruct (evaluate_market self pool) as [[hid|] sm]; cbn [fst snd] in *.
  - clear Hn. destruct (_ && _); [eexists; reflexivity|].
    destruct (Qgtb (S_upgrade self own) (S_current self own)); eexists; reflexivity.
  - rewrite (Hn eq_refl), andb_false_r.
    destruct (Qgtb (S_upgrade self own) (S_current self own)); eexists; reflexivity.
Qed.

End Decision.

(** * The ownership invariant *)

Section Move.

Lemma remove_first_elem_of (x y : nat) (l : list nat) :
  NoDup l -> y ∈ remove_first x l <-> y ∈ l /\ y <> x.
Proof.
  induction l as [|z l IH]; intros Hnd; cbn.
  - split; [intros H; inversion H | intros [H _]; inversion H].
  - apply NoDup_cons in Hnd as [Hz Hnd]. destruct (decide (x = z)) as [->|Hne].
    + rewrite elem_of_cons. split.
      * intros Hy. split; [now right|]. intros ->. contradiction.
      * intros [[->|Hy] Hn]; [contradiction|exact Hy].
    + rewrite !elem_of_cons, (IH Hnd). split.
      * intros [->|[Hy Hn]]; split; auto.
      * intros [[->|Hy] Hn]; auto.
Qed.

Lemma remove_first_NoDup (x : nat) (l : list nat) :
  NoDup l -> NoDup (remove_first x l).
Proof.
  induction l as [|z l IH]; intros Hnd; cbn; [constructor|].
  apply NoDup_cons in Hnd as [Hz Hnd]. destruct (decide (x = z)); [exact Hnd|].
  apply NoDup_cons. split; [|now apply IH].
  rewrite (remove_first_elem_of x z l Hnd). tauto.
Qed.

Lemma remove_first_app (x : nat) (l k : list nat) :
  x ∈ l -> remove_first x (l ++ k) = remove_first x l ++ k.
Proof.
  induction l as [|z l IH]; intros Hin; [inversion Hin|]. cbn.
  destruct (decide (x = z)); [reflexivity|].
  apply elem_of_cons in Hin as [->|Hin]; [congruence|]. now rewrite IH.
Qed.

Lemma execute_move_inv (m m' : HousingModel) (buyer : nat) (k : option nat) :
  execute_move m buyer k = Some m' ->
  exists b t hnew,
    agents m !! buyer = Some b /\ k = Some t /\
    alter vacate (house b) (house_map m) !! t = Some hnew /\
    m' = {| agents := <[buyer := pay_move b t]> (agents m);
            house_map := <[t := occupy buyer hnew]> (alter vacate (house b) (house_map m));
            vacancy_pool :=
              if decide (t ∈ vacancy_pool m ++ [house b])
              then remove_first t (vacancy_pool m ++ [house b])
              else vacancy_pool m ++ [house b] |}.
Proof.
  unfold execute_move. intros H.
  destruct (agents m !! buyer) as [b|] eqn:Hb; [|discriminate]. cbn in H.
  destruct k as [t|]; [|discriminate]. cbn in H.
  destruct (alter vacate (house b) (house_map m) !! t) as [hnew|] eqn:Ht; [|discriminate].
  cbn in H. inversion H. exists b, t, hnew. auto.
Qed.

Lemma execute_move_Some (m : HousingModel) (buyer t : nat) (b : HomeOwner) (hnew : House) :
  agents m !! buyer = Some b ->
  alter vacate (house b) (house_map m) !! t = Some hnew ->
  execute_move m buyer (Some t) =
    Some {| agents := <[buyer := pay_move b t]> (agents m);
            house_map := <[t := occupy buyer hnew]> (alter vacate (house b) (house_map m));
            vacancy_pool :=
              if decide (t ∈ vacancy_pool m ++ [house b])
              then remove_first t (vacancy_pool m ++ [house b])
              else vacancy_pool m ++ [house b] |}.
Proof.
  intros Hb Ht. unfold execute_move. rewrite Hb. cbn. rewrite Ht. reflexivity.
Qed.

(** A move never fails when the buyer exists and the key of the target is in
    [house_map]; it does not look at savings or prices. *)
Lemma execute_move_defined (m : HousingModel) (buyer t : nat) :
  is_Some (agents m !! buyer) -> is_Some (house_map m !! t) ->
  is_Some (execute_move m buyer (Some t)).
Proof.
  intros [b Hb] Ht.
  assert (is_Some (alter vacate (house b) (house_map m) !! t)) as [hnew Hn].
  { apply lookup_lt_is_Some. rewrite length_alter. now apply lookup_lt_is_Some. }
  rewrite (execute_move_Some m buyer t b hnew Hb Hn). eauto.
Qed.

Lemma execute_move_savings (m m' : HousingModel) (buyer : nat) (k : option nat)
    (b : HomeOwner) :
  agents m !! buyer = Some b ->
  execute_move m buyer k = Some m' ->
  exists b', agents m' !! buyer = Some b' /\
             savings b' = (savings b - MOVING_COST_FIXED)%Z /\
             income b' = income b /\ k = Some (house b').
Proof.
  intros Hb H. apply execute_move_inv in H as (b0 & t & hnew & Hb0 & -> & _ & ->).
  rewrite Hb in Hb0. inversion Hb0; subst b0. cbn.
  exists (pay_move b t). split; [|auto].
  apply list_lookup_insert_eq. now apply lookup_lt_Some in Hb.
Qed.

Lemma execute_move_others (m m' : HousingModel) (buyer i : nat) (k : option nat) :
  execute_move m buyer k = Some m' -> i <> buyer ->
  agents m' !! i = agents m !! i.
Proof.
  intros H Hne. apply execute_move_inv in H as (b0 & t & hnew & Hb0 & -> & _ & ->).
  cbn. apply list_lookup_insert_ne. congruence.
Qed.

End Move.

Section MoveInvariant.

Variables (m : HousingModel) (buyer t : nat) (b : HomeOwner).
Hypothesis Hwf : wf m.
Hypothesis Hb : agents m !! buyer = Some b.
Hypothesis Ht : t ∈ vacancy_pool m.

Lemma buyer_house : exists ho, house_map m !! house b = Some ho /\ owner ho = Some buyer.
Proof. exact (wf_agent_house m Hwf buyer b Hb). Qed.

Lemma target_house :
  exists ht, house_map m !! t = Some ht /\ is_vacant ht = true /\ owner ht = None.
Proof.
  destruct (proj1 (wf_pool m Hwf t) Ht) as (ht & Hl & Hv).
  exists ht. split; [exact Hl|]. split; [exact Hv|].
  now apply (wf_vacant m Hwf t ht Hl).
Qed.

Lemma target_not_own : t <> house b.
Proof.
  destruct buyer_house as (ho & Ho & Hown), target_house as (ht & Hl & _ & Hnone).
  intros ->. rewrite Ho in Hl. inversion Hl; subst. congruence.
Qed.

Lemma own_not_in_pool : house b ∉ vacancy_pool m.
Proof.
  destruct buyer_house as (ho & Ho & Hown). intros Hin.
  destruct (proj1 (wf_pool m Hwf _) Hin) as (h & Hl & Hv).
  rewrite Ho in Hl. inversion Hl; subst h.
  apply (wf_vacant m Hwf _ ho Ho) in Hv. congruence.
Qed.

Lemma execute_move_moved (ht : House) :
  house_map m !! t = Some ht ->
  execute_move m buyer (Some t) = Some (moved m buyer t b ht).
Proof.
  intros Hl.
  assert (Hn : alter vacate (house b) (house_map m) !! t = Some ht).
  { rewrite list_lookup_alter_ne; [exact Hl|]. pose proof target_not_own. congruence. }
  rewrite (execute_move_Some m buyer t b ht Hb Hn). unfold moved. do 2 f_equal.
  rewrite decide_True by (apply elem_of_app; now left).
  now apply remove_first_app.
Qed.

Lemma moved_house_lookup (ht ho : House) (j : nat) :
  house_map m !! t = Some ht -> house_map m !! house b = Some ho ->
  house_map (moved m buyer t b ht) !! j =
    if decide (j = t) then Some (occupy buyer ht)
    else if decide (j = house b) then Some (vacate ho)
    else house_map m !! j.
Proof.
  intros Hl Ho. cbn. destruct (decide (j = t)) as [->|Hjt].
  - apply list_lookup_insert_eq. rewrite length_alter. now apply lookup_lt_Some in Hl.
  - rewrite list_lookup_insert_ne by congruence.
    destruct (decide (j = house b)) as [->|Hjo].
    + now rewrite list_lookup_alter_eq, Ho.
    + rewrite list_lookup_alter_ne by congruence. reflexivity.
Qed.

Lemma moved_agent_lookup (ht : House) (i : nat) :
  agents (moved m buyer t b ht) !! i =
    if decide (i = buyer) then Some (pay_move b t) else agents m !! i.
Proof.
  cbn. destruct (decide (i = buyer)) as [->|Hne].
  - apply list_lookup_insert_eq. now apply lookup_lt_Some in Hb.
  - apply list_lookup_insert_ne. congruence.
Qed.

Lemma moved_pool (ht : House) (j : nat) :
  j ∈ vacancy_pool (moved m buyer t b ht) <-> (j ∈ vacancy_pool m /\ j <> t) \/ j = house b.
Proof.
  cbn. rewrite elem_of_app, list_elem_of_singleton.
  now rewrite (remove_first_elem_of t j _ (wf_pool_nodup m Hwf)).
Qed.

Lemma moved_wf (ht : House) : house_map m !! t = Some ht -> wf (moved m buyer t b ht).
Proof.
  intros Hl. destruct buyer_house as (ho & Ho & Hown).
  destruct target_house as (ht' & Hl' & Hvt & Hnone).
  rewrite Hl in Hl'. inversion Hl'; subst ht'. clear Hl'.
  pose proof target_not_own as Hto. pose proof own_not_in_pool as Hop.
  constructor.
  - (* every owner's house names the owner *)
    intros i a. rewrite moved_agent_lookup. destruct (decide (i = buyer)) as [->|Hib].
    + intros [= <-]. cbn [house pay_move].
      rewrite (moved_house_lookup ht ho t Hl Ho), decide_True by reflexivity.
      eexists. split; [reflexivity|reflexivity].
    + intros Ha. destruct (wf_agent_house m Hwf i a Ha) as (h & Hh & Hoh).
      rewrite (moved_house_lookup ht ho _ Hl Ho).
      destruct (decide (house a = t)) as [E|_].
      { rewrite E, Hl in Hh. inversion Hh; subst. congruence. }
      destruct (decide (house a = house b)) as [E|_].
      { rewrite E, Ho in Hh. inversion Hh; subst. congruence. }
      eauto.
  - (* every owned house is the house of its owner *)
    intros j h i. rewrite (moved_house_lookup ht ho j Hl Ho).
    destruct (decide (j = t)) as [->|Hjt].
    + intros [= <-]. cbn [owner occupy]. intros [= <-].
      rewrite moved_agent_lookup, decide_True by reflexivity. eauto.
    + destruct (decide (j = house b)) as [->|Hjo].
      * intros [= <-]. cbn. discriminate.
      * intros Hh Hoh. destruct (wf_house_owner m Hwf j h i Hh Hoh) as (a & Ha & Hj).
        rewrite moved_agent_lookup. destruct (decide (i = buyer)) as [->|_]; [|eauto].
        rewrite Hb in Ha. inversion Ha; subst. contradiction.
  - (* vacant exactly when there is no owner *)
    intros j h. rewrite (moved_house_lookup ht ho j Hl Ho).
    destruct (decide (j = t)) as [->|Hjt].
    + intros [= <-]. cbn. split; discriminate.
    + destruct (decide (j = house b)) as [->|Hjo].
      * intros [= <-]. cbn. tauto.
      * apply (wf_vacant m Hwf).
  - (* the pool lists the vacant houses *)
    intros j. rewrite moved_pool, (moved_house_lookup ht ho j Hl Ho).
    destruct (decide (j = t)) as [->|Hjt].
    + split.
      * intros [[_ Hn]|E]; [contradiction|]. contradiction.
      * intros (h & [= <-] & Hv). cbn in Hv. discriminate.
    + destruct (decide (j = house b)) as [->|Hjo].
      * split; [|auto]. intros _. eexists. split; [reflexivity|reflexivity].
      * rewrite (wf_pool m Hwf j). split.
        -- intros [[H _]|E]; [exact H|contradiction].
        -- intros H. left. split; [exact H|exact Hjt].
  - (* no house is listed twice *)
    cbn. apply NoDup_app. split; [|split].
    + apply remove_first_NoDup, (wf_pool_nodup m Hwf).
    + intros x Hx. apply (remove_first_elem_of t x _ (wf_pool_nodup m Hwf)) in Hx as [Hx _].
      intros Hs. apply list_elem_of_singleton in Hs. subst x. contradiction.
    + apply NoDup_singleton.
Qed.

End MoveInvariant.

Section MoveRel.

Lemma move_rel_refl (m : HousingModel) : move_rel m m.
Proof. constructor; eauto. Qed.

Lemma move_rel_trans (m1 m2 m3 : HousingModel) :
  move_rel m1 m2 -> move_rel m2 m3 -> move_rel m1 m3.
Proof.
  intros H12 H23. constructor.
  - rewrite (mr_houses_len _ _ H23). apply (mr_houses_len _ _ H12).
  - rewrite (mr_agents_len _ _ H23). apply (mr_agents_len _ _ H12).
  - intros j h Hh. destruct (mr_house _ _ H12 j h Hh) as (h2 & Hh2 & El & Ev).
    destruct (mr_house _ _ H23 j h2 Hh2) as (h3 & Hh3 & El3 & Ev3).
    exists h3. split; [exact Hh3|]. split; congruence.
  - intros i a Ha. destruct (mr_agent _ _ H12 i a Ha) as (a2 & Ha2 & Ei & Eq2).
    destruct (mr_agent _ _ H23 i a2 Ha2) as (a3 & Ha3 & Ei3 & Eq3).
    exists a3. split; [exact Ha3|]. split; [congruence|].
    intros Hn. rewrite <- (Eq2 Hn). apply Eq3. congruence.
Qed.

Lemma execute_move_rel (m m' : HousingModel) (buyer : nat) (k : option nat)
    (b : HomeOwner) :
  agents m !! buyer = Some b -> intention b = BUY ->
  execute_move m buyer k = Some m' -> move_rel m m'.
Proof.
  intros Hb Hint H.
  apply execute_move_inv in H as (b0 & t & hnew & Hb0 & -> & Hn & ->).
  rewrite Hb in Hb0. inversion Hb0; subst b0. clear Hb0.
  constructor; cbn.
  - now rewrite length_insert, length_alter.
  - now rewrite length_insert.
  - intros j h Hh.
    assert (Ha : exists h1, alter vacate (house b) (house_map m) !! j = Some h1 /\
                   energy_label h1 = energy_label h /\ market_value h1 = market_value h).
    { destruct (decide (house b = j)) as [E|E].
      - rewrite E, list_lookup_alter_eq, Hh. cbn. eauto.
      - rewrite list_lookup_alter_ne by exact E. eauto. }
    destruct Ha as (h1 & Hh1 & El & Ev).
    destruct (decide (t = j)) as [->|E].
    + rewrite list_lookup_insert_eq
        by (rewrite length_alter; now apply lookup_lt_Some in Hh).
      rewrite Hn in Hh1. inversion Hh1; subst h1. cbn. eauto.
    + rewrite list_lookup_insert_ne by exact E. eauto.
  - intros i a Ha. destruct (decide (buyer = i)) as [->|E].
    + rewrite list_lookup_insert_eq by (now apply lookup_lt_Some in Ha).
      rewrite Hb in Ha. inversion Ha; subst a.
      exists (pay_move b t). split; [reflexivity|]. split; [reflexivity|]. congruence.
    + rewrite list_lookup_insert_ne by exact E. eauto.
Qed.

End MoveRel.

(** * Winner selection *)

Section Sorting.

Variable key : nat -> Z.

Lemma insert_desc_perm (x : nat) (l : list nat) : insert_desc key x l ≡ₚ x :: l.
Proof.
  induction l as [|y l IH]; cbn; [reflexivity|].
  destruct (key x <? key y)%Z; [|reflexivity].
  rewrite IH. apply Permutation_swap.
Qed.

Lemma sorted_desc_perm (l : list nat) : sorted_desc key l ≡ₚ l.
Proof.
  induction l as [|x l IH]; cbn; [reflexivity|].
  rewrite insert_desc_perm. now constructor.
Qed.

Lemma insert_desc_head_is_max (x : nat) (l : list nat) :
  head_is_max key l -> head_is_max key (insert_desc key x l).
Proof.
  destruct l as [|y l]; cbn.
  - intros _ z Hz. apply list_elem_of_singleton in Hz. subst. lia.
  - intros Hmax. destruct (Z.ltb_spec (key x) (key y)) as [Hlt|Hge]; cbn.
    + intros z Hz. apply elem_of_cons in Hz as [->|Hz]; [lia|].
      rewrite insert_desc_perm in Hz. apply elem_of_cons in Hz as [->|Hz]; [lia|].
      apply Hmax. now right.
    + intros z Hz. apply elem_of_cons in Hz as [->|Hz]; [lia|].
      specialize (Hmax z Hz). lia.
Qed.

Lemma sorted_desc_head_is_max (l : list nat) : head_is_max key (sorted_desc key l).
Proof.
  induction l as [|x l IH]; cbn; [exact I|]. now apply insert_desc_head_is_max.
Qed.

Lemma sorted_desc_head (l : list nat) :
  l <> [] ->
  exists w, head (sorted_desc key l) = Some w /\ w ∈ l /\
            forall z, z ∈ l -> (key z <= key w)%Z.
Proof.
  intros Hne. pose proof (sorted_desc_perm l) as Hp.
  pose proof (sorted_desc_head_is_max l) as Hm.
  destruct (sorted_desc key l) as [|w s] eqn:E.
  - symmetry in Hp. apply Permutation_nil_r in Hp. contradiction.
  - exists w. split; [reflexivity|]. split.
    + rewrite <- Hp. now left.
    + intros z Hz. apply Hm. now rewrite Hp.
Qed.

End Sorting.

Lemma insert_desc_ext (key1 key2 : nat -> Z) (x : nat) (l : list nat) :
  key1 x = key2 x -> (forall z, z ∈ l -> key1 z = key2 z) ->
  insert_desc key1 x l = insert_desc key2 x l.
Proof.
  intros Hx. induction l as [|y l IH]; intros Hl; cbn; [reflexivity|].
  rewrite Hx, (Hl y) by now left.
  destruct (key2 x <? key2 y)%Z; [|reflexivity].
  f_equal. apply IH. intros z Hz. apply Hl. now right.
Qed.

Lemma sorted_desc_ext (key1 key2 : nat -> Z) (l : list nat) :
  (forall z, z ∈ l -> key1 z = key2 z) -> sorted_desc key1 l = sorted_desc key2 l.
Proof.
  induction l as [|x l IH]; intros Hl; [reflexivity|].
  change (insert_desc key1 x (sorted_desc key1 l) = insert_desc key2 x (sorted_desc key2 l)).
  rewrite IH by (intros z Hz; apply Hl; now right).
  apply insert_desc_ext; [apply Hl; now left|].
  intros z Hz. rewrite sorted_desc_perm in Hz. apply Hl. now right.
Qed.

Lemma select_winner_spec (m : HousingModel) (bs : list nat) :
  bs <> [] ->
  exists w, select_winner m bs = Some w /\ w ∈ bs /\
            forall z, z ∈ bs -> (capacity_of m z <= capacity_of m w)%Z.
Proof. apply sorted_desc_head. Qed.

(** * Collecting the bids *)

Section Bids.

Lemma add_bid_keys (bids : list (option nat * list nat)) (k : option nat) (i : nat) :
  (add_bid bids k i).*1 = if decide (k ∈ bids.*1) then bids.*1 else bids.*1 ++ [k].
Proof.
  induction bids as [|[t bs] bids IH]; cbn.
  - rewrite decide_False; [reflexivity|]. intros H. inversion H.
  - destruct (decide (t = k)) as [->|Hne]; cbn.
    + rewrite decide_True; [reflexivity|]. now left.
    + rewrite IH. destruct (decide (k ∈ bids.*1)) as [Hin|Hin].
      * rewrite decide_True; [reflexivity|]. now right.
      * rewrite decide_False; [reflexivity|].
        intros H. apply elem_of_cons in H as [->|H]; [congruence|contradiction].
Qed.

Lemma add_bid_keys_NoDup (bids : list (option nat * list nat)) (k : option nat) (i : nat) :
  NoDup (bids.*1) -> NoDup ((add_bid bids k i).*1).
Proof.
  intros Hnd. rewrite add_bid_keys. destruct (decide (k ∈ bids.*1)); [exact Hnd|].
  apply NoDup_app. split; [exact Hnd|]. split; [|apply NoDup_singleton].
  intros x Hx Hs. apply list_elem_of_singleton in Hs. subst. contradiction.
Qed.

Lemma add_bid_group_ok (m : HousingModel) (bids : list (option nat * list nat))
    (k : option nat) (i : nat) (a : HomeOwner) :
  agents m !! i = Some a -> intention a = BUY -> target_house_id a = k ->
  Forall (group_ok m) bids -> Forall (group_ok m) (add_bid bids k i).
Proof.
  intros Ha Hi Hk. induction 1 as [|[t bs] bids Hg Hall IH]; cbn.
  - repeat constructor; cbn; [discriminate|].
    intros z Hz. apply list_elem_of_singleton in Hz. subst. eauto.
  - destruct (decide (t = k)) as [->|Hne].
    + constructor; [|exact Hall]. destruct Hg as [Hne Hb]. split; cbn in *.
      * destruct bs; discriminate.
      * intros z Hz. apply elem_of_app in Hz as [Hz|Hz]; [now apply Hb|].
        apply list_elem_of_singleton in Hz. subst. eauto.
    + constructor; [exact Hg|exact IH].
Qed.

Lemma add_bid_bidders (bids : list (option nat * list nat)) (k : option nat) (i : nat) :
  bidders (add_bid bids k i) ≡ₚ i :: bidders bids.
Proof.
  unfold bidders. induction bids as [|[t bs] bids IH]; cbn.
  - reflexivity.
  - destruct (decide (t = k)); cbn.
    + rewrite <- app_assoc. cbn. now rewrite <- Permutation_middle.
    + rewrite IH. now rewrite <- Permutation_middle.
Qed.

Lemma bid_step_cases (m : HousingModel) (bids : list (option nat * list nat)) (i : nat) :
  bid_step m bids i = bids \/
  exists a, agents m !! i = Some a /\ intention a = BUY /\
            bid_step m bids i = add_bid bids (target_house_id a) i.
Proof.
  unfold bid_step. destruct (agents m !! i) as [a|]; [|now left].
  destruct (decide (intention a = BUY)); [right; eauto|now left].
Qed.

Lemma collect_loop_ok (m : HousingModel) (idxs : list nat)
    (bids : list (option nat * list nat)) :
  NoDup (bids.*1) -> Forall (group_ok m) bids ->
  NoDup (bidders bids ++ idxs) ->
  let r := fold_left (bid_step m) idxs bids in
  NoDup (r.*1) /\ Forall (group_ok m) r /\ NoDup (bidders r).
Proof.
  revert bids. induction idxs as [|i idxs IH]; intros bids Hk Hg Hb; cbn.
  - rewrite app_nil_r in Hb. auto.
  - destruct (bid_step_cases m bids i) as [E|(a & Ha & Hi & E)]; rewrite E.
    + apply IH; [exact Hk|exact Hg|].
      rewrite <- Permutation_middle in Hb. now apply NoDup_cons in Hb as [_ Hb].
    + apply IH.
      * now apply add_bid_keys_NoDup.
      * now apply (add_bid_group_ok m bids _ i a).
      * rewrite add_bid_bidders. cbn. now rewrite <- Permutation_middle in Hb.
Qed.

Lemma collect_bids_ok (m : HousingModel) :
  NoDup ((collect_bids m).*1) /\ Forall (group_ok m) (collect_bids m)
  /\ NoDup (bidders (collect_bids m)).
Proof.
  apply collect_loop_ok; cbn; [constructor|constructor|apply NoDup_seq].
Qed.

End Bids.

(** * The clearing loop keeps the invariant *)

Lemma resolve_loop_wf (bids : list (option nat * list nat)) (m : HousingModel) :
  wf m -> NoDup (bids.*1) -> Forall (bid_valid m) bids ->
  exists m', resolve_loop m bids = Some m' /\ wf m' /\ move_rel m m'.
Proof.
  revert m. induction bids as [|[k bs] bids IH]; intros m Hwf Hnd Hall.
  - exists m. split; [reflexivity|]. split; [exact Hwf|apply move_rel_refl].
  - apply Forall_cons in Hall as [Hg Hall]. cbn in Hnd.
    apply NoDup_cons in Hnd as [Hk Hnd].
    destruct Hg as ((t & Ek & Ht) & Hne & Hbs). cbn in Ek, Hne, Hbs. subst k.
    destruct (select_winner_spec m bs Hne) as (w & Hw & Hin & _).
    destruct (Hbs w Hin) as (b & Hb & Hint).
    destruct (target_house m t Hwf Ht) as (ht & Hl & _).
    pose proof (execute_move_moved m w t b Hwf Hb Ht ht Hl) as Hmove.
    pose proof (moved_wf m w t b Hwf Hb Ht ht Hl) as Hwf'.
    pose proof (execute_move_rel m _ w (Some t) b Hb Hint Hmove) as Hrel.
    destruct (IH (moved m w t b ht) Hwf' Hnd) as (m' & Hres & Hwf'' & Hrel').
    + apply Forall_forall. intros [k' bs'] Hg'.
      pose proof (proj1 (Forall_forall _ _) Hall _ Hg') as ((t' & Ek' & Ht') & Hne' & Hbs').
      cbn in Ek', Hne', Hbs'. subst k'. split; [|split; [exact Hne'|]]; cbn [fst snd].
      * exists t'. split; [reflexivity|].
        apply (proj2 (moved_pool m w t b Hwf ht t')). left. split; [exact Ht'|].
        intros ->. apply Hk. apply list_elem_of_fmap. exists (Some t, bs'). auto.
      * intros i Hi. destruct (Hbs' i Hi) as (a & Ha & Hia).
        destruct (mr_agent _ _ Hrel i a Ha) as (a' & Ha' & Hia' & _).
        exists a'. split; [exact Ha'|congruence].
    + exists m'. split; [|split; [exact Hwf''|]].
      * cbn. rewrite Hw. cbn. rewrite Hmove. cbn. exact Hres.
      * eapply move_rel_trans; [exact Hrel|exact Hrel'].
Qed.

(** * The decision phase of a tick *)

Section DecisionPhase.

Local Open Scope Q_scope.

Lemma decision_cases (self : HomeOwner) (own : House) (pool : list (nat * House))
    (d : Intention * option nat) :
  decision self own pool = Some d ->
  let market := evaluate_market self pool in
  let buy := S_upgrade self own < snd market /\ S_current self own < snd market in
  (d = (BUY, fst market) /\ is_Some (fst market) /\ buy) \/
  (d = (UPGRADE, None) /\ ~ buy /\ S_current self own < S_upgrade self own) \/
  (d = (STAY, None) /\ ~ buy /\ ~ S_current self own < S_upgrade self own).
Proof.
  unfold decision, set_intention. cbv zeta.
  destruct (evaluate_market self pool) as [best sm]. cbn [fst snd].
  destruct (Qgtb sm (S_upgrade self own)) eqn:G1;
    destruct (Qgtb sm (S_current self own)) eqn:G2; cbn [andb].
  - apply Qgtb_spec in G1, G2. destruct best as [hid|]; [|discriminate].
    intros [= <-]. left. eauto.
  - apply Qgtb_false in G2.
    assert (Hn : ~ (S_upgrade self own < sm /\ S_current self own < sm)).
    { intros [_ H]. exact (Qle_not_lt _ _ G2 H). }
    destruct (Qgtb (S_upgrade self own) (S_current self own)) eqn:G3; intros [= <-].
    + apply Qgtb_spec in G3. right. left. auto.
    + apply Qgtb_false in G3. right. right. split; [reflexivity|]. split; [exact Hn|].
      now apply Qle_not_lt.
  - apply Qgtb_false in G1.
    assert (Hn : ~ (S_upgrade self own < sm /\ S_current self own < sm)).
    { intros [H _]. exact (Qle_not_lt _ _ G1 H). }
    destruct (Qgtb (S_upgrade self own) (S_current self own)) eqn:G3; intros [= <-].
    + apply Qgtb_spec in G3. right. left. auto.
    + apply Qgtb_false in G3. right. right. split; [reflexivity|]. split; [exact Hn|].
      now apply Qle_not_lt.
  - apply Qgtb_false in G1.
    assert (Hn : ~ (S_upgrade self own < sm /\ S_current self own < sm)).
    { intros [H _]. exact (Qle_not_lt _ _ G1 H). }
    destruct (Qgtb (S_upgrade self own) (S_current self own)) eqn:G3; intros [= <-].
    + apply Qgtb_spec in G3. right. left. auto.
    + apply Qgtb_false in G3. right. right. split; [reflexivity|]. split; [exact Hn|].
      now apply Qle_not_lt.
Qed.

Lemma calculate_satisfaction_ext (a a' : HomeOwner) (h : House) (uc mc bn : Z) :
  savings a' = savings a ->
  calculate_satisfaction a' h uc mc bn = calculate_satisfaction a h uc mc bn.
Proof. intros E. unfold calculate_satisfaction. now rewrite E. Qed.

Lemma market_iter_ext (a a' : HomeOwner) st c :
  same_core a a' -> market_iter a' st c = market_iter a st c.
Proof.
  intros (Ei & Es & _). unfold market_iter. destruct c as [hid h].
  now rewrite Ei, Es, (calculate_satisfaction_ext a a' h _ _ _ Es).
Qed.

Lemma evaluate_market_ext (a a' : HomeOwner) (pool : list (nat * House)) :
  same_core a a' -> evaluate_market a' pool = evaluate_market a pool.
Proof.
  intros Hc. unfold evaluate_market. generalize (@None nat, SENTINEL).
  induction pool as [|c pool IH]; intros st; cbn; [reflexivity|].
  now rewrite (market_iter_ext a a' st c Hc), IH.
Qed.

Lemma decision_ext (a a' : HomeOwner) (own : House) (pool : list (nat * House)) :
  same_core a a' -> decision a' own pool = decision a own pool.
Proof.
  intros Hc. pose proof Hc as (_ & Es & _). unfold decision, S_current, S_upgrade.
  now rewrite (evaluate_market_ext a a' pool Hc), Es,
    !(calculate_satisfaction_ext a a' own _ _ _ Es).
Qed.

Lemma same_core_refl (a : HomeOwner) : same_core a a.
Proof. unfold same_core. auto. Qed.

Lemma same_core_trans (a b c : HomeOwner) :
  same_core a b -> same_core b c -> same_core a c.
Proof. unfold same_core. intros (? & ? & ?) (? & ? & ?). repeat split; congruence. Qed.

Lemma same_core_with_intention (a : HomeOwner) d : same_core a (with_intention a d).
Proof. unfold same_core. auto. Qed.

End DecisionPhase.

Section Schedule.

Lemma HomeOwner_step_Some (m : HousingModel) (i : nat) (self : HomeOwner) (own : House) :
  agents m !! i = Some self -> house_map m !! house self = Some own ->
  exists d, decision self own (pool_houses m) = Some d /\
    HomeOwner_step m i =
      Some {| agents := <[i := with_intention self d]> (agents m);
              house_map := house_map m;
              vacancy_pool := vacancy_pool m |}.
Proof.
  intros Ha Ho. destruct (decision_total self own (pool_houses m)) as [d Hd].
  exists d. split; [exact Hd|]. unfold HomeOwner_step.
  rewrite Ha. cbn. rewrite Ho. cbn. rewrite Hd. reflexivity.
Qed.

Lemma decided_with_intention (m : HousingModel) (self : HomeOwner) (own : House) d :
  house_map m !! house self = Some own ->
  decision self own (pool_houses m) = Some d ->
  decided m (with_intention self d).
Proof.
  intros Ho Hd. exists own. split; [exact Ho|].
  rewrite (decision_ext self _ own _ (same_core_with_intention self d)), Hd.
  now destruct d.
Qed.

Lemma decided_transfer (m m' : HousingModel) (a : HomeOwner) :
  house_map m' = house_map m -> vacancy_pool m' = vacancy_pool m ->
  decided m a -> decided m' a.
Proof.
  intros Eh Ep (own & Ho & Hd). exists own. unfold pool_houses. rewrite Eh, Ep.
  auto.
Qed.

Lemma schedule_loop_spec (idxs : list nat) (m : HousingModel) :
  houses_resolve m ->
  (forall i, i ∈ idxs -> i < length (agents m)) ->
  exists m', schedule_loop m idxs = Some m' /\
    house_map m' = house_map m /\ vacancy_pool m' = vacancy_pool m /\
    Forall2 same_core (agents m) (agents m') /\
    forall i a', agents m' !! i = Some a' ->
      i ∈ idxs \/ (exists a, agents m !! i = Some a /\ decided m a) ->
      decided m' a'.
Proof.
  revert m. induction idxs as [|i idxs IH]; intros m Hres Hlt.
  - exists m. split; [reflexivity|]. split; [reflexivity|]. split; [reflexivity|].
    split; [apply Forall_Forall2_diag, Forall_forall; intros; apply same_core_refl|].
    intros i a' Ha' [Hin|(a & Ha & Hd)]; [inversion Hin|]. congruence.
  - assert (Hi : i < length (agents m)) by (apply Hlt; now left).
    apply lookup_lt_is_Some in Hi as [self Hs].
    destruct (Hres i self Hs) as [own Ho].
    destruct (HomeOwner_step_Some m i self own Hs Ho) as (d & Hd & Hstep).
    set (m1 := {| agents := <[i := with_intention self d]> (agents m);
                  house_map := house_map m; vacancy_pool := vacancy_pool m |}) in *.
    assert (Hc1 : Forall2 same_core (agents m) (agents m1)).
    { cbn. rewrite <- (list_insert_id (agents m) i self Hs) at 1.
      apply Forall2_insert; [|apply same_core_with_intention].
      apply Forall_Forall2_diag, Forall_forall; intros; apply same_core_refl. }
    assert (Hres1 : houses_resolve m1).
    { intros j a1 Ha1.
      destruct (Forall2_lookup_r _ _ _ _ _ Hc1 Ha1) as (a0 & Ha0 & (_ & _ & Eh)).
      rewrite Eh. exact (Hres j a0 Ha0). }
    destruct (IH m1 Hres1) as (m' & Hloop & Eh & Ep & Hc & Hdec).
    { intros j Hj. cbn. rewrite length_insert. apply Hlt. now right. }
    exists m'. split; [cbn; rewrite Hstep; exact Hloop|].
    split; [exact Eh|]. split; [exact Ep|]. split.
    + eapply Forall2_trans; [|exact Hc1|exact Hc].
      intros x y z. apply same_core_trans.
    + intros j a' Ha' Hcase. apply (Hdec j a' Ha').
      destruct (decide (j = i)) as [->|Hne].
      * right. exists (with_intention self d). split.
        -- cbn. apply list_lookup_insert_eq. now apply lookup_lt_Some in Hs.
        -- apply (decided_transfer m m1); [reflexivity|reflexivity|].
           now apply (decided_with_intention m self own d).
      * destruct Hcase as [Hin|(a & Ha & Hd0)].
        -- apply elem_of_cons in Hin as [->|Hin]; [contradiction|now left].
        -- right. exists a. split.
           ++ cbn. rewrite list_lookup_insert_ne by congruence. exact Ha.
           ++ now apply (decided_transfer m m1).
Qed.

Lemma wf_houses_resolve (m : HousingModel) : wf m -> houses_resolve m.
Proof.
  intros Hwf i a Ha. destruct (wf_agent_house m Hwf i a Ha) as (h & Hh & _). eauto.
Qed.

Lemma wf_same_core (m m' : HousingModel) :
  wf m -> house_map m' = house_map m -> vacancy_pool m' = vacancy_pool m ->
  Forall2 same_core (agents m) (agents m') -> wf m'.
Proof.
  intros Hwf Eh Ep Hc. constructor; rewrite ?Eh, ?Ep.
  - intros i a' Ha'.
    destruct (Forall2_lookup_r _ _ _ _ _ Hc Ha') as (a & Ha & (_ & _ & E)).
    rewrite E. exact (wf_agent_house m Hwf i a Ha).
  - intros j h i Hh Ho. destruct (wf_house_owner m Hwf j h i Hh Ho) as (a & Ha & E).
    destruct (Forall2_lookup_l _ _ _ _ _ Hc Ha) as (a' & Ha' & (_ & _ & E')).
    exists a'. split; [exact Ha'|congruence].
  - exact (wf_vacant m Hwf).
  - exact (wf_pool m Hwf).
  - exact (wf_pool_nodup m Hwf).
Qed.

Lemma schedule_step_spec (m : HousingModel) :
  wf m ->
  exists m1, schedule_step m = Some m1 /\
    house_map m1 = house_map m /\ vacancy_pool m1 = vacancy_pool m /\
    Forall2 same_core (agents m) (agents m1) /\ wf m1 /\
    forall i a, agents m1 !! i = Some a -> decided m1 a.
Proof.
  intros Hwf.
  destruct (schedule_loop_spec (seq 0 (length (agents m))) m (wf_houses_resolve m Hwf))
    as (m1 & Hs & Eh & Ep & Hc & Hdec).
  { intros i Hi. apply elem_of_seq in Hi. lia. }
  exists m1. split; [exact Hs|]. split; [exact Eh|]. split; [exact Ep|].
  split; [exact Hc|]. split; [now apply (wf_same_core m m1)|].
  intros i a Ha. apply (Hdec i a Ha). left. apply elem_of_seq.
  apply lookup_lt_Some in Ha. rewrite <- (Forall2_length _ _ _ Hc) in Ha. lia.
Qed.

End Schedule.

Section DecidedFacts.

Local Open Scope Q_scope.

Lemma pool_houses_elem (m : HousingModel) (t : nat) (h : House) :
  (t, h) ∈ pool_houses m <-> t ∈ vacancy_pool m /\ house_map m !! t = Some h.
Proof.
  unfold pool_houses. rewrite list_elem_of_omap. split.
  - intros (x & Hx & E). destruct (house_map m !! x) as [hx|] eqn:El; [|discriminate].
    cbn in E. inversion E; subst. auto.
  - intros [Hin Hl]. exists t. split; [exact Hin|]. now rewrite Hl.
Qed.

(** A BUY intention names an affordable house of the vacancy pool. *)
Lemma decided_buy (m : HousingModel) (a : HomeOwner) :
  decided m a -> intention a = BUY ->
  exists t h, target_house_id a = Some t /\ t ∈ vacancy_pool m /\
              house_map m !! t = Some h /\ affordable a h.
Proof.
  intros (own & Ho & Hd) Hi. apply decision_cases in Hd. cbv zeta in Hd.
  destruct Hd as [(E & [t Ht] & _)|[(E & _)|(E & _)]];
    inversion E as [[Ei Et]]; try congruence.
  pose proof (evaluate_market_best a (pool_houses m)) as Hb.
  unfold best_buy in Hb. rewrite Ht in Hb. destruct Hb as (h & Hin & Haff & _).
  apply pool_houses_elem in Hin as [Hin Hl].
  exists t, h. rewrite Ht in Et. auto.
Qed.

(** An UPGRADE intention passed the gate of the upgrade option. *)
Lemma decided_upgrade (m : HousingModel) (a : HomeOwner) :
  decided m a -> intention a = UPGRADE ->
  exists own, house_map m !! house a = Some own /\
              (energy_label own < 7)%Z /\ (COST_PER_LABEL_UPGRADE < savings a)%Z.
Proof.
  intros (own & Ho & Hd) Hi. apply decision_cases in Hd. cbv zeta in Hd.
  destruct Hd as [(E & _)|[(E & _ & Hlt)|(E & _)]];
    inversion E as [[Ei Et]]; try congruence.
  exists own. split; [exact Ho|].
  destruct (Z_lt_le_dec (energy_label own) 7) as [Hl|Hl];
    destruct (Z_lt_le_dec COST_PER_LABEL_UPGRADE (savings a)) as [Hs|Hs];
    try (split; assumption); exfalso;
    (rewrite (S_upgrade_gate a own) in Hlt by (auto; lia));
    apply (Qlt_not_le _ _ Hlt), Qlt_le_weak;
    exact (sentinel_below_satisfaction a own 0 0 0).
Qed.

End DecidedFacts.

(** * The upgrade phase *)

Section Upgrades.

Lemma grow_rel_refl (m : HousingModel) : grow_rel m m.
Proof. constructor; [reflexivity|]. intros j h Hh. exists h. split; [exact Hh|lia]. Qed.

Lemma grow_rel_trans (m1 m2 m3 : HousingModel) :
  grow_rel m1 m2 -> grow_rel m2 m3 -> grow_rel m1 m3.
Proof.
  intros H12 H23. constructor.
  - rewrite (gr_len _ _ H23). apply (gr_len _ _ H12).
  - intros j h Hh. destruct (gr_house _ _ H12 j h Hh) as (h2 & Hh2 & ? & ?).
    destruct (gr_house _ _ H23 j h2 Hh2) as (h3 & Hh3 & ? & ?).
    exists h3. split; [exact Hh3|lia].
Qed.

Lemma move_rel_grow (m m' : HousingModel) : move_rel m m' -> grow_rel m m'.
Proof.
  intros H. constructor; [apply (mr_houses_len _ _ H)|].
  intros j h Hh. destruct (mr_house _ _ H j h Hh) as (h' & Hh' & El & Ev).
  exists h'. split; [exact Hh'|lia].
Qed.

Lemma wf_transfer (m m' : HousingModel) :
  wf m -> Forall2 same_link (house_map m) (house_map m') ->
  vacancy_pool m' = vacancy_pool m ->
  Forall2 same_home (agents m) (agents m') -> wf m'.
Proof.
  intros Hwf Hh Ep Hc. constructor; rewrite ?Ep.
  - intros i a' Ha'.
    destruct (Forall2_lookup_r _ _ _ _ _ Hc Ha') as (a & Ha & E).
    rewrite E. destruct (wf_agent_house m Hwf i a Ha) as (h & Hl & Ho).
    destruct (Forall2_lookup_l _ _ _ _ _ Hh Hl) as (h' & Hl' & (Eo & _)).
    exists h'. split; [exact Hl'|congruence].
  - intros j h' i Hl' Ho.
    destruct (Forall2_lookup_r _ _ _ _ _ Hh Hl') as (h & Hl & (Eo & _)).
    destruct (wf_house_owner m Hwf j h i Hl) as (a & Ha & E); [congruence|].
    destruct (Forall2_lookup_l _ _ _ _ _ Hc Ha) as (a' & Ha' & E').
    exists a'. split; [exact Ha'|congruence].
  - intros j h' Hl'.
    destruct (Forall2_lookup_r _ _ _ _ _ Hh Hl') as (h & Hl & (Eo & Ev)).
    rewrite Eo, Ev. exact (wf_vacant m Hwf j h Hl).
  - intros j. rewrite (wf_pool m Hwf j). split.
    + intros (h & Hl & Hv).
      destruct (Forall2_lookup_l _ _ _ _ _ Hh Hl) as (h' & Hl' & (_ & Ev)).
      exists h'. split; [exact Hl'|congruence].
    + intros (h' & Hl' & Hv).
      destruct (Forall2_lookup_r _ _ _ _ _ Hh Hl') as (h & Hl & (_ & Ev)).
      exists h. split; [exact Hl|congruence].
  - exact (wf_pool_nodup m Hwf).
Qed.

Lemma Forall2_refl_same_link (l : list House) : Forall2 same_link l l.
Proof. apply Forall_Forall2_diag, Forall_forall. intros h _. split; reflexivity. Qed.

Lemma Forall2_refl_same_home (l : list HomeOwner) : Forall2 same_home l l.
Proof. apply Forall_Forall2_diag, Forall_forall. intros a _. reflexivity. Qed.

Lemma upgrade_agent_cases (m : HousingModel) (i : nat) :
  upgrade_agent m i = m \/
  exists a, agents m !! i = Some a /\ intention a = UPGRADE /\
            upgrade_agent m i = upgraded m i a.
Proof.
  unfold upgrade_agent. destruct (agents m !! i) as [a|]; [|now left].
  destruct (decide (intention a = UPGRADE)); [right; eauto|now left].
Qed.

Lemma upgraded_wf (m : HousingModel) (i : nat) (a : HomeOwner) :
  wf m -> agents m !! i = Some a -> wf (upgraded m i a).
Proof.
  intros Hwf Ha. apply (wf_transfer m); [exact Hwf| |reflexivity|]; cbn.
  - apply Forall2_alter_r; [apply Forall2_refl_same_link|].
    intros x y _ _ [Eo Ev]. split; cbn; assumption.
  - rewrite <- (list_insert_id (agents m) i a Ha) at 1.
    apply Forall2_insert; [apply Forall2_refl_same_home|]. reflexivity.
Qed.

Lemma upgraded_grow (m : HousingModel) (i : nat) (a : HomeOwner) :
  grow_rel m (upgraded m i a).
Proof.
  constructor; cbn; [apply length_alter|].
  intros j h Hh. destruct (decide (house a = j)) as [E|E].
  - rewrite E, list_lookup_alter_eq, Hh. cbn. eexists. split; [reflexivity|].
    cbn. lia.
  - rewrite list_lookup_alter_ne by exact E. exists h. split; [exact Hh|lia].
Qed.

Lemma upgraded_labels (m : HousingModel) (i : nat) (a : HomeOwner) :
  labels_ok m -> upgrade_ready m ->
  agents m !! i = Some a -> intention a = UPGRADE ->
  labels_ok (upgraded m i a).
Proof.
  intros Hl Hr Ha Hi j h'. cbn. destruct (decide (house a = j)) as [E|E].
  - rewrite E, list_lookup_alter_eq. destruct (house_map m !! j) as [h|] eqn:Hh;
      [|discriminate].
    intros [= <-]. cbn. destruct (Hr i a Ha Hi) as (h0 & Hh0 & Hlt).
    rewrite E, Hh in Hh0. inversion Hh0; subst h0.
    pose proof (Hl j h Hh). lia.
  - rewrite list_lookup_alter_ne by exact E. apply Hl.
Qed.

Lemma upgraded_ready (m : HousingModel) (i : nat) (a : HomeOwner) :
  wf m -> upgrade_ready m -> agents m !! i = Some a ->
  upgrade_ready (upgraded m i a).
Proof.
  intros Hwf Hr Ha i' a' Ha' Hi'. cbn in Ha'.
  destruct (decide (i = i')) as [<-|Hne].
  - rewrite list_lookup_insert_eq in Ha' by (now apply lookup_lt_Some in Ha).
    inversion Ha'; subst a'. discriminate.
  - rewrite list_lookup_insert_ne in Ha' by exact Hne.
    destruct (Hr i' a' Ha' Hi') as (h & Hh & Hlt). exists h. split; [|exact Hlt].
    cbn. rewrite list_lookup_alter_ne; [exact Hh|].
    intros E. destruct (wf_agent_house m Hwf i a Ha) as (h1 & Hh1 & Ho1).
    destruct (wf_agent_house m Hwf i' a' Ha') as (h2 & Hh2 & Ho2).
    rewrite E, Hh2 in Hh1. inversion Hh1; subst. congruence.
Qed.

Lemma upgrade_loop_spec (idxs : list nat) (m : HousingModel) :
  wf m -> labels_ok m -> upgrade_ready m ->
  let m' := fold_left upgrade_agent idxs m in
  wf m' /\ labels_ok m' /\ grow_rel m m' /\ vacancy_pool m' = vacancy_pool m
  /\ length (agents m') = length (agents m).
Proof.
  revert m. induction idxs as [|i idxs IH]; intros m Hwf Hl Hr; cbn.
  - split; [exact Hwf|]. split; [exact Hl|]. split; [apply grow_rel_refl|]. auto.
  - destruct (upgrade_agent_cases m i) as [E|(a & Ha & Hi & E)]; rewrite E.
    + now apply IH.
    + destruct (IH (upgraded m i a)) as (Hwf' & Hl' & Hg' & Ep & En).
      * now apply upgraded_wf.
      * now apply upgraded_labels.
      * now apply upgraded_ready.
      * split; [exact Hwf'|]. split; [exact Hl'|]. split.
        -- eapply grow_rel_trans; [apply upgraded_grow|exact Hg'].
        -- split; [exact Ep|]. rewrite En. cbn. apply length_insert.
Qed.

End Upgrades.

(** * One tick *)

Section Tick.

Lemma collect_bids_valid (m : HousingModel) :
  (forall i a, agents m !! i = Some a -> decided m a) ->
  Forall (bid_valid m) (collect_bids m).
Proof.
  intros Hdec. destruct (collect_bids_ok m) as (_ & Hg & _).
  eapply Forall_impl; [exact Hg|]. intros [k bs] [Hne Hbs]. cbn in Hne, Hbs.
  split; [|split; [exact Hne|]]; cbn [fst snd].
  - destruct bs as [|i0 bs]; [contradiction|].
    destruct (Hbs i0) as (a & Ha & Hi & Hk); [now left|].
    destruct (decided_buy m a (Hdec i0 a Ha) Hi) as (t & h & Et & Ht & _).
    exists t. split; [congruence|exact Ht].
  - intros i Hin. destruct (Hbs i Hin) as (a & Ha & Hi & _). eauto.
Qed.

Lemma labels_ok_transfer (m m' : HousingModel) :
  move_rel m m' -> labels_ok m -> labels_ok m'.
Proof.
  intros Hrel Hl j h' Hh'.
  assert (Hlt : j < length (house_map m)).
  { rewrite <- (mr_houses_len _ _ Hrel). now apply lookup_lt_Some in Hh'. }
  apply lookup_lt_is_Some in Hlt as [h Hh].
  destruct (mr_house _ _ Hrel j h Hh) as (h2 & Hh2 & El & _).
  rewrite Hh' in Hh2. inversion Hh2; subst h2. rewrite El. exact (Hl j h Hh).
Qed.

Lemma upgrade_ready_decided (m : HousingModel) :
  (forall i a, agents m !! i = Some a -> decided m a) -> upgrade_ready m.
Proof.
  intros Hdec i a Ha Hi.
  destruct (decided_upgrade m a (Hdec i a Ha) Hi) as (own & Ho & Hl & _). eauto.
Qed.

Lemma upgrade_ready_transfer (m m' : HousingModel) :
  move_rel m m' -> upgrade_ready m -> upgrade_ready m'.
Proof.
  intros Hrel Hr i a' Ha' Hi'.
  assert (Hlt : i < length (agents m)).
  { rewrite <- (mr_agents_len _ _ Hrel). now apply lookup_lt_Some in Ha'. }
  apply lookup_lt_is_Some in Hlt as [a Ha].
  destruct (mr_agent _ _ Hrel i a Ha) as (a2 & Ha2 & Ei & Eq).
  rewrite Ha' in Ha2. inversion Ha2; subst a2.
  assert (a' = a) by (apply Eq; congruence). subst a'.
  destruct (Hr i a Ha Hi') as (h & Hh & Hlt).
  destruct (mr_house _ _ Hrel _ h Hh) as (h' & Hh' & El & _).
  exists h'. split; [exact Hh'|lia].
Qed.

(** A tick from a state with the invariant runs to its end, and the states
    after each of its three phases have the invariant. *)
Lemma step_spec (m : HousingModel) :
  wf m -> labels_ok m ->
  exists m1 m2,
    schedule_step m = Some m1 /\ resolve_market_conflicts m1 = Some m2 /\
    HousingModel_step m = Some (handle_upgrades m2) /\
    wf m1 /\ wf m2 /\ wf (handle_upgrades m2) /\
    labels_ok (handle_upgrades m2) /\ grow_rel m (handle_upgrades m2) /\
    (forall i a, agents m1 !! i = Some a -> decided m1 a) /\
    house_map m1 = house_map m /\ vacancy_pool m1 = vacancy_pool m.
Proof.
  intros Hwf Hl.
  destruct (schedule_step_spec m Hwf) as (m1 & Hs & Eh & Ep & Hc & Hwf1 & Hdec).
  destruct (collect_bids_ok m1) as (Hnd & _ & _).
  destruct (resolve_loop_wf (collect_bids m1) m1 Hwf1 Hnd (collect_bids_valid m1 Hdec))
    as (m2 & Hr & Hwf2 & Hrel).
  assert (Hl1 : labels_ok m1) by (intros j h; rewrite Eh; apply Hl).
  pose proof (labels_ok_transfer m1 m2 Hrel Hl1) as Hl2.
  pose proof (upgrade_ready_transfer m1 m2 Hrel (upgrade_ready_decided m1 Hdec)) as Hr2.
  destruct (upgrade_loop_spec (seq 0 (length (agents m2))) m2 Hwf2 Hl2 Hr2)
    as (Hwf3 & Hl3 & Hg3 & _).
  exists m1, m2. split; [exact Hs|]. split; [exact Hr|]. split.
  { unfold HousingModel_step. rewrite Hs. cbn [mbind option_bind].
    unfold resolve_market_conflicts. rewrite Hr. reflexivity. }
  split; [exact Hwf1|]. split; [exact Hwf2|]. split; [exact Hwf3|].
  split; [exact Hl3|]. split; [|auto].
  eapply grow_rel_trans; [|exact Hg3].
  eapply grow_rel_trans; [|apply move_rel_grow; exact Hrel].
  constructor; [now rewrite Eh|]. intros j h Hh. exists h. rewrite Eh. split; [exact Hh|lia].
Qed.

End Tick.

(** * Initialisation *)

Section Init.

Lemma add_owner_inv (m m' : HousingModel) (d : OwnerDraw) :
  init_inv m -> add_owner m d = Some m' ->
  init_inv m' /\ length (agents m') = S (length (agents m)) /\
  length (house_map m') = length (house_map m) /\
  (forall j h', house_map m' !! j = Some h' ->
     exists h, house_map m !! j = Some h /\ energy_label h' = energy_label h).
Proof.
  intros Hinv H. unfold add_owner in H.
  destruct (house_map m !! length (agents m)) as [h0|] eqn:Hh0; [|discriminate].
  cbn in H. inversion H; subst m'; clear H. cbn.
  pose proof (lookup_lt_Some _ _ _ Hh0) as Hlt.
  split; [|split; [rewrite length_app; cbn; lia|split; [apply length_insert|]]].
  - constructor; cbn.
    + intros i a Ha. apply lookup_app_Some in Ha as [Ha|[Hge Ha]].
      * exact (ii_agent m Hinv i a Ha).
      * destruct (i - length (agents m)) as [|n] eqn:E; [|discriminate].
        cbn in Ha. inversion Ha; subst a. cbn. lia.
    + intros j h. rewrite length_app. cbn.
      destruct (decide (j = length (agents m))) as [->|Hne].
      * rewrite list_lookup_insert_eq by exact Hlt. intros [= <-]. cbn.
        destruct (ii_house m Hinv _ h0 Hh0) as [Hv _]. split; [exact Hv|].
        rewrite decide_True by lia. reflexivity.
      * rewrite list_lookup_insert_ne by congruence. intros Hh.
        destruct (ii_house m Hinv j h Hh) as [Hv Ho]. split; [exact Hv|].
        rewrite Ho. destruct (decide (j < length (agents m)));
          [rewrite decide_True by lia|rewrite decide_False by lia]; reflexivity.
    + exact (ii_pool m Hinv).
    + rewrite length_app, length_insert. cbn. lia.
  - intros j h'. destruct (decide (j = length (agents m))) as [->|Hne].
    + rewrite list_lookup_insert_eq by exact Hlt. intros [= <-]. eauto.
    + rewrite list_lookup_insert_ne by congruence. eauto.
Qed.

Lemma add_owners_inv (ds : list OwnerDraw) (m m' : HousingModel) :
  init_inv m -> add_owners m ds = Some m' ->
  init_inv m' /\ length (agents m') = length (agents m) + length ds /\
  length (house_map m') = length (house_map m) /\
  (forall j h', house_map m' !! j = Some h' ->
     exists h, house_map m !! j = Some h /\ energy_label h' = energy_label h).
Proof.
  revert m. induction ds as [|d ds IH]; intros m Hinv H; cbn in H.
  - inversion H; subst m'. split; [exact Hinv|]. split; [cbn; lia|]. eauto.
  - destruct (add_owner m d) as [m1|] eqn:E; [|discriminate]. cbn in H.
    destruct (add_owner_inv m m1 d Hinv E) as (Hinv1 & En1 & Eh1 & Hl1).
    destruct (IH m1 Hinv1 H) as (Hinv' & En & Eh & Hl).
    split; [exact Hinv'|]. split; [cbn; lia|]. split; [congruence|].
    intros j h' Hh'. destruct (Hl j h' Hh') as (h1 & Hh1 & E1).
    destruct (Hl1 j h1 Hh1) as (h & Hh & E0). exists h. split; [exact Hh|congruence].
Qed.

Lemma init_inv_vac_inv (m : HousingModel) :
  init_inv m -> vac_inv (length (agents m)) m.
Proof.
  intros Hinv. constructor.
  - exact (ii_agent m Hinv).
  - intros j h Hh. destruct (ii_house m Hinv j h Hh) as [Hv Ho]. split; [|exact Ho].
    rewrite Hv. symmetry. apply bool_decide_eq_false. lia.
  - rewrite (ii_pool m Hinv), Nat.sub_diag. reflexivity.
  - lia.
Qed.

Lemma mark_vacant_inv (k : nat) (m : HousingModel) :
  vac_inv k m -> vac_inv (S k) (mark_vacant m k).
Proof.
  intros Hinv. pose proof (vi_len k m Hinv) as Hle. constructor; cbn.
  - exact (vi_agent k m Hinv).
  - intros j h'. destruct (decide (k = j)) as [<-|Hne].
    + rewrite list_lookup_alter_eq.
      destruct (house_map m !! k) as [h|] eqn:Hh; [|discriminate].
      intros [= <-]. cbn. destruct (vi_house k m Hinv k h Hh) as [_ Ho].
      split; [|exact Ho]. symmetry. apply bool_decide_eq_true. lia.
    + rewrite list_lookup_alter_ne by exact Hne. intros Hh.
      destruct (vi_house k m Hinv j h' Hh) as [Hv Ho]. split; [|exact Ho].
      rewrite Hv. apply bool_decide_ext. lia.
  - rewrite (vi_pool k m Hinv).
    replace (S k - length (agents m)) with (S (k - length (agents m))) by lia.
    rewrite seq_S. do 2 f_equal. lia.
  - lia.
Qed.

Lemma mark_vacant_loop_inv (c k : nat) (m : HousingModel) :
  vac_inv k m -> vac_inv (k + c) (fold_left mark_vacant (seq k c) m).
Proof.
  revert k m. induction c as [|c IH]; intros k m Hinv; cbn.
  - now rewrite Nat.add_0_r.
  - replace (k + S c) with (S k + c) by lia. apply IH. now apply mark_vacant_inv.
Qed.

Lemma mark_vacant_loop_static (idxs : list nat) (m : HousingModel) :
  let m' := fold_left mark_vacant idxs m in
  length (house_map m') = length (house_map m) /\
  forall j h', house_map m' !! j = Some h' ->
    exists h, house_map m !! j = Some h /\ energy_label h' = energy_label h.
Proof.
  revert m. induction idxs as [|i idxs IH]; intros m; cbn.
  - eauto.
  - destruct (IH (mark_vacant m i)) as [El Hl]. cbn in El.
    rewrite length_alter in El. split; [exact El|].
    intros j h' Hh'. destruct (Hl j h' Hh') as (h1 & Hh1 & E1). cbn in Hh1.
    destruct (decide (i = j)) as [<-|Hne].
    + rewrite list_lookup_alter_eq in Hh1.
      destruct (house_map m !! i) as [h|]; [|discriminate].
      inversion Hh1; subst h1. exists h. split; [reflexivity|exact E1].
    + rewrite list_lookup_alter_ne in Hh1 by exact Hne. eauto.
Qed.

Lemma vac_inv_wf (m : HousingModel) : vac_inv (length (house_map m)) m -> wf m.
Proof.
  intros Hinv. pose proof (vi_len _ m Hinv) as Hle. constructor.
  - intros i a Ha. rewrite (vi_agent _ m Hinv i a Ha).
    pose proof (lookup_lt_Some _ _ _ Ha) as Hlt.
    destruct (lookup_lt_is_Some_2 (house_map m) i) as [h Hh]; [lia|].
    exists h. split; [exact Hh|]. destruct (vi_house _ m Hinv i h Hh) as [_ Ho].
    now rewrite Ho, decide_True.
  - intros j h i Hh Ho. destruct (vi_house _ m Hinv j h Hh) as [_ Ho'].
    rewrite Ho in Ho'. destruct (decide (j < length (agents m))) as [Hlt|]; [|discriminate].
    inversion Ho'; subst i. apply lookup_lt_is_Some in Hlt as [a Ha].
    exists a. split; [exact Ha|]. exact (vi_agent _ m Hinv j a Ha).
  - intros j h Hh. destruct (vi_house _ m Hinv j h Hh) as [Hv Ho].
    pose proof (lookup_lt_Some _ _ _ Hh) as Hlt. rewrite Hv, Ho.
    rewrite bool_decide_eq_true.
    destruct (decide (j < length (agents m))); split;
      try discriminate; try lia; reflexivity.
  - intros j. rewrite (vi_pool _ m Hinv), elem_of_seq. split.
    + intros Hj. destruct (lookup_lt_is_Some_2 (house_map m) j) as [h Hh]; [lia|].
      exists h. split; [exact Hh|]. destruct (vi_house _ m Hinv j h Hh) as [Hv _].
      rewrite Hv. apply bool_decide_eq_true. lia.
    + intros (h & Hh & Hv). destruct (vi_house _ m Hinv j h Hh) as [Hv' _].
      rewrite Hv' in Hv. apply bool_decide_eq_true in Hv. lia.
  - rewrite (vi_pool _ m Hinv). apply NoDup_seq.
Qed.

Lemma init_wf (houses : list HouseDraw) (owners : list OwnerDraw) (m : HousingModel) :
  Forall valid_house_draw houses ->
  HousingModel_init houses owners = Some m ->
  wf m /\ labels_ok m /\
  length (agents m) = length owners /\ length (house_map m) = length houses /\
  length owners <= length houses.
Proof.
  intros Hvalid H. unfold HousingModel_init in H.
  set (m0 := {| agents := []; house_map := new_house <$> houses; vacancy_pool := [] |}) in *.
  destruct (add_owners m0 owners) as [m1|] eqn:E; [|discriminate].
  cbn in H. inversion H; subst m; clear H.
  assert (Hinv0 : init_inv m0).
  { constructor; cbn.
    - intros i a Ha. inversion Ha.
    - intros j h Hh. apply list_lookup_fmap_Some in Hh as (d & -> & Hd).
      destruct d as [[[l s] q] p]. cbn. split; [reflexivity|].
      rewrite decide_False by lia. reflexivity.
    - reflexivity.
    - lia. }
  destruct (add_owners_inv owners m0 m1 Hinv0 E) as (Hinv1 & En & Eh & Hl).
  cbn in En, Eh. rewrite length_fmap in Eh.
  pose proof (ii_len m1 Hinv1) as Hle.
  pose proof (mark_vacant_loop_inv (length houses - length owners) (length owners) m1)
    as Hvac.
  rewrite <- En in Hvac at 1. specialize (Hvac (init_inv_vac_inv m1 Hinv1)).
  destruct (mark_vacant_loop_static (seq (length owners) (length houses - length owners)) m1)
    as [El Hst].
  set (m2 := fold_left mark_vacant _ m1) in *.
  assert (Ea : length (agents m2) = length owners).
  { pose proof (vi_pool _ m2 Hvac) as Hp. clear - En.
    subst m2. generalize (seq (length owners) (length houses - length owners)).
    intros l. revert m1 En. induction l as [|x l IH]; intros m1 En; cbn; [exact En|].
    apply IH. exact En. }
  split; [|split; [|split; [exact Ea|split; [congruence|lia]]]].
  - apply vac_inv_wf. rewrite El, Eh.
    replace (length owners + (length houses - length owners)) with (length houses) in Hvac
      by lia.
    exact Hvac.
  - intros j h Hh. destruct (Hst j h Hh) as (h1 & Hh1 & E1).
    destruct (Hl j h1 Hh1) as (h0 & Hh0 & E0). cbn in Hh0.
    apply list_lookup_fmap_Some in Hh0 as (d & -> & Hd).
    pose proof (proj1 (Forall_forall _ _) Hvalid d (list_elem_of_lookup_2 _ _ _ Hd)) as Hv.
    destruct d as [[[l s] q] p]. cbn in *. lia.
Qed.

End Init.

(** * Reachable states *)

Section Reachable.

Lemma reachable_inv (m : HousingModel) : reachable m -> wf m /\ labels_ok m.
Proof.
  induction 1 as [houses owners m Hh Ho Hinit|m m' Hr [Hwf Hl] Hstep].
  - destruct (init_wf houses owners m Hh Hinit) as (Hwf & Hl & _). auto.
  - destruct (step_spec m Hwf Hl) as (m1 & m2 & _ & _ & Hs & _ & _ & Hwf3 & Hl3 & _).
    rewrite Hs in Hstep. inversion Hstep; subst m'. auto.
Qed.

Lemma run_spec (n : nat) (m : HousingModel) :
  wf m -> labels_ok m ->
  exists m', run n m = Some m' /\ wf m' /\ labels_ok m' /\ grow_rel m m'.
Proof.
  revert m. induction n as [|n IH]; intros m Hwf Hl; cbn.
  - exists m. split; [reflexivity|]. split; [exact Hwf|]. split; [exact Hl|].
    apply grow_rel_refl.
  - destruct (step_spec m Hwf Hl) as (m1 & m2 & _ & _ & Hs & _ & _ & Hwf3 & Hl3 & Hg & _).
    destruct (IH _ Hwf3 Hl3) as (m' & Hrun & Hwf' & Hl' & Hg').
    exists m'. rewrite Hs. cbn. split; [exact Hrun|]. split; [exact Hwf'|].
    split; [exact Hl'|]. eapply grow_rel_trans; [exact Hg|exact Hg'].
Qed.

Lemma wf_assets_consistent (m : HousingModel) : wf m -> assets_consistent m.
Proof.
  intros Hwf. split; [|exact (wf_pool m Hwf)].
  intros j h Hh. pose proof (wf_vacant m Hwf j h Hh) as Hv. unfold owned.
  destruct (is_vacant h), (owner h); cbn; try reflexivity.
  - destruct Hv as [Hv _]. specialize (Hv eq_refl). discriminate.
  - destruct Hv as [_ Hv]. specialize (Hv eq_refl). discriminate.
Qed.

End Reachable.

(** * The utility model *)

Section UtilityClaims.

Local Open Scope Q_scope.




(** Claim C2.  The satisfaction score is the weighted sum
    0.4 * norm_liquidity + 0.3 * norm_rating + 0.3 * norm_quality of the
    specification: liquidity is savings minus the two costs, clamped and
    scaled over the wealth range; the rating is min(rating + bonus, 7) over
    0..7 and carries the environment weight; the quality is scaled over
    0..MAX_QUALITY and carries the comfort weight.  Each of the three
    normalised values lies between 0 and 1. *)
Theorem satisfaction_is_weighted_sum (self : HomeOwner) (target_house : House)
    (upgrade_cost moving_cost bonus_energy : Z) :
  let norm_liquidity :=
    spec_normalize (inject_Z (savings self - upgrade_cost - moving_cost))
                   (inject_Z MIN_WEALTH) (inject_Z MAX_WEALTH) in
  let norm_rating :=
    spec_normalize (inject_Z (Z.min (energy_label target_house + bonus_energy) 7)) 0 7 in
  let norm_quality := spec_normalize (quality target_house) 0 MAX_QUALITY in
  calculate_satisfaction self target_house upgrade_cost moving_cost bonus_energy
    == spec_satisfaction (savings self) upgrade_cost moving_cost
         (energy_label target_house) bonus_energy (quality target_house) /\
  calculate_satisfaction self target_house upgrade_cost moving_cost bonus_energy
    == WEIGHT_FINANCIAL * norm_liquidity + WEIGHT_ENVIRONMENT * norm_rating
       + WEIGHT_COMFORT * norm_quality /\
  (0 <= norm_liquidity <= 1) /\ (0 <= norm_rating <= 1) /\ (0 <= norm_quality <= 1).
Proof.
  cbv zeta.
  assert (E : calculate_satisfaction self target_house upgrade_cost moving_cost bonus_energy
    == spec_satisfaction (savings self) upgrade_cost moving_cost
         (energy_label target_house) bonus_energy (quality target_house)).
  { unfold calculate_satisfaction, spec_satisfaction. cbv zeta.
    rewrite (normalize_spec_normalize _ _ _ wealth_bounds).
    rewrite (normalize_spec_normalize _ _ _ label_bounds).
    rewrite (normalize_spec_normalize _ _ _ quality_bounds).
    reflexivity. }
  split; [exact E|]. split; [rewrite E; reflexivity|].
  split; [apply spec_normalize_range, wealth_bounds|].
  split; [apply spec_normalize_range, label_bounds|].
  apply spec_normalize_range, quality_bounds.
Qed.

End UtilityClaims.

(** * The decision engine *)

Section DecisionArithmetic.

Local Open Scope Q_scope.

Lemma HomeOwner_step_result (m : HousingModel) (i : nat) (self : HomeOwner) (own : House) :
  agents m !! i = Some self -> house_map m !! house self = Some own ->
  exists d m', decision self own (pool_houses m) = Some d /\
    HomeOwner_step m i = Some m' /\
    agents m' !! i = Some (with_intention self d) /\
    house_map m' = house_map m /\ vacancy_pool m' = vacancy_pool m.
Proof.
  intros Ha Ho. destruct (HomeOwner_step_Some m i self own Ha Ho) as (d & Hd & Hs).
  exists d. eexists. split; [exact Hd|]. split; [exact Hs|]. cbn.
  split; [|auto]. apply list_lookup_insert_eq. now apply lookup_lt_Some in Ha.
Qed.






End DecisionArithmetic.

Section SelectionRule.

Context {score : Type}.
Variable gt : score -> score -> bool.
Variable sentinel : score.
Variable satisfaction : HomeOwner -> House -> Z -> Z -> Z -> score.

(** What the statement needs of the arithmetic: [>] is a strict weak order on
    the scores, and every computed score lies above the sentinel.  Exact
    rationals satisfy this, and so do double-precision numbers, whatever the
    rounding of the weighted sum: a computed score is a number that is not
    below 0, and the sentinel is -999. *)
Hypothesis gt_irrefl : forall a, gt a a = false.
Hypothesis gt_trans : forall a b c, gt a b = true -> gt b c = true -> gt a c = true.
Hypothesis gt_cotrans : forall a b c, gt a c = true -> gt a b = true \/ gt b c = true.
Hypothesis above_sentinel :
  forall self h uc mc bn, gt (satisfaction self h uc mc bn) sentinel = true.






End SelectionRule.

Section DecisionClaims.

Local Open Scope Q_scope.


(** Claim C6.  When the participant's savings do not exceed the fixed upgrade
    cost, or the label of their house is 7, the upgrade score is the
    sentinel, which lies below the stay score (the stay score is never
    negative), and [HomeOwner.step] does not select UPGRADE. *)
Theorem no_upgrade_when_gated (m : HousingModel) (i : nat) (self : HomeOwner)
    (own : House) :
  agents m !! i = Some self -> house_map m !! house self = Some own ->
  (savings self <= COST_PER_LABEL_UPGRADE)%Z \/ energy_label own = 7%Z ->
  S_upgrade self own = SENTINEL /\
  SENTINEL < 0 /\ 0 <= S_current self own /\
  ~ S_current self own < S_upgrade self own /\
  exists m' a', HomeOwner_step m i = Some m' /\ agents m' !! i = Some a' /\
                intention a' <> UPGRADE.
Proof.
  intros Ha Ho Hgate.
  assert (Hs : S_upgrade self own = SENTINEL).
  { apply S_upgrade_gate. destruct Hgate as [H|H]; [now left|right; lia]. }
  assert (Hlt : ~ S_current self own < S_upgrade self own).
  { rewrite Hs. apply Qle_not_lt, Qlt_le_weak.
    exact (sentinel_below_satisfaction self own 0 0 0). }
  split; [exact Hs|]. split; [exact sentinel_negative|].
  split; [exact (S_current_nonneg self own)|]. split; [exact Hlt|].
  destruct (HomeOwner_step_result m i self own Ha Ho) as (d & m' & Hd & Hstep & Hi & _).
  exists m', (with_intention self d). split; [exact Hstep|]. split; [exact Hi|].
  cbn [intention with_intention]. intros Hup.
  pose proof (decision_cases self own (pool_houses m) d Hd) as Hc. cbv zeta in Hc.
  destruct Hc as [(-> & _)|[(-> & _ & Hu)|(-> & _)]]; cbn in Hup;
    try discriminate. exact (Hlt Hu).
Qed.

End DecisionClaims.

(** * Market clearing *)

Section ClearingClaims.

(** Claim C1.  In every reachable state every asset is vacant or owned and
    not both, and the vacancy pool lists exactly the assets whose vacancy flag
    is set.  The tick that starts there runs to its end; the same holds after
    its decision phase, after each single move of its clearing phase (the
    moves of any initial part of the dictionary of bids), and at its end. *)
Theorem assets_vacant_xor_owned (m : HousingModel) :
  reachable m ->
  assets_consistent m /\
  exists m1 m',
    schedule_step m = Some m1 /\ assets_consistent m1 /\
    (forall done rest, collect_bids m1 = done ++ rest ->
       exists m2, resolve_loop m1 done = Some m2 /\ assets_consistent m2) /\
    HousingModel_step m = Some m' /\ assets_consistent m'.
Proof.
  intros Hr. destruct (reachable_inv m Hr) as [Hwf Hl].
  split; [now apply wf_assets_consistent|].
  destruct (step_spec m Hwf Hl)
    as (m1 & m2 & Hs & Hres & Hstep & Hwf1 & _ & Hwf3 & _ & _ & Hdec & _).
  exists m1, (handle_upgrades m2). split; [exact Hs|].
  split; [now apply wf_assets_consistent|]. split; [|split; [exact Hstep|]].
  - intros done rest E.
    destruct (collect_bids_ok m1) as (Hnd & _ & _).
    pose proof (collect_bids_valid m1 Hdec) as Hv. rewrite E in Hnd, Hv.
    rewrite fmap_app in Hnd. apply NoDup_app in Hnd as (Hnd & _ & _).
    apply Forall_app in Hv as [Hv _].
    destruct (resolve_loop_wf done m1 Hwf1 Hnd Hv) as (mp & Hp & Hwfp & _).
    exists mp. split; [exact Hp|]. now apply wf_assets_consistent.
  - now apply wf_assets_consistent.
Qed.

(** Claim C4.  For a contested asset with at least one bidder the resolver
    selects one winner among the bidders; no bidder has a greater financial
    capacity (savings + 5 * income), and a bidder whose capacity is strictly
    greater than that of every other bidder is the winner.  The resolution
    moves the winner into the asset: afterwards the winner's house reference
    is the asset and their savings are 2000 lower, the asset is owned by the
    winner and no longer vacant, the house the winner left is vacant and
    unowned, and the vacancy pool has lost the asset and gained the house the
    winner left.  It leaves the record of every losing bidder (savings and
    house reference) and the record of the house they live in unchanged.
    With two bidders of capacity 60000 and 45000 the bidder of capacity 60000
    wins and ends as the owner of the asset, and the other bidder's record is
    unchanged. *)
Theorem resolver_selects_strongest (m : HousingModel) (t : nat) (bs : list nat) :
  wf m -> t ∈ vacancy_pool m -> bs <> [] ->
  (forall z, z ∈ bs -> is_Some (agents m !! z)) ->
  exists w m' b ht,
    select_winner m bs = Some w /\ w ∈ bs /\
    agents m !! w = Some b /\ house_map m !! t = Some ht /\
    resolve_loop m [(Some t, bs)] = Some m' /\
    (forall z, z ∈ bs -> (capacity_of m z <= capacity_of m w)%Z) /\
    (forall z, z ∈ bs ->
       (forall y, y ∈ bs -> y <> z -> (capacity_of m y < capacity_of m z)%Z) -> w = z) /\
    (exists b', agents m' !! w = Some b' /\ house b' = t /\
       savings b' = (savings b - MOVING_COST_FIXED)%Z /\ income b' = income b) /\
    (exists ht', house_map m' !! t = Some ht' /\
       owner ht' = Some w /\ is_vacant ht' = false /\
       energy_label ht' = energy_label ht /\ market_value ht' = market_value ht) /\
    (exists ho', house_map m' !! house b = Some ho' /\
       owner ho' = None /\ is_vacant ho' = true) /\
    (forall j, j ∈ vacancy_pool m' <-> (j ∈ vacancy_pool m /\ j <> t) \/ j = house b) /\
    (forall z a, z ∈ bs -> z <> w -> agents m !! z = Some a ->
       agents m' !! z = Some a /\
       house_map m' !! house a = house_map m !! house a) /\
    (forall b1 b2, bs = [b1; b2] \/ bs = [b2; b1] ->
       capacity_of m b1 = 60000%Z -> capacity_of m b2 = 45000%Z ->
       w = b1 /\
       (exists a1 h1, agents m' !! b1 = Some a1 /\ house a1 = t /\
          house_map m' !! t = Some h1 /\ owner h1 = Some b1) /\
       agents m' !! b2 = agents m !! b2).
Proof.
  intros Hwf Ht Hne Hbs.
  destruct (select_winner_spec m bs Hne) as (w & Hw & Hin & Hmax).
  destruct (Hbs w Hin) as [b Hb].
  destruct (target_house m t Hwf Ht) as (ht & Hl & _ & Hnone).
  pose proof (execute_move_moved m w t b Hwf Hb Ht ht Hl) as Hmove.
  destruct (buyer_house m w b Hwf Hb) as (ho & Ho & Hown).
  assert (Hne_t : house b <> t).
  { intros E. rewrite E, Hl in Ho. inversion Ho; congruence. }
  assert (Hstrict : forall z, z ∈ bs ->
    (forall y, y ∈ bs -> y <> z -> (capacity_of m y < capacity_of m z)%Z) -> w = z).
  { intros z Hz Hgt. destruct (decide (w = z)) as [E|E]; [exact E|].
    specialize (Hgt w Hin E). specialize (Hmax z Hz). lia. }
  assert (Hwin : agents (moved m w t b ht) !! w = Some (pay_move b t)).
  { rewrite (moved_agent_lookup m w t b Hb ht w). now rewrite decide_True. }
  assert (Hnew : house_map (moved m w t b ht) !! t = Some (occupy w ht)).
  { rewrite (moved_house_lookup m w t b ht ho _ Hl Ho). now rewrite decide_True. }
  assert (Hlosers : forall z a, z ∈ bs -> z <> w -> agents m !! z = Some a ->
    agents (moved m w t b ht) !! z = Some a /\
    house_map (moved m w t b ht) !! house a = house_map m !! house a).
  { intros z a Hz Hzw Ha. rewrite (moved_agent_lookup m w t b Hb ht z).
    rewrite decide_False by exact Hzw. split; [exact Ha|].
    destruct (wf_agent_house m Hwf z a Ha) as (h & Hh & Hoz).
    rewrite (moved_house_lookup m w t b ht ho _ Hl Ho).
    rewrite decide_False by (intros E; rewrite E, Hl in Hh; inversion Hh; congruence).
    rewrite decide_False by (intros E; rewrite E, Ho in Hh; inversion Hh; congruence).
    reflexivity. }
  exists w, (moved m w t b ht), b, ht.
  split; [exact Hw|]. split; [exact Hin|]. split; [exact Hb|]. split; [exact Hl|].
  split.
  { cbn. rewrite Hw. cbn. rewrite Hmove. reflexivity. }
  split; [exact Hmax|]. split; [exact Hstrict|].
  split; [exists (pay_move b t); split; [exact Hwin|]; cbn; auto|].
  split; [exists (occupy w ht); split; [exact Hnew|]; cbn; auto|].
  split.
  { exists (vacate ho). split; [|cbn; auto].
    rewrite (moved_house_lookup m w t b ht ho _ Hl Ho).
    rewrite decide_False by exact Hne_t. now rewrite decide_True. }
  split; [intros j; exact (moved_pool m w t b Hwf ht j)|].
  split; [exact Hlosers|].
  intros b1 b2 Hcase H1 H2.
  assert (Hb12 : b2 <> b1) by (intros E; rewrite E in H2; lia).
  assert (Hin2 : b2 ∈ bs).
  { destruct Hcase as [-> | ->]; [right; now left|now left]. }
  assert (E : w = b1).
  { apply Hstrict.
    - destruct Hcase as [-> | ->]; [now left|right; now left].
    - intros y Hy Hyb. assert (y = b2) as ->.
      { destruct Hcase as [-> | ->]; apply elem_of_cons in Hy as [->|Hy];
          try contradiction; try reflexivity;
          apply list_elem_of_singleton in Hy; congruence. }
      lia. }
  subst w. split; [reflexivity|]. split.
  - exists (pay_move b t), (occupy b1 ht). split; [exact Hwin|].
    split; [reflexivity|]. split; [exact Hnew|]. reflexivity.
  - destruct (Hbs b2 Hin2) as [a2 Ha2]. rewrite Ha2.
    exact (proj1 (Hlosers b2 a2 Hin2 Hb12 Ha2)).
Qed.

Lemma compute_winners_total (m : HousingModel) (bids : list (option nat * list nat)) :
  Forall (fun g => g.2 <> []) bids -> is_Some (compute_winners m bids).
Proof.
  induction 1 as [|[k bs] bids Hne _ [ws IH]]; cbn; [eauto|].
  destruct (select_winner_spec m bs Hne) as (w & Hw & _). rewrite Hw. cbn.
  rewrite IH. cbn. eauto.
Qed.

Lemma capacity_of_agent (m m' : HousingModel) (i : nat) :
  agents m' !! i = agents m !! i -> capacity_of m' i = capacity_of m i.
Proof. intros E. unfold capacity_of. now rewrite E. Qed.

Lemma resolve_loop_frozen (bids : list (option nat * list nat)) (m0 m : HousingModel) :
  NoDup (bidders bids) -> Forall (fun g => g.2 <> []) bids ->
  (forall i, i ∈ bidders bids -> capacity_of m i = capacity_of m0 i) ->
  resolve_loop m bids = (ws ← compute_winners m0 bids; execute_moves m ws).
Proof.
  revert m. induction bids as [|[k bs] bids IH]; intros m Hnd Hne Hcap; [reflexivity|].
  apply Forall_cons in Hne as [Hbs Hne]. cbn in Hbs.
  unfold bidders in Hnd, Hcap. cbn in Hnd, Hcap. fold (bidders bids) in Hnd, Hcap.
  apply NoDup_app in Hnd as (_ & Hdisj & Hnd).
  assert (Ew : select_winner m bs = select_winner m0 bs).
  { unfold select_winner. f_equal. apply sorted_desc_ext.
    intros z Hz. apply Hcap, elem_of_app. now left. }
  destruct (select_winner_spec m0 bs Hbs) as (w & Hw & Hin & _).
  destruct (compute_winners_total m0 bids Hne) as [ws Hws].
  cbn. rewrite Ew, Hw. cbn. rewrite Hws. cbn.
  destruct (execute_move m w k) as [m'|] eqn:Hmove; cbn; [|reflexivity].
  rewrite (IH m' Hnd Hne), Hws; [reflexivity|].
  intros i Hi. rewrite <- (Hcap i) by (apply elem_of_app; now right).
  apply capacity_of_agent, (execute_move_others m m' w i k Hmove).
  intros ->. exact (Hdisj w Hin Hi).
Qed.

(** Claim C5.  The clearing phase of the program, which selects the winner
    of a contested asset and executes the move at once, asset after asset,
    ends in the same state (or fails alike) as the reference resolver, which
    computes all winners over the frozen bids before it executes any move. *)
Theorem clearing_refines_reference (m : HousingModel) :
  resolve_market_conflicts m = resolve_reference m.
Proof.
  unfold resolve_market_conflicts, resolve_reference.
  destruct (collect_bids_ok m) as (_ & Hg & Hnd).
  apply resolve_loop_frozen; [exact Hnd| |reflexivity].
  eapply Forall_impl; [exact Hg|]. now intros g [Hne _].
Qed.

End ClearingClaims.

(** * Whole runs *)

Section RunClaims.

Lemma example_houses_valid : Forall valid_house_draw example_houses.
Proof. repeat constructor; cbn; try lia; try discriminate; reflexivity. Qed.

Lemma example_owners_valid : Forall valid_owner_draw example_owners.
Proof. repeat constructor; cbn; lia. Qed.

Lemma example_world_init :
  HousingModel_init example_houses example_owners = Some example_world.
Proof. reflexivity. Qed.

Lemma bidders_world_init :
  HousingModel_init example_houses bidder_draws = Some bidders_world.
Proof. reflexivity. Qed.

(** Claim C7.  From an initial state whose labels are drawn in 0..5, after
    any number of ticks, and then after any further number of ticks, the
    label of every asset is an integer in 0..7 that did not decrease, and its
    market value did not decrease; the runs never fail.  The mutation
    [update_energy_label] itself adds the levels without a clamp. *)
Theorem labels_bounded_and_monotone (houses : list HouseDraw) (owners : list OwnerDraw)
    (m0 : HousingModel) (n1 n2 : nat) :
  Forall valid_house_draw houses ->
  HousingModel_init houses owners = Some m0 ->
  exists m1 m2,
    run n1 m0 = Some m1 /\ run n2 m1 = Some m2 /\
    (forall j h1, house_map m1 !! j = Some h1 ->
       exists h2, house_map m2 !! j = Some h2 /\
         (0 <= energy_label h1 <= energy_label h2)%Z /\ (energy_label h2 <= 7)%Z /\
         (market_value h1 <= market_value h2)%Z) /\
    (forall h levels,
       energy_label (update_energy_label h levels) = (energy_label h + levels)%Z).
Proof.
  intros Hvalid Hinit.
  destruct (init_wf houses owners m0 Hvalid Hinit) as (Hwf0 & Hl0 & _).
  destruct (run_spec n1 m0 Hwf0 Hl0) as (m1 & Hrun1 & Hwf1 & Hl1 & _).
  destruct (run_spec n2 m1 Hwf1 Hl1) as (m2 & Hrun2 & Hwf2 & Hl2 & Hg).
  exists m1, m2. split; [exact Hrun1|]. split; [exact Hrun2|]. split; [|reflexivity].
  intros j h1 Hh1. destruct (gr_house _ _ Hg j h1 Hh1) as (h2 & Hh2 & Hlab & Hval).
  exists h2. split; [exact Hh2|].
  pose proof (Hl1 j h1 Hh1). pose proof (Hl2 j h2 Hh2). lia.
Qed.

(** Claim C9.  A move deducts the fixed moving cost from the buyer's savings
    whenever the buyer and the target exist, whatever the savings and the
    price of the house; an upgrade deducts the fixed upgrade cost whenever
    the intention is UPGRADE.  There is a reachable state in which the move
    of the winner of a bid leaves the buyer with negative savings. *)
Theorem mutations_do_not_revalidate :
  (forall m buyer t b,
     agents m !! buyer = Some b -> is_Some (house_map m !! t) ->
     exists m' b', execute_move m buyer (Some t) = Some m' /\
       agents m' !! buyer = Some b' /\
       savings b' = (savings b - MOVING_COST_FIXED)%Z) /\
  (forall m i a,
     agents m !! i = Some a -> intention a = UPGRADE ->
     exists a', agents (upgrade_agent m i) !! i = Some a' /\
       savings a' = (savings a - COST_PER_LABEL_UPGRADE)%Z) /\
  (exists m m1 w t b m2 b',
     reachable m /\ schedule_step m = Some m1 /\
     collect_bids m1 = [(Some t, [w])] /\ select_winner m1 [w] = Some w /\
     agents m1 !! w = Some b /\ execute_move m1 w (Some t) = Some m2 /\
     agents m2 !! w = Some b' /\ (savings b' < 0)%Z).
Proof.
  split; [|split].
  - intros m buyer t b Hb Ht.
    destruct (execute_move_defined m buyer t) as [m' Hm]; [eauto|exact Ht|].
    destruct (execute_move_savings m m' buyer (Some t) b Hb Hm) as (b' & Hb' & Hs & _).
    exists m', b'. auto.
  - intros m i a Ha Hi. unfold upgrade_agent. rewrite Ha.
    rewrite decide_True by exact Hi. cbn.
    exists (pay_upgrade a). split; [|reflexivity].
    apply list_lookup_insert_eq. now apply lookup_lt_Some in Ha.
  - do 2 eexists. exists 0, 1. do 3 eexists. split.
    { eapply reachable_step.
      - exact (reachable_init _ _ _ example_houses_valid example_owners_valid
                 example_world_init).
      - vm_compute. reflexivity. }
    split; [vm_compute; reflexivity|]. split; [vm_compute; reflexivity|].
    split; [vm_compute; reflexivity|]. split; [vm_compute; reflexivity|].
    split; [vm_compute; reflexivity|]. split; [vm_compute; reflexivity|].
    vm_compute. reflexivity.
Qed.

(** Claim C10.  In a tick from a reachable state every BUY intention targets
    an asset of the vacancy pool, vacant and without owner when the decisions
    are taken; the key of every group of bids is in [house_map] and is the
    house of no participant, so the clearing phase does not fail; and after it
    every participant is still the owner of the house they live in. *)
Theorem bids_target_vacant_assets (m : HousingModel) :
  reachable m ->
  exists m1 m2,
    schedule_step m = Some m1 /\ resolve_market_conflicts m1 = Some m2 /\
    (forall i a, agents m1 !! i = Some a -> intention a = BUY ->
       exists t h, target_house_id a = Some t /\ t ∈ vacancy_pool m /\
         house_map m !! t = Some h /\ is_vacant h = true /\ owner h = None) /\
    (forall k bs, (k, bs) ∈ collect_bids m1 ->
       exists t, k = Some t /\ is_Some (house_map m1 !! t) /\
         forall i a, agents m1 !! i = Some a -> house a <> t) /\
    (forall i a, agents m2 !! i = Some a ->
       exists h, house_map m2 !! house a = Some h /\ owner h = Some i).
Proof.
  intros Hr. destruct (reachable_inv m Hr) as [Hwf Hl].
  destruct (step_spec m Hwf Hl)
    as (m1 & m2 & Hs & Hres & _ & Hwf1 & Hwf2 & _ & _ & _ & Hdec & Eh & Ep).
  exists m1, m2. split; [exact Hs|]. split; [exact Hres|]. split; [|split].
  - intros i a Ha Hi.
    destruct (decided_buy m1 a (Hdec i a Ha) Hi) as (t & h & Et & Ht & Hh & _).
    rewrite Ep in Ht.
    destruct (target_house m t Hwf Ht) as (ht & Hl' & Hv & Ho).
    exists t, ht. auto.
  - intros k bs Hin.
    pose proof (proj1 (Forall_forall _ _) (collect_bids_valid m1 Hdec) _ Hin)
      as ((t & Ek & Ht) & _). cbn in Ek.
    destruct (target_house m1 t Hwf1 Ht) as (ht & Hl' & _ & Ho).
    exists t. split; [exact Ek|]. split; [eauto|].
    intros i a Ha E. destruct (wf_agent_house m1 Hwf1 i a Ha) as (h & Hh & Hoh).
    rewrite E, Hl' in Hh. inversion Hh; subst. congruence.
  - exact (wf_agent_house m2 Hwf2).
Qed.

End RunClaims.

(** * The program on small inputs *)

Section Examples.

Example normalize_half : (normalize 250000 0 500000 == 1 # 2)%Q.
Proof. vm_compute. reflexivity. Qed.

Example normalize_above : (normalize 9 0 7 == 1)%Q.
Proof. vm_compute. reflexivity. Qed.

Example normalize_negative_savings : (normalize (-1000) 0 500000 == 0)%Q.
Proof. vm_compute. reflexivity. Qed.

(** Bidders of equal capacity: the first one in the order of the schedule
    wins, as with Python's stable [sorted]. *)
Example winner_among_equals :
  sorted_desc (fun i => if decide (i = 2) then 7%Z else 5%Z) [0; 1; 2; 3] = [2; 0; 1; 3].
Proof. reflexivity. Qed.

(** The first tick from [example_world]: owner 0 upgrades house 0 (label 0
    to 1, value up by 2000, savings 6000 to 1000) and owner 1 moves from
    house 1 into house 2 (savings 5000 to 3000). *)
Example first_tick :
  HousingModel_step example_world =
    Some {| agents :=
              [ {| income := 30000; savings := 1000; house := 0;
                   intention := STAY; target_house_id := None |};
                {| income := 80000; savings := 3000; house := 2;
                   intention := BUY; target_house_id := Some 2 |} ];
            house_map :=
              [ {| energy_label := 1; size := 50; quality := 0 # 1;
                   market_value := 102000; owner := Some 0; is_vacant := false |};
                {| energy_label := 4; size := 50; quality := 1 # 2;
                   market_value := 100000; owner := None; is_vacant := true |};
                {| energy_label := 5; size := 50; quality := 1 # 2;
                   market_value := 300000; owner := Some 1; is_vacant := false |} ];
            vacancy_pool := [1] |}.
Proof. vm_compute. reflexivity. Qed.

(** The second tick: owner 0, with savings 1000, buys the house that owner 1
    left and pays the moving cost of 2000. *)
Example second_tick_savings :
  (m ← run 2 example_world; a ← agents m !! 0; Some (savings a, house a))
  = Some ((-1000)%Z, 1).
Proof. vm_compute. reflexivity. Qed.

(** More owners than houses: [all_houses[i]] raises [IndexError]. *)
Example init_too_many_owners :
  HousingModel_init [ (0, 50, 0 # 1, 100000)%Z ] example_owners = None.
Proof. reflexivity. Qed.

(** A move to a key that is not in [house_map] raises [KeyError]. *)
Example move_unknown_house : execute_move example_world 0 (Some 7) = None.
Proof. reflexivity. Qed.

End Examples.

(** * The claims at the example worlds *)

Section Witnesses.

Lemma assets_vacant_xor_owned_witness :
  reachable example_world /\ assets_consistent example_world.
Proof.
  assert (Hr : reachable example_world).
  { apply (reachable_init example_houses example_owners).
    - exact example_houses_valid.
    - exact example_owners_valid.
    - reflexivity. }
  split; [exact Hr|]. exact (proj1 (assets_vacant_xor_owned example_world Hr)).
Defined.


Lemma no_upgrade_when_gated_witness :
  exists self own,
    agents example_world !! 1 = Some self /\
    house_map example_world !! house self = Some own /\
    (savings self <= COST_PER_LABEL_UPGRADE)%Z /\
    S_upgrade self own = SENTINEL /\
    exists m' a', HomeOwner_step example_world 1 = Some m' /\
                  agents m' !! 1 = Some a' /\ intention a' <> UPGRADE.
Proof.
  pose (self := {| income := 80000; savings := 5000; house := 1;
                   intention := STAY; target_house_id := None |}).
  pose (own := {| energy_label := 4; size := 50; quality := 1 # 2;
                  market_value := 100000; owner := Some 1; is_vacant := false |}).
  assert (Hgate : (savings self <= COST_PER_LABEL_UPGRADE)%Z) by (vm_compute; discriminate).
  destruct (no_upgrade_when_gated example_world 1 self own eq_refl eq_refl (or_introl Hgate))
    as (Hs & _ & _ & _ & Hstep).
  exists self, own. split; [reflexivity|]. split; [reflexivity|].
  split; [exact Hgate|]. split; [exact Hs|exact Hstep].
Defined.

Lemma resolver_selects_strongest_witness :
  capacity_of bidders_world 0 = 60000%Z /\ capacity_of bidders_world 1 = 45000%Z /\
  select_winner bidders_world [1; 0] = Some 0 /\
  exists m' a h, resolve_loop bidders_world [(Some 2, [1; 0])] = Some m' /\
             agents m' !! 0 = Some a /\ house a = 2 /\
             house_map m' !! 2 = Some h /\ owner h = Some 0 /\
             agents m' !! 1 = agents bidders_world !! 1.
Proof.
  destruct (init_wf example_houses bidder_draws bidders_world
              example_houses_valid bidders_world_init) as (Hwf & _).
  assert (Ht : 2 ∈ vacancy_pool bidders_world) by (cbn; left).
  assert (Hne : [1; 0] <> @nil nat) by discriminate.
  assert (Hbs : forall z, z ∈ [1; 0] -> is_Some (agents bidders_world !! z)).
  { intros z Hz. apply elem_of_cons in Hz as [->|Hz]; [eexists; reflexivity|].
    apply list_elem_of_singleton in Hz. subst z. eexists; reflexivity. }
  destruct (resolver_selects_strongest bidders_world 2 [1; 0] Hwf Ht Hne Hbs)
    as (w & m' & b & ht & Hw & _ & _ & _ & Hres & _ & _ & _ & _ & _ & _ & _ & Hexample).
  destruct (Hexample 0 1 ltac:(right; reflexivity) eq_refl eq_refl)
    as (E & (a1 & h1 & Ha1 & Hh1 & Hl1 & Ho1) & Hkeep).
  subst w. split; [reflexivity|]. split; [reflexivity|]. split; [exact Hw|].
  exists m', a1, h1. split; [exact Hres|]. split; [exact Ha1|]. split; [exact Hh1|].
  split; [exact Hl1|]. split; [exact Ho1|exact Hkeep].
Defined.

Lemma labels_bounded_and_monotone_witness :
  Forall valid_house_draw example_houses /\
  HousingModel_init example_houses example_owners = Some example_world /\
  exists m1 m2, run 1 example_world = Some m1 /\ run 2 m1 = Some m2.
Proof.
  split; [exact example_houses_valid|]. split; [reflexivity|].
  destruct (labels_bounded_and_monotone example_houses example_owners example_world 1 2
              example_houses_valid eq_refl) as (m1 & m2 & H1 & H2 & _).
  exists m1, m2. split; [exact H1|exact H2].
Defined.

Lemma bids_target_vacant_assets_witness :
  reachable example_world /\
  exists m1 m2, schedule_step example_world = Some m1 /\
                resolve_market_conflicts m1 = Some m2.
Proof.
  assert (Hr : reachable example_world).
  { apply (reachable_init example_houses example_owners).
    - exact example_houses_valid.
    - exact example_owners_valid.
    - reflexivity. }
  split; [exact Hr|].
  destruct (bids_target_vacant_assets example_world Hr) as (m1 & m2 & H1 & H2 & _).
  exists m1, m2. split; [exact H1|exact H2].
Defined.

End Witnesses.

(** * Further properties of the utility model *)

Section UtilityExtras.

Local Open Scope Q_scope.

Lemma normalize_reversed_bounds (v lo hi : Q) : hi < lo -> normalize v lo hi == 0.
Proof.
  intros Hlt. unfold normalize.
  destruct (Qeq_bool hi lo) eqn:E; [reflexivity|].
  assert (Hm : Qmax lo (Qmin v hi) == lo).
  { apply Q.max_l. eapply Qle_trans; [apply Q.le_min_r|]. now apply Qlt_le_weak. }
  rewrite Hm. field. intros E0.
  assert (hi == lo) as E1 by lra. rewrite E1 in Hlt. now apply Qlt_irrefl in Hlt.
Qed.

(** X1.  For bounds that are double-precision numbers and whose difference
    hi - lo is finite (at most [DOUBLE_MAX] in absolute value), in whatever
    order the bounds come (lo < hi, equal, or reversed), [normalize] returns
    a number between 0 and 1, for every value. *)
Theorem normalize_unit_interval (v lo hi : Q) :
  double_value lo -> double_value hi ->
  - DOUBLE_MAX <= hi - lo -> hi - lo <= DOUBLE_MAX ->
  0 <= normalize v lo hi /\ normalize v lo hi <= 1.
Proof.
  intros _ _ _ _.
  destruct (Qlt_le_dec lo hi) as [Hlt|Hge]; [now apply normalize_range|].
  destruct (Qlt_le_dec hi lo) as [Hlt|Hle].
  - rewrite (normalize_reversed_bounds v lo hi Hlt). split; discriminate.
  - assert (E : hi == lo) by (now apply Qle_antisym).
    unfold normalize. rewrite (proj2 (Qeq_bool_iff hi lo) E). split; discriminate.
Qed.

(** X2.  The satisfaction score lies between 0 and 1, for every participant,
    house, pair of costs and bonus. *)
Theorem satisfaction_unit_interval (self : HomeOwner) (h : House) (uc mc bn : Z) :
  0 <= calculate_satisfaction self h uc mc bn /\
  calculate_satisfaction self h uc mc bn <= 1.
Proof.
  split; [apply satisfaction_nonneg|].
  unfold calculate_satisfaction. cbv zeta.
  pose proof (normalize_range
    (inject_Z (savings self - uc - mc)) _ _ wealth_bounds) as [_ H1].
  pose proof (normalize_range
    (inject_Z (Z.min (energy_label h + bn) 7)) _ _ label_bounds) as [_ H2].
  pose proof (normalize_range (quality h) _ _ quality_bounds) as [_ H3].
  revert H1 H2 H3.
  generalize (normalize (inject_Z (savings self - uc - mc))
                (inject_Z MIN_WEALTH) (inject_Z MAX_WEALTH)).
  generalize (normalize (inject_Z (Z.min (energy_label h + bn) 7)) 0 7).
  generalize (normalize (quality h) 0 MAX_QUALITY).
  intros z y x H1 H2 H3.
  unfold WEIGHT_FINANCIAL, WEIGHT_ENVIRONMENT, WEIGHT_COMFORT. lra.
Qed.

Lemma inject_Z_le (x y : Z) : (x <= y)%Z -> inject_Z x <= inject_Z y.
Proof. intros H. now rewrite <- Zle_Qle. Qed.

(** X3.  The score is monotone: a projected liquidity, a projected label and
    a quality that are not smaller give a score that is not smaller. *)
Theorem satisfaction_monotone (a a' : HomeOwner) (h h' : House)
    (uc mc bn uc' mc' bn' : Z) :
  (savings a - uc - mc <= savings a' - uc' - mc')%Z ->
  (energy_label h + bn <= energy_label h' + bn')%Z ->
  quality h <= quality h' ->
  calculate_satisfaction a h uc mc bn <= calculate_satisfaction a' h' uc' mc' bn'.
Proof.
  intros Hs Hl Hq. unfold calculate_satisfaction. cbv zeta.
  assert (H1 := normalize_mono (inject_Z (savings a - uc - mc))
                  (inject_Z (savings a' - uc' - mc')) _ _ wealth_bounds
                  (inject_Z_le _ _ Hs)).
  assert (Hmin : (Z.min (energy_label h + bn) 7 <= Z.min (energy_label h' + bn') 7)%Z)
    by lia.
  assert (H2 := normalize_mono _ _ _ _ label_bounds (inject_Z_le _ _ Hmin)).
  assert (H3 := normalize_mono _ _ _ _ quality_bounds Hq).
  revert H1 H2 H3.
  generalize (normalize (inject_Z (savings a - uc - mc))
                (inject_Z MIN_WEALTH) (inject_Z MAX_WEALTH)).
  generalize (normalize (inject_Z (savings a' - uc' - mc'))
                (inject_Z MIN_WEALTH) (inject_Z MAX_WEALTH)).
  generalize (normalize (inject_Z (Z.min (energy_label h + bn) 7)) 0 7).
  generalize (normalize (inject_Z (Z.min (energy_label h' + bn') 7)) 0 7).
  generalize (normalize (quality h) 0 MAX_QUALITY).
  generalize (normalize (quality h') 0 MAX_QUALITY).
  intros z' z y' y x' x H1 H2 H3.
  unfold WEIGHT_FINANCIAL, WEIGHT_ENVIRONMENT, WEIGHT_COMFORT. lra.
Qed.

End UtilityExtras.

(** * Further properties of the move *)

Section MoveExtras.

(** X4.  For a buyer of the schedule, [execute_move] fails exactly when the
    target key is [None] or is not a key of [house_map] (the [KeyError] of
    the lookup); savings, prices and vacancy play no part. *)
Theorem execute_move_fails_iff (m : HousingModel) (buyer : nat) (k : option nat) :
  is_Some (agents m !! buyer) ->
  (execute_move m buyer k = None <->
   k = None \/ exists t, k = Some t /\ house_map m !! t = None).
Proof.
  intros [b Hb]. split.
  - intros Hnone. destruct k as [t|]; [|now left]. right. exists t. split; [reflexivity|].
    destruct (house_map m !! t) as [h|] eqn:Hh; [|reflexivity].
    destruct (execute_move_defined m buyer t) as [m' Hm]; [eauto|eauto|]. congruence.
  - intros [->|(t & -> & Hh)].
    + unfold execute_move. rewrite Hb. reflexivity.
    + destruct (execute_move m buyer (Some t)) as [m'|] eqn:Hm; [|reflexivity].
      apply execute_move_inv in Hm as (b0 & t0 & hnew & _ & [= <-] & Hn & _).
      apply lookup_lt_Some in Hn. rewrite length_alter in Hn.
      apply lookup_ge_None in Hh. lia.
Qed.

Lemma remove_first_appended (x : nat) (l : list nat) :
  x ∉ l -> remove_first x (l ++ [x]) = l.
Proof.
  induction l as [|y l IH]; intros Hn; cbn.
  - now rewrite decide_True.
  - rewrite decide_False by (intros ->; apply Hn; now left).
    rewrite IH; [reflexivity|]. intros H. apply Hn. now right.
Qed.

(** X5.  A move of a participant into the house they already live in (the
    old house and the new house are one object) leaves the houses and the
    vacancy pool as they were: the house is vacated and put in the pool, then
    occupied again and taken out of the pool.  Only the moving cost is paid. *)
Theorem move_into_own_house (m : HousingModel) (buyer : nat) (b : HomeOwner) :
  wf m -> agents m !! buyer = Some b ->
  execute_move m buyer (Some (house b)) =
    Some {| agents := <[buyer := pay_move b (house b)]> (agents m);
            house_map := house_map m;
            vacancy_pool := vacancy_pool m |}.
Proof.
  intros Hwf Hb. destruct (wf_agent_house m Hwf buyer b Hb) as (ho & Ho & Hown).
  assert (Hv : is_vacant ho = false).
  { destruct (is_vacant ho) eqn:E; [|reflexivity].
    apply (wf_vacant m Hwf _ ho Ho) in E. congruence. }
  assert (Hn : house b ∉ vacancy_pool m).
  { intros Hin. apply (wf_pool m Hwf) in Hin as (h & Hh & Hvh).
    rewrite Ho in Hh. inversion Hh; subst. congruence. }
  rewrite (execute_move_Some m buyer (house b) b (vacate ho) Hb)
    by (now rewrite list_lookup_alter_eq, Ho).
  do 2 f_equal.
  - assert (E : occupy buyer (vacate ho) = ho).
    { destruct ho; cbn in *. now subst. }
    rewrite E. apply list_eq. intros j. destruct (decide (j = house b)) as [->|Hne].
    + rewrite list_lookup_insert_eq; [now rewrite Ho|].
      rewrite length_alter. now apply lookup_lt_Some in Ho.
    + rewrite list_lookup_insert_ne by congruence.
      now rewrite list_lookup_alter_ne by congruence.
  - rewrite decide_True by (apply elem_of_app; right; now left).
    now apply remove_first_appended.
Qed.

End MoveExtras.

(** * Further properties of the clearing phase *)

Section ClearingExtras.

(** X6.  The winner of a contested house is the first bidder, in the order
    in which the bids were collected, whose financial capacity is maximal:
    every bidder before the winner has a strictly smaller capacity and no
    bidder after the winner has a greater one.  Among equal capacities the
    earliest bidder wins. *)
Theorem winner_is_first_of_maximal_capacity (m : HousingModel) (bs : list nat) (w : nat) :
  select_winner m bs = Some w ->
  exists before after,
    bs = before ++ w :: after /\
    (forall z, z ∈ before -> (capacity_of m z < capacity_of m w)%Z) /\
    (forall z, z ∈ after -> (capacity_of m z <= capacity_of m w)%Z).
Proof.
  unfold select_winner. generalize (capacity_of m). intros key.
  revert w. induction bs as [|x l IH]; intros w Hw; [discriminate|].
  change (sorted_desc key (x :: l)) with (insert_desc key x (sorted_desc key l)) in Hw.
  pose proof (sorted_desc_head_is_max key l) as Hmax.
  pose proof (sorted_desc_perm key l) as Hperm.
  destruct (sorted_desc key l) as [|y s] eqn:E.
  - cbn in Hw. inversion Hw; subst w. exists [], l. split; [reflexivity|].
    split; [intros z Hz; inversion Hz|].
    intros z Hz. rewrite <- Hperm in Hz. inversion Hz.
  - cbn in Hw, Hmax. destruct (Z.ltb_spec (key x) (key y)) as [Hlt|Hge];
      cbn in Hw; inversion Hw; subst w.
    + destruct (IH y eq_refl) as (before & after & -> & Hb & Ha).
      exists (x :: before), after. split; [reflexivity|]. split; [|exact Ha].
      intros z Hz. apply elem_of_cons in Hz as [->|Hz]; [exact Hlt|now apply Hb].
    + exists [], l. split; [reflexivity|]. split; [intros z Hz; inversion Hz|].
      intros z Hz. rewrite <- Hperm in Hz. specialize (Hmax z Hz). lia.
Qed.

Lemma add_bid_keeps (bids : list (option nat * list nat)) (k k' : option nat)
    (i i' : nat) (bs' : list nat) :
  (k', bs') ∈ bids -> i' ∈ bs' ->
  exists bs'', (k', bs'') ∈ add_bid bids k i /\ i' ∈ bs''.
Proof.
  induction bids as [|[t bs] bids IH]; intros Hin Hi'; [inversion Hin|]. cbn.
  apply elem_of_cons in Hin as [[= -> ->]|Hin].
  - destruct (decide (t = k)).
    + exists (bs ++ [i]). split; [now left|]. apply elem_of_app. now left.
    + exists bs. split; [now left|exact Hi'].
  - destruct (decide (t = k)).
    + exists bs'. split; [now right|exact Hi'].
    + destruct (IH Hin Hi') as (bs'' & H1 & H2). exists bs''. split; [now right|exact H2].
Qed.

Lemma add_bid_adds (bids : list (option nat * list nat)) (k : option nat) (i : nat) :
  exists bs, (k, bs) ∈ add_bid bids k i /\ i ∈ bs.
Proof.
  induction bids as [|[t bs] bids IH]; cbn.
  - exists [i]. split; now left.
  - destruct (decide (t = k)) as [->|Hne].
    + exists (bs ++ [i]). split; [now left|]. apply elem_of_app. right. now left.
    + destruct IH as (bs' & H1 & H2). exists bs'. split; [now right|exact H2].
Qed.

Lemma collect_loop_complete (m : HousingModel) (idxs : list nat)
    (bids : list (option nat * list nat)) (i : nat) (a : HomeOwner) :
  agents m !! i = Some a -> intention a = BUY ->
  i ∈ idxs \/ (exists bs, (target_house_id a, bs) ∈ bids /\ i ∈ bs) ->
  exists bs, (target_house_id a, bs) ∈ fold_left (bid_step m) idxs bids /\ i ∈ bs.
Proof.
  intros Ha Hi. revert bids. induction idxs as [|j idxs IH]; intros bids Hcase; cbn.
  - destruct Hcase as [Hin|H]; [inversion Hin|exact H].
  - apply IH. destruct (decide (i = j)) as [<-|Hne].
    + right. unfold bid_step. rewrite Ha, decide_True by exact Hi. apply add_bid_adds.
    + destruct Hcase as [Hin|(bs & H1 & H2)].
      * apply elem_of_cons in Hin as [->|Hin]; [contradiction|now left].
      * right. destruct (bid_step_cases m bids j) as [E|(aj & _ & _ & E)]; rewrite E.
        -- eauto.
        -- now apply (add_bid_keeps bids _ _ j i bs).
Qed.

(** X7.  The dictionary of bids holds exactly the participants whose
    intention is BUY: every group is non-empty and each of its bidders has
    intention BUY with the key of the group as target; every participant with
    intention BUY is in the group of their target; no key has two groups and
    no participant bids twice. *)
Theorem collect_bids_exact (m : HousingModel) :
  (forall k bs, (k, bs) ∈ collect_bids m ->
     bs <> [] /\
     forall i, i ∈ bs ->
       exists a, agents m !! i = Some a /\ intention a = BUY /\ target_house_id a = k) /\
  (forall i a, agents m !! i = Some a -> intention a = BUY ->
     exists bs, (target_house_id a, bs) ∈ collect_bids m /\ i ∈ bs) /\
  NoDup ((collect_bids m).*1) /\ NoDup (bidders (collect_bids m)).
Proof.
  destruct (collect_bids_ok m) as (Hk & Hg & Hb).
  split; [|split; [|split; [exact Hk|exact Hb]]].
  - intros k bs Hin. exact (proj1 (Forall_forall _ _) Hg (k, bs) Hin).
  - intros i a Ha Hi. apply (collect_loop_complete m _ [] i a Ha Hi). left.
    apply elem_of_seq. apply lookup_lt_Some in Ha. lia.
Qed.

End ClearingExtras.

(** * Further properties of the initialisation *)

Section InitExtras.

Lemma add_owners_lookup (ds : list OwnerDraw) (m m' : HousingModel) :
  add_owners m ds = Some m' ->
  vacancy_pool m' = vacancy_pool m /\
  length (agents m') = length (agents m) + length ds /\
  (forall i, agents m' !! i =
     if decide (i < length (agents m)) then agents m !! i
     else initial_owner i <$> ds !! (i - length (agents m))) /\
  (forall j, house_map m' !! j =
     if decide (length (agents m) <= j < length (agents m) + length ds)
     then set_owner j <$> house_map m !! j else house_map m !! j).
Proof.
  revert m. induction ds as [|d ds IH]; intros m H; cbn in H.
  - inversion H; subst m'. split; [reflexivity|]. split; [cbn; lia|]. split.
    + intros i. destruct (decide (i < length (agents m))) as [|Hge]; [reflexivity|].
      cbn. apply lookup_ge_None. lia.
    + intros j. rewrite decide_False by (cbn; lia). reflexivity.
  - destruct (add_owner m d) as [m1|] eqn:E; [|discriminate]. cbn in H.
    unfold add_owner in E.
    destruct (house_map m !! length (agents m)) as [h0|] eqn:Hh0; [|discriminate].
    cbn in E. inversion E; subst m1; clear E.
    destruct (IH _ H) as (Ep & En & Ha & Hh). cbn in Ep, En, Ha, Hh.
    rewrite length_app in En, Ha, Hh. cbn in En, Ha, Hh.
    set (k := length (agents m)) in *.
    split; [exact Ep|]. split; [cbn; lia|]. split.
    + intros i. rewrite Ha. destruct (decide (i < k + 1)) as [Hlt|Hge].
      * destruct (decide (i < k)) as [Hlt'|Hge'].
        -- now apply lookup_app_l.
        -- assert (i = k) as -> by lia. rewrite lookup_app_r by (fold k; lia).
           fold k. rewrite Nat.sub_diag. reflexivity.
      * rewrite decide_False by lia.
        replace (i - k) with (S (i - (k + 1))) by lia. reflexivity.
    + intros j. rewrite Hh. cbn [length].
      destruct (decide (k + 1 <= j < k + 1 + length ds)) as [Hin|Hout].
      * rewrite decide_True by lia. rewrite list_lookup_insert_ne by (fold k; lia).
        reflexivity.
      * destruct (decide (j = k)) as [->|Hne].
        -- rewrite decide_True by lia.
           rewrite list_lookup_insert_eq by (now apply lookup_lt_Some in Hh0).
           now rewrite Hh0.
        -- rewrite decide_False by lia. now rewrite list_lookup_insert_ne by (fold k; lia).
Qed.

Lemma add_owners_total (ds : list OwnerDraw) (m : HousingModel) :
  length (agents m) + length ds <= length (house_map m) -> is_Some (add_owners m ds).
Proof.
  revert m. induction ds as [|d ds IH]; intros m Hle; cbn; [eauto|].
  cbn in Hle. unfold add_owner.
  destruct (lookup_lt_is_Some_2 (house_map m) (length (agents m))) as [h Hh]; [lia|].
  rewrite Hh. cbn. apply IH. cbn. rewrite length_app, length_insert. cbn. lia.
Qed.

Lemma add_owners_needs_houses (ds : list OwnerDraw) (m m' : HousingModel) :
  add_owners m ds = Some m' -> ds = [] \/ length (agents m) + length ds <= length (house_map m).
Proof.
  revert m. induction ds as [|d ds IH]; intros m H; [now left|]. right. cbn in H.
  destruct (add_owner m d) as [m1|] eqn:E; [|discriminate]. cbn in H.
  unfold add_owner in E.
  destruct (house_map m !! length (agents m)) as [h0|] eqn:Hh0; [|discriminate].
  apply lookup_lt_Some in Hh0. cbn in E. inversion E; subst m1; clear E.
  destruct (IH _ H) as [->|Hle]; cbn in *.
  - lia.
  - rewrite length_app, length_insert in Hle. cbn in Hle. lia.
Qed.

Lemma mark_vacant_loop_lookup (c k : nat) (m : HousingModel) :
  let m' := fold_left mark_vacant (seq k c) m in
  agents m' = agents m /\
  vacancy_pool m' = vacancy_pool m ++ seq k c /\
  forall j, house_map m' !! j =
    if decide (k <= j < k + c) then set_vacant <$> house_map m !! j
    else house_map m !! j.
Proof.
  revert k m. induction c as [|c IH]; intros k m; cbn.
  - split; [reflexivity|]. split; [now rewrite app_nil_r|].
    intros j. rewrite decide_False by lia. reflexivity.
  - destruct (IH (S k) (mark_vacant m k)) as (Ea & Ep & Hh). cbn in Ea, Ep, Hh.
    split; [exact Ea|]. split; [rewrite Ep, <- app_assoc; reflexivity|].
    intros j. rewrite Hh. destruct (decide (j = k)) as [->|Hne].
    + rewrite list_lookup_alter_eq.
      repeat case_decide; try lia; reflexivity.
    + rewrite list_lookup_alter_ne by congruence.
      repeat case_decide; try lia; reflexivity.
Qed.

Lemma init_owners_le (houses : list HouseDraw) (owners : list OwnerDraw)
    (m : HousingModel) :
  HousingModel_init houses owners = Some m -> length owners <= length houses.
Proof.
  unfold HousingModel_init. intros H.
  destruct (add_owners _ owners) as [m1|] eqn:E; [|discriminate].
  apply add_owners_needs_houses in E as [->|Hle]; cbn in *; [lia|].
  now rewrite length_fmap in Hle.
Qed.

(** X8.  [__init__] succeeds exactly when there are no more owners than
    houses; with more owners the lookup [all_houses[i]] raises. *)
Theorem init_succeeds_iff (houses : list HouseDraw) (owners : list OwnerDraw) :
  is_Some (HousingModel_init houses owners) <-> length owners <= length houses.
Proof.
  unfold HousingModel_init. split.
  - intros [m H]. exact (init_owners_le houses owners m H).
  - intros Hle.
    destruct (add_owners_total owners
      {| agents := []; house_map := new_house <$> houses; vacancy_pool := [] |})
      as [m1 E]; [cbn; now rewrite length_fmap|].
    rewrite E. cbn. eauto.
Qed.

Lemma init_state_lengths (houses : list HouseDraw) (owners : list OwnerDraw)
    (m : HousingModel) :
  HousingModel_init houses owners = Some m ->
  length (agents m) = length owners /\
  length (house_map m) = length houses /\
  vacancy_pool m = seq (length owners) (length houses - length owners).
Proof.
  intros H. unfold HousingModel_init in H.
  set (m0 := {| agents := []; house_map := new_house <$> houses; vacancy_pool := [] |}) in *.
  destruct (add_owners m0 owners) as [m1|] eqn:E; [|discriminate].
  cbn in H. inversion H; subst m; clear H.
  destruct (add_owners_lookup owners m0 m1 E) as (Ep & En & _ & _).
  destruct (add_owners_inv owners m0 m1) as (_ & _ & Eh & _); [|exact E|].
  { constructor; cbn.
    - intros i a Ha. inversion Ha.
    - intros j h Hh. apply list_lookup_fmap_Some in Hh as (d & -> & Hd).
      destruct d as [[[l s] q] p]. cbn. split; [reflexivity|].
      rewrite decide_False by lia. reflexivity.
    - reflexivity.
    - lia. }
  cbn in Ep, En, Eh. rewrite length_fmap in Eh.
  destruct (mark_vacant_loop_lookup (length houses - length owners) (length owners) m1)
    as (Ea' & Ep' & _).
  destruct (mark_vacant_loop_static (seq (length owners) (length houses - length owners)) m1)
    as [El _].
  split; [now rewrite Ea'|]. split; [now rewrite El|]. now rewrite Ep', Ep.
Qed.

(** X9.  The state that [__init__] builds: owner [i] has the drawn income
    and savings, lives in house [i] and intends to stay; house [j] carries
    its drawn attributes, is owned by owner [j] when [j] is below the number
    of owners and is vacant otherwise; the vacancy pool lists the remaining
    houses in increasing order. *)
Theorem init_closed_form (houses : list HouseDraw) (owners : list OwnerDraw)
    (m : HousingModel) :
  HousingModel_init houses owners = Some m ->
  agents m = imap initial_owner owners /\
  house_map m = imap (initial_house (length owners)) houses /\
  vacancy_pool m = seq (length owners) (length houses - length owners).
Proof.
  intros H.
  pose proof (init_owners_le houses owners m H) as Hle.
  unfold HousingModel_init in H.
  destruct (add_owners _ owners) as [m1|] eqn:E; [|discriminate].
  cbn in H. inversion H; subst m; clear H.
  destruct (add_owners_lookup owners _ m1 E) as (Ep & En & Ha & Hh).
  cbn in Ep, En, Ha, Hh.
  destruct (mark_vacant_loop_lookup (length houses - length owners) (length owners) m1)
    as (Ea' & Ep' & Hh').
  split; [|split].
  - rewrite Ea'. apply list_eq. intros i. rewrite Ha, list_lookup_imap.
    rewrite decide_False by lia. now rewrite Nat.sub_0_r.
  - apply list_eq. intros j. rewrite Hh', Hh, list_lookup_imap, list_lookup_fmap.
    destruct (houses !! j) as [d|] eqn:Hd; cbn.
    + apply lookup_lt_Some in Hd. unfold initial_house.
      destruct (decide (j < length owners)) as [Hlt|Hge].
      * rewrite decide_False by lia. rewrite decide_True by lia. cbn.
        rewrite bool_decide_eq_false_2 by lia. now destruct d as [[[l s] q] p].
      * rewrite decide_True by lia. rewrite decide_False by lia. cbn.
        rewrite bool_decide_eq_true_2 by lia. now destruct d as [[[l s] q] p].
    + destruct (decide _), (decide _); reflexivity.
  - rewrite Ep', Ep. reflexivity.
Qed.

End InitExtras.

(** * Further properties of the decision phase *)

Section DecisionPhaseExtras.

Lemma HomeOwner_step_inv (m m' : HousingModel) (i : nat) :
  HomeOwner_step m i = Some m' ->
  exists self own d,
    agents m !! i = Some self /\ house_map m !! house self = Some own /\
    decision self own (pool_houses m) = Some d /\
    m' = {| agents := <[i := with_intention self d]> (agents m);
            house_map := house_map m; vacancy_pool := vacancy_pool m |}.
Proof.
  unfold HomeOwner_step. intros H.
  destruct (agents m !! i) as [self|]; [|discriminate]. cbn in H.
  destruct (house_map m !! house self) as [own|] eqn:Ho; [|discriminate]. cbn in H.
  destruct (decision self own (pool_houses m)) as [d|] eqn:Hd; [|discriminate].
  cbn in H. inversion H. exists self, own, d. auto.
Qed.

Lemma schedule_loop_frame (idxs : list nat) (m m' : HousingModel) :
  schedule_loop m idxs = Some m' ->
  house_map m' = house_map m /\ vacancy_pool m' = vacancy_pool m /\
  Forall2 same_core (agents m) (agents m').
Proof.
  revert m. induction idxs as [|i idxs IH]; intros m H; cbn in H.
  - inversion H; subst m'. split; [reflexivity|]. split; [reflexivity|].
    apply Forall_Forall2_diag, Forall_forall. intros; apply same_core_refl.
  - destruct (HomeOwner_step m i) as [m1|] eqn:E; [|discriminate]. cbn in H.
    apply HomeOwner_step_inv in E as (self & own & d & Hs & _ & _ & ->).
    destruct (IH _ H) as (Eh & Ep & Hc). cbn in Eh, Ep, Hc.
    split; [exact Eh|]. split; [exact Ep|].
    eapply Forall2_trans; [|
      |exact Hc]; [intros x y z; apply same_core_trans|].
    rewrite <- (list_insert_id (agents m) i self Hs) at 1.
    apply Forall2_insert; [|apply same_core_with_intention].
    apply Forall_Forall2_diag, Forall_forall. intros; apply same_core_refl.
Qed.

(** X10.  The decision phase reads the world and writes intentions only:
    it leaves every house, the vacancy pool, and the income, savings and
    house of every participant as they were. *)
Theorem decisions_write_intentions_only (m m1 : HousingModel) :
  schedule_step m = Some m1 ->
  house_map m1 = house_map m /\ vacancy_pool m1 = vacancy_pool m /\
  length (agents m1) = length (agents m) /\
  forall i a1, agents m1 !! i = Some a1 ->
    exists a, agents m !! i = Some a /\
      income a1 = income a /\ savings a1 = savings a /\ house a1 = house a.
Proof.
  intros H. apply schedule_loop_frame in H as (Eh & Ep & Hc).
  split; [exact Eh|]. split; [exact Ep|].
  split; [symmetry; exact (Forall2_length _ _ _ Hc)|].
  intros i a1 Ha1. destruct (Forall2_lookup_r _ _ _ _ _ Hc Ha1) as (a & Ha & Hcore).
  exists a. split; [exact Ha|exact Hcore].
Qed.

Lemma decided_unique (m : HousingModel) (a a1 a2 : HomeOwner) :
  same_core a a1 -> same_core a a2 -> decided m a1 -> decided m a2 -> a1 = a2.
Proof.
  intros (Ei1 & Es1 & Eh1) (Ei2 & Es2 & Eh2) (o1 & Ho1 & Hd1) (o2 & Ho2 & Hd2).
  rewrite (decision_ext a a1 o1 _ (conj Ei1 (conj Es1 Eh1))) in Hd1.
  rewrite (decision_ext a a2 o2 _ (conj Ei2 (conj Es2 Eh2))) in Hd2.
  rewrite Eh1 in Ho1. rewrite Eh2, Ho1 in Ho2. inversion Ho2; subst o2.
  rewrite Hd1 in Hd2. inversion Hd2.
  destruct a1, a2; cbn in *. congruence.
Qed.

(** X11.  The decision phase does not depend on the order in which the
    participants take their step: stepping them in any order that reaches
    every participant, also more than once, gives the state that the
    schedule's own order gives. *)
Theorem decisions_order_independent (m : HousingModel) (idxs : list nat) :
  wf m ->
  (forall i, i ∈ idxs <-> i < length (agents m)) ->
  schedule_loop m idxs = schedule_step m.
Proof.
  intros Hwf Hcov. pose proof (wf_houses_resolve m Hwf) as Hres.
  destruct (schedule_loop_spec idxs m Hres) as (m1 & H1 & Eh1 & Ep1 & Hc1 & Hd1).
  { intros i Hi. now apply Hcov. }
  destruct (schedule_loop_spec (seq 0 (length (agents m))) m Hres)
    as (m2 & H2 & Eh2 & Ep2 & Hc2 & Hd2).
  { intros i Hi. apply elem_of_seq in Hi. lia. }
  unfold schedule_step. rewrite H1, H2. f_equal.
  destruct m1 as [ag1 hm1 vp1], m2 as [ag2 hm2 vp2]. cbn in *. subst.
  f_equal. apply list_eq_same_length with (length (agents m)).
  - symmetry. exact (Forall2_length _ _ _ Hc2).
  - symmetry. exact (Forall2_length _ _ _ Hc1).
  - intros i a1 a2 Hlt Ha1 Ha2.
    destruct (Forall2_lookup_r _ _ _ _ _ Hc1 Ha1) as (a & Ha & Hcore1).
    destruct (Forall2_lookup_r _ _ _ _ _ Hc2 Ha2) as (a' & Ha' & Hcore2).
    rewrite Ha in Ha'. inversion Ha'; subst a'.
    apply (decided_unique m a a1 a2 Hcore1 Hcore2).
    + apply (decided_transfer {| agents := ag1; house_map := house_map m;
                                 vacancy_pool := vacancy_pool m |} m);
        [reflexivity|reflexivity|].
      apply (Hd1 i a1 Ha1). left. now apply Hcov.
    + apply (decided_transfer {| agents := ag2; house_map := house_map m;
                                 vacancy_pool := vacancy_pool m |} m);
        [reflexivity|reflexivity|].
      apply (Hd2 i a2 Ha2). left. apply elem_of_seq. lia.
Qed.

(** X12.  The decision phase is idempotent: when nothing else happens in
    between, running it again changes nothing. *)
Theorem decisions_idempotent (m m1 : HousingModel) :
  wf m -> schedule_step m = Some m1 -> schedule_step m1 = Some m1.
Proof.
  intros Hwf H.
  destruct (schedule_step_spec m Hwf) as (m1' & H' & Eh & Ep & Hc & Hwf1 & Hdec).
  rewrite H in H'. inversion H'; subst m1'. clear H'.
  destruct (schedule_step_spec m1 Hwf1) as (m2 & H2 & Eh2 & Ep2 & Hc2 & _ & Hdec2).
  rewrite H2. f_equal.
  destruct m1 as [ag1 hm1 vp1], m2 as [ag2 hm2 vp2]. cbn in *. subst.
  f_equal. apply list_eq_same_length with (length ag1).
  - reflexivity.
  - symmetry. exact (Forall2_length _ _ _ Hc2).
  - intros i a2 a1 Hlt Ha2 Ha1.
    destruct (Forall2_lookup_l _ _ _ _ _ Hc2 Ha1) as (a2' & Ha2' & Hcore).
    rewrite Ha2 in Ha2'. inversion Ha2'; subst a2'.
    apply (decided_unique {| agents := ag1; house_map := house_map m;
                             vacancy_pool := vacancy_pool m |}
             a1 a2 a1 Hcore (same_core_refl a1)).
    + apply (decided_transfer {| agents := ag2; house_map := house_map m;
                                 vacancy_pool := vacancy_pool m |});
        [reflexivity|reflexivity|]. exact (Hdec2 i a2 Ha2).
    + exact (Hdec i a1 Ha1).
Qed.

End DecisionPhaseExtras.

(** * Further properties of a tick *)

Section TickExtras.

Lemma bidders_elem (bids : list (option nat * list nat)) (i : nat) :
  i ∈ bidders bids <-> exists k bs, (k, bs) ∈ bids /\ i ∈ bs.
Proof.
  unfold bidders. induction bids as [|[k bs] bids IH]; cbn.
  - split; [intros H; inversion H|intros (k & bs & H & _); inversion H].
  - rewrite elem_of_app, IH. split.
    + intros [Hi|(k' & bs' & Hin & Hi)].
      * exists k, bs. split; [now left|exact Hi].
      * exists k', bs'. split; [now right|exact Hi].
    + intros (k' & bs' & Hin & Hi). apply elem_of_cons in Hin as [[= -> ->]|Hin].
      * now left.
      * right. eauto.
Qed.

Lemma select_winner_elem (m : HousingModel) (bs : list nat) (w : nat) :
  select_winner m bs = Some w -> w ∈ bs.
Proof.
  unfold select_winner. intros H. apply head_Some_elem_of in H.
  now rewrite sorted_desc_perm in H.
Qed.

Lemma resolve_loop_savings (bids : list (option nat * list nat)) (m m' : HousingModel) :
  NoDup (bidders bids) -> resolve_loop m bids = Some m' ->
  length (agents m') = length (agents m) /\
  forall i a, agents m !! i = Some a ->
    exists a', agents m' !! i = Some a' /\ intention a' = intention a /\
      income a' = income a /\
      (savings a' = savings a \/
       (i ∈ bidders bids /\ savings a' = (savings a - MOVING_COST_FIXED)%Z)).
Proof.
  revert m. induction bids as [|[k bs] bids IH]; intros m Hnd H.
  - inversion H; subst m'. split; [reflexivity|]. intros i a Ha. exists a. auto.
  - cbn in H. destruct (select_winner m bs) as [w|] eqn:Hw; [|discriminate]. cbn in H.
    destruct (execute_move m w k) as [m1|] eqn:Hm; [|discriminate]. cbn in H.
    unfold bidders in Hnd. cbn in Hnd. fold (bidders bids) in Hnd.
    apply NoDup_app in Hnd as (_ & Hdisj & Hnd).
    destruct (IH m1 Hnd H) as (Hlen & Hag).
    pose proof (select_winner_elem m bs w Hw) as Hin.
    pose proof Hm as Hinv.
    apply execute_move_inv in Hinv as (b & t & hnew & Hb & -> & _ & Em1).
    split.
    { rewrite Hlen, Em1. cbn. apply length_insert. }
    intros i a Ha. destruct (decide (i = w)) as [->|Hne].
    + rewrite Hb in Ha. inversion Ha; subst a.
      destruct (execute_move_savings m m1 w (Some t) b Hb Hm) as (b' & Hb' & Hs & Hi & _).
      destruct (Hag w b' Hb') as (a' & Ha' & Hint & Hinc & Hsav).
      exists a'. split; [exact Ha'|].
      assert (intention b' = intention b).
      { rewrite Em1 in Hb'. cbn in Hb'.
        rewrite list_lookup_insert_eq in Hb' by (now apply lookup_lt_Some in Hb).
        now inversion Hb'. }
      split; [congruence|]. split; [congruence|]. right. split.
      * unfold bidders. cbn. apply elem_of_app. now left.
      * destruct Hsav as [Hsav|[Hbad _]]; [congruence|].
        exfalso. exact (Hdisj w Hin Hbad).
    + rewrite <- (execute_move_others m m1 w i (Some t) Hm Hne) in Ha.
      destruct (Hag i a Ha) as (a' & Ha' & Hint & Hinc & Hsav).
      exists a'. split; [exact Ha'|]. split; [exact Hint|]. split; [exact Hinc|].
      destruct Hsav as [Hsav|[Hi Hsav]]; [now left|right]. split; [|exact Hsav].
      unfold bidders. cbn. apply elem_of_app. now right.
Qed.

Lemma upgrade_loop_agents (idxs : list nat) (m : HousingModel) :
  NoDup idxs ->
  length (agents (fold_left upgrade_agent idxs m)) = length (agents m) /\
  forall i a, agents m !! i = Some a ->
    agents (fold_left upgrade_agent idxs m) !! i =
      Some (if decide (i ∈ idxs /\ intention a = UPGRADE) then pay_upgrade a else a).
Proof.
  revert m. induction idxs as [|j idxs IH]; intros m Hnd; cbn.
  - split; [reflexivity|]. intros i a Ha.
    rewrite decide_False; [exact Ha|]. intros [H _]. inversion H.
  - apply NoDup_cons in Hnd as [Hj Hnd].
    destruct (IH (upgrade_agent m j) Hnd) as (Hlen & Hag).
    destruct (upgrade_agent_cases m j) as [E|(aj & Haj & Hij & E)].
    + rewrite E in *. split; [exact Hlen|]. intros i a Ha. rewrite (Hag i a Ha).
      f_equal. destruct (decide (i ∈ idxs /\ intention a = UPGRADE)) as [[Hi Hu]|Hn].
      * rewrite decide_True; [reflexivity|]. split; [now right|exact Hu].
      * rewrite decide_False; [reflexivity|]. intros [Hi Hu].
        apply elem_of_cons in Hi as [->|Hi]; [|tauto].
        unfold upgrade_agent in E. rewrite Ha, decide_True in E by exact Hu.
        apply (f_equal agents) in E. cbn in E.
        apply (f_equal (fun l => l !! j)) in E.
        rewrite list_lookup_insert_eq in E by (now apply lookup_lt_Some in Ha).
        rewrite Ha in E. inversion E as [E']. rewrite <- E' in Hu. discriminate.
    + rewrite E in *. split; [rewrite Hlen; cbn; apply length_insert|].
      intros i a Ha. destruct (decide (i = j)) as [->|Hne].
      * rewrite Haj in Ha. inversion Ha; subst aj.
        rewrite (Hag j (pay_upgrade a))
          by (cbn; apply list_lookup_insert_eq; now apply lookup_lt_Some in Haj).
        rewrite decide_False by (cbn; intros [_ H]; discriminate).
        rewrite decide_True; [reflexivity|]. split; [now left|exact Hij].
      * rewrite (Hag i a) by (cbn; rewrite list_lookup_insert_ne by congruence; exact Ha).
        f_equal. destruct (decide (i ∈ idxs /\ intention a = UPGRADE)) as [[Hi Hu]|Hn].
        -- rewrite decide_True; [reflexivity|]. split; [now right|exact Hu].
        -- rewrite decide_False; [reflexivity|]. intros [Hi Hu].
           apply elem_of_cons in Hi as [->|Hi]; [contradiction|tauto].
Qed.

Lemma handle_upgrades_lookup (m : HousingModel) (i : nat) (a : HomeOwner) :
  agents m !! i = Some a ->
  agents (handle_upgrades m) !! i =
    Some (if decide (intention a = UPGRADE) then pay_upgrade a else a).
Proof.
  intros Ha.
  destruct (upgrade_loop_agents (seq 0 (length (agents m))) m (NoDup_seq _ _))
    as (_ & Hag).
  unfold handle_upgrades. rewrite (Hag i a Ha). f_equal.
  assert (Hi : i ∈ seq 0 (length (agents m))).
  { apply elem_of_seq. apply lookup_lt_Some in Ha. lia. }
  destruct (decide (intention a = UPGRADE)) as [Hu|Hn].
  - now rewrite decide_True.
  - rewrite decide_False; [reflexivity|]. tauto.
Qed.


(** X14.  In one tick a participant pays at most one fee: their income is
    unchanged and their savings are unchanged, or lower by the moving cost,
    or lower by the upgrade cost.  Savings never grow. *)
Theorem savings_change_per_tick (m m' : HousingModel) :
  HousingModel_step m = Some m' ->
  length (agents m') = length (agents m) /\
  forall i a, agents m !! i = Some a ->
    exists a', agents m' !! i = Some a' /\ income a' = income a /\
      (savings a' = savings a \/
       savings a' = (savings a - MOVING_COST_FIXED)%Z \/
       savings a' = (savings a - COST_PER_LABEL_UPGRADE)%Z).
Proof.
  unfold HousingModel_step. intros H.
  destruct (schedule_step m) as [m1|] eqn:E1; [|discriminate]. cbn in H.
  destruct (resolve_market_conflicts m1) as [m2|] eqn:E2; [|discriminate].
  cbn in H. inversion H; subst m'. clear H.
  apply schedule_loop_frame in E1 as (_ & _ & Hc).
  destruct (collect_bids_ok m1) as (_ & Hg & Hnd).
  destruct (resolve_loop_savings _ m1 m2 Hnd E2) as (Hlen2 & Hres).
  pose proof (handle_upgrades_lookup m2) as Hup.
  assert (Hlen3 : length (agents (handle_upgrades m2)) = length (agents m2)).
  { exact (proj1 (upgrade_loop_agents (seq 0 (length (agents m2))) m2 (NoDup_seq _ _))). }
  split; [rewrite Hlen3, Hlen2; symmetry; exact (Forall2_length _ _ _ Hc)|].
  intros i a Ha.
  destruct (Forall2_lookup_l _ _ _ _ _ Hc Ha) as (a1 & Ha1 & (Ei1 & Es1 & _)).
  destruct (Hres i a1 Ha1) as (a2 & Ha2 & Hint2 & Ei2 & Hs2).
  rewrite (Hup i a2 Ha2). eexists. split; [reflexivity|].
  destruct (decide (intention a2 = UPGRADE)) as [Hu|Hn]; cbn.
  - split; [congruence|]. destruct Hs2 as [Hs2|[Hin _]].
    + right. right. congruence.
    + exfalso. apply bidders_elem in Hin as (k & bs & Hg' & Hi).
      destruct (proj1 (Forall_forall _ _) Hg _ Hg') as [_ Hb]. cbn in Hb.
      destruct (Hb i Hi) as (a1' & Ha1' & Hbuy & _).
      rewrite Ha1 in Ha1'. inversion Ha1'; subst a1'. congruence.
  - split; [congruence|]. destruct Hs2 as [Hs2|[_ Hs2]].
    + left. congruence.
    + right. left. congruence.
Qed.

End TickExtras.

(** * Further properties of the clearing phase as a whole *)

Section ClearingOutcome.

Lemma resolve_loop_outcome (bids : list (option nat * list nat))
    (m0 m m' : HousingModel) :
  NoDup (bidders bids) ->
  (forall i, i ∈ bidders bids -> agents m !! i = agents m0 !! i) ->
  resolve_loop m bids = Some m' ->
  (forall i, i ∉ bidders bids -> agents m' !! i = agents m !! i) /\
  forall k bs, (k, bs) ∈ bids ->
    exists t w b,
      k = Some t /\ select_winner m0 bs = Some w /\ agents m0 !! w = Some b /\
      agents m' !! w = Some (pay_move b t) /\
      forall i, i ∈ bs -> i <> w -> agents m' !! i = agents m0 !! i.
Proof.
  revert m. induction bids as [|[k bs] bids IH]; intros m Hnd Hag H.
  - inversion H; subst m'. split; [reflexivity|]. intros k bs Hin. inversion Hin.
  - cbn in H. destruct (select_winner m bs) as [w|] eqn:Hw; [|discriminate]. cbn in H.
    destruct (execute_move m w k) as [m1|] eqn:Hm; [|discriminate]. cbn in H.
    unfold bidders in Hnd, Hag. cbn in Hnd, Hag. fold (bidders bids) in Hnd, Hag.
    apply NoDup_app in Hnd as (_ & Hdisj & Hnd).
    pose proof (select_winner_elem m bs w Hw) as Hin.
    assert (Ew : select_winner m0 bs = Some w).
    { rewrite <- Hw. unfold select_winner. f_equal. apply sorted_desc_ext.
      intros z Hz. symmetry. apply capacity_of_agent, Hag, elem_of_app. now left. }
    pose proof Hm as Hinv.
    apply execute_move_inv in Hinv as (b & t & hnew & Hb & -> & _ & Em1).
    assert (Hw1 : agents m1 !! w = Some (pay_move b t)).
    { rewrite Em1. cbn. apply list_lookup_insert_eq. now apply lookup_lt_Some in Hb. }
    destruct (IH m1 Hnd) as (Hout & Hgrp); [|exact H|].
    { intros i Hi. rewrite (execute_move_others m m1 w i (Some t) Hm).
      - apply Hag, elem_of_app. now right.
      - intros ->. exact (Hdisj w Hin Hi). }
    split.
    + intros i Hi. rewrite Hout by (intros Hc; apply Hi, elem_of_app; now right).
      apply (execute_move_others m m1 w i (Some t) Hm).
      intros ->. apply Hi, elem_of_app. now left.
    + intros k' bs' Hg. apply elem_of_cons in Hg as [[= -> ->]|Hg].
      * exists t, w, b. split; [reflexivity|]. split; [exact Ew|].
        split; [rewrite <- Hb; symmetry; apply Hag, elem_of_app; now left|].
        split; [rewrite (Hout w (Hdisj w Hin)); exact Hw1|].
        intros i Hi Hne. rewrite (Hout i (Hdisj i Hi)).
        rewrite (execute_move_others m m1 w i (Some t) Hm Hne).
        apply Hag, elem_of_app. now left.
      * exact (Hgrp k' bs' Hg).
Qed.


Lemma remove_first_length (x : nat) (l : list nat) :
  x ∈ l -> S (length (remove_first x l)) = length l.
Proof.
  induction l as [|y l IH]; intros Hin; [inversion Hin|]. cbn.
  destruct (decide (x = y)); [reflexivity|].
  apply elem_of_cons in Hin as [->|Hin]; [congruence|]. cbn. now rewrite IH.
Qed.

Lemma resolve_loop_pool_length (bids : list (option nat * list nat))
    (m m' : HousingModel) :
  wf m -> NoDup (bids.*1) -> Forall (bid_valid m) bids ->
  resolve_loop m bids = Some m' ->
  wf m' /\ move_rel m m' /\
  length (vacancy_pool m') = length (vacancy_pool m).
Proof.
  revert m. induction bids as [|[k bs] bids IH]; intros m Hwf Hnd Hall H.
  - inversion H; subst m'. split; [exact Hwf|]. split; [apply move_rel_refl|reflexivity].
  - pose proof Hall as Hall0. apply Forall_cons in Hall as [Hg Hall]. cbn in Hnd.
    pose proof Hnd as Hnd0. apply NoDup_cons in Hnd as [Hk Hnd].
    destruct Hg as ((t & Ek & Ht) & Hne & Hbs). cbn in Ek, Hne, Hbs. subst k.
    destruct (select_winner_spec m bs Hne) as (w & Hw & Hin & _).
    destruct (Hbs w Hin) as (b & Hb & Hint).
    destruct (target_house m t Hwf Ht) as (ht & Hl & _).
    pose proof (execute_move_moved m w t b Hwf Hb Ht ht Hl) as Hmove.
    pose proof (moved_wf m w t b Hwf Hb Ht ht Hl) as Hwf1.
    pose proof (execute_move_rel m _ w (Some t) b Hb Hint Hmove) as Hrel.
    cbn in H. rewrite Hw in H. cbn in H. rewrite Hmove in H. cbn in H.
    destruct (IH (moved m w t b ht) Hwf1 Hnd) as (Hwf' & Hrel' & Hlen); [|exact H|].
    + apply Forall_forall. intros [k' bs'] Hg'.
      pose proof (proj1 (Forall_forall _ _) Hall _ Hg') as ((t' & Ek' & Ht') & Hne' & Hbs').
      cbn in Ek', Hne', Hbs'. subst k'. split; [|split; [exact Hne'|]]; cbn [fst snd].
      * exists t'. split; [reflexivity|].
        apply (proj2 (moved_pool m w t b Hwf ht t')). left. split; [exact Ht'|].
        intros ->. apply Hk. apply list_elem_of_fmap. exists (Some t, bs'). auto.
      * intros i Hi. destruct (Hbs' i Hi) as (a & Ha & Hia).
        destruct (mr_agent _ _ Hrel i a Ha) as (a' & Ha' & Hia' & _).
        exists a'. split; [exact Ha'|congruence].
    + split; [exact Hwf'|]. split; [eapply move_rel_trans; eassumption|].
      rewrite Hlen. cbn. rewrite length_app. cbn.
      pose proof (remove_first_length t _ Ht). lia.
Qed.

End ClearingOutcome.

(** * Further properties of the reachable states *)

Section ReachableExtras.

(** A tick from a state with the invariant, phase by phase. *)
Lemma step_phases (m m' : HousingModel) :
  wf m -> HousingModel_step m = Some m' ->
  exists m1 m2,
    schedule_step m = Some m1 /\ resolve_market_conflicts m1 = Some m2 /\
    m' = handle_upgrades m2 /\
    house_map m1 = house_map m /\ vacancy_pool m1 = vacancy_pool m /\
    length (agents m1) = length (agents m) /\
    wf m1 /\ wf m2 /\ move_rel m1 m2 /\
    length (vacancy_pool m2) = length (vacancy_pool m1).
Proof.
  intros Hwf H. unfold HousingModel_step in H.
  destruct (schedule_step_spec m Hwf) as (m1 & Hs & Eh & Ep & Hc & Hwf1 & Hdec).
  rewrite Hs in H. cbn in H.
  destruct (resolve_market_conflicts m1) as [m2|] eqn:Hr; [|discriminate].
  cbn in H. inversion H; subst m'. clear H.
  destruct (collect_bids_ok m1) as (Hnd & _ & _).
  destruct (resolve_loop_pool_length (collect_bids m1) m1 m2 Hwf1 Hnd
              (collect_bids_valid m1 Hdec) Hr) as (Hwf2 & Hrel & Hlen).
  exists m1, m2. split; [exact Hs|]. split; [exact Hr|]. split; [reflexivity|].
  split; [exact Eh|]. split; [exact Ep|].
  split; [symmetry; exact (Forall2_length _ _ _ Hc)|]. auto.
Qed.

Lemma same_link_trans (x y z : House) : same_link x y -> same_link y z -> same_link x z.
Proof. intros [H1 H2] [H3 H4]. split; congruence. Qed.

Lemma same_home_trans (x y z : HomeOwner) :
  same_home x y -> same_home y z -> same_home x z.
Proof. unfold same_home. congruence. Qed.

Lemma upgrade_loop_frame (idxs : list nat) (m : HousingModel) :
  vacancy_pool (fold_left upgrade_agent idxs m) = vacancy_pool m /\
  length (house_map (fold_left upgrade_agent idxs m)) = length (house_map m) /\
  Forall2 same_link (house_map m) (house_map (fold_left upgrade_agent idxs m)) /\
  Forall2 same_home (agents m) (agents (fold_left upgrade_agent idxs m)).
Proof.
  revert m. induction idxs as [|i idxs IH]; intros m; cbn.
  - split; [reflexivity|]. split; [reflexivity|].
    split; [apply Forall2_refl_same_link|apply Forall2_refl_same_home].
  - destruct (IH (upgrade_agent m i)) as (Ep & El & Hh & Ha).
    destruct (upgrade_agent_cases m i) as [E|(a & Hai & _ & E)]; rewrite E in *.
    + auto.
    + cbn in Ep, El, Hh, Ha. rewrite length_alter in El.
      split; [exact Ep|]. split; [exact El|]. split.
      * eapply Forall2_trans; [| |exact Hh]; [intros x y z; apply same_link_trans|].
        apply Forall2_alter_r; [apply Forall2_refl_same_link|].
        intros x y _ _ [Eo Ev]. split; cbn; assumption.
      * eapply Forall2_trans; [| |exact Ha]; [intros x y z; apply same_home_trans|].
        rewrite <- (list_insert_id (agents m) i a Hai) at 1.
        apply Forall2_insert; [apply Forall2_refl_same_home|reflexivity].
Qed.

(** X16.  In every reachable state ownership is one to one: the house of
    every participant names that participant as its owner, every owned house
    is the house of its owner, and no two participants live in the same
    house. *)
Theorem ownership_one_to_one (m : HousingModel) :
  reachable m ->
  (forall i a, agents m !! i = Some a ->
     exists h, house_map m !! house a = Some h /\ owner h = Some i) /\
  (forall j h i, house_map m !! j = Some h -> owner h = Some i ->
     exists a, agents m !! i = Some a /\ house a = j) /\
  (forall i i' a a', agents m !! i = Some a -> agents m !! i' = Some a' ->
     house a = house a' -> i = i').
Proof.
  intros Hr. destruct (reachable_inv m Hr) as [Hwf _].
  split; [exact (wf_agent_house m Hwf)|]. split; [exact (wf_house_owner m Hwf)|].
  intros i i' a a' Ha Ha' E.
  destruct (wf_agent_house m Hwf i a Ha) as (h & Hh & Ho).
  destruct (wf_agent_house m Hwf i' a' Ha') as (h' & Hh' & Ho').
  rewrite E, Hh' in Hh. inversion Hh; subst. congruence.
Qed.

Lemma step_counts (m m' : HousingModel) :
  wf m -> HousingModel_step m = Some m' ->
  length (agents m') = length (agents m) /\
  length (house_map m') = length (house_map m) /\
  length (vacancy_pool m') = length (vacancy_pool m).
Proof.
  intros Hwf H.
  destruct (step_phases m m' Hwf H)
    as (m1 & m2 & _ & _ & -> & Eh & Ep & Ea & _ & _ & Hrel & Hlen).
  destruct (upgrade_loop_frame (seq 0 (length (agents m2))) m2) as (Ep3 & El3 & _ & Ha3).
  fold (handle_upgrades m2) in Ep3, El3, Ha3.
  split; [|split].
  - rewrite <- (Forall2_length _ _ _ Ha3), (mr_agents_len _ _ Hrel). exact Ea.
  - rewrite El3, (mr_houses_len _ _ Hrel). now rewrite Eh.
  - rewrite Ep3, Hlen. now rewrite Ep.
Qed.

Lemma init_state_wf (houses : list HouseDraw) (owners : list OwnerDraw)
    (m : HousingModel) :
  HousingModel_init houses owners = Some m -> wf m.
Proof.
  intros H. unfold HousingModel_init in H.
  set (m0 := {| agents := []; house_map := new_house <$> houses; vacancy_pool := [] |}) in *.
  destruct (add_owners m0 owners) as [m1|] eqn:E; [|discriminate].
  cbn in H. inversion H; subst m; clear H.
  assert (Hinv0 : init_inv m0).
  { constructor; cbn.
    - intros i a Ha. inversion Ha.
    - intros j h Hh. apply list_lookup_fmap_Some in Hh as (d & -> & Hd).
      destruct d as [[[l s] q] p]. cbn. split; [reflexivity|].
      rewrite decide_False by lia. reflexivity.
    - reflexivity.
    - lia. }
  destruct (add_owners_inv owners m0 m1 Hinv0 E) as (Hinv1 & En & Eh & _).
  cbn in En, Eh. rewrite length_fmap in Eh.
  pose proof (ii_len m1 Hinv1) as Hle.
  pose proof (mark_vacant_loop_inv (length houses - length owners) (length owners) m1)
    as Hvac.
  rewrite <- En in Hvac at 1. specialize (Hvac (init_inv_vac_inv m1 Hinv1)).
  destruct (mark_vacant_loop_static (seq (length owners) (length houses - length owners)) m1)
    as [El _].
  apply vac_inv_wf. rewrite El, Eh.
  replace (length owners + (length houses - length owners)) with (length houses) in Hvac
    by lia.
  exact Hvac.
Qed.

(** X17.  The numbers of participants, of houses and of vacant houses never
    change: in every state reached from an initial state with [n_agents]
    owners and [n_houses] houses there are [n_agents] participants,
    [n_houses] houses and [n_houses - n_agents] houses in the vacancy pool,
    however many ticks have run. *)
Theorem population_is_conserved (houses : list HouseDraw) (owners : list OwnerDraw)
    (m0 m : HousingModel) (n : nat) :
  HousingModel_init houses owners = Some m0 -> run n m0 = Some m ->
  length (agents m) = length owners /\
  length (house_map m) = length houses /\
  length (vacancy_pool m) + length owners = length houses /\
  NoDup (vacancy_pool m).
Proof.
  intros Hinit.
  pose proof (init_owners_le houses owners m0 Hinit) as Hle.
  destruct (init_state_lengths houses owners m0 Hinit) as (Ea & Eh & Ep).
  pose proof (init_state_wf houses owners m0 Hinit) as Hwf0.
  assert (H0 : length (agents m0) = length owners /\
               length (house_map m0) = length houses /\
               length (vacancy_pool m0) + length owners = length houses).
  { rewrite Ea, Eh, Ep, length_seq. lia. }
  clear Ea Eh Ep Hinit. revert m0 Hwf0 H0.
  induction n as [|n IH]; intros m0 Hwf0 (H1 & H2 & H3) Hrun; cbn in Hrun.
  - inversion Hrun; subst m. split; [exact H1|]. split; [exact H2|].
    split; [exact H3|]. exact (wf_pool_nodup m0 Hwf0).
  - destruct (HousingModel_step m0) as [m1|] eqn:Hs; [|discriminate]. cbn in Hrun.
    destruct (step_counts m0 m1 Hwf0 Hs) as (Ea & Eh & Ep).
    destruct (step_phases m0 m1 Hwf0 Hs)
      as (ma & mb & _ & _ & Em1 & _ & _ & _ & _ & Hwfb & _ & _).
    apply (IH m1); [|lia|exact Hrun].
    rewrite Em1.
    destruct (upgrade_loop_frame (seq 0 (length (agents mb))) mb) as (Ep3 & _ & Hh3 & Ha3).
    exact (wf_transfer mb _ Hwfb Hh3 Ep3 Ha3).
Qed.

End ReachableExtras.

(** * What a tick does to the houses *)

Section HouseExtras.

Lemma execute_move_attributes (m m' : HousingModel) (buyer : nat) (k : option nat) :
  execute_move m buyer k = Some m' ->
  forall j h, house_map m !! j = Some h ->
    exists h', house_map m' !! j = Some h' /\ same_attributes h h'.
Proof.
  intros H j h Hh.
  apply execute_move_inv in H as (b & t & hnew & Hb & -> & Hn & ->). cbn.
  assert (Ha : exists h1, alter vacate (house b) (house_map m) !! j = Some h1 /\
                          same_attributes h h1).
  { destruct (decide (house b = j)) as [E|E].
    - rewrite E, list_lookup_alter_eq, Hh. cbn. eexists. split; [reflexivity|].
      repeat split.
    - rewrite list_lookup_alter_ne by exact E. exists h. split; [exact Hh|].
      repeat split. }
  destruct Ha as (h1 & Hh1 & Hs).
  destruct (decide (t = j)) as [->|E].
  - rewrite list_lookup_insert_eq
      by (rewrite length_alter; now apply lookup_lt_Some in Hh).
    rewrite Hn in Hh1. inversion Hh1; subst h1. eexists. split; [reflexivity|].
    destruct Hs as (? & ? & ? & ?). repeat split; cbn; assumption.
  - rewrite list_lookup_insert_ne by exact E. eauto.
Qed.

Lemma resolve_loop_attributes (bids : list (option nat * list nat))
    (m m' : HousingModel) :
  resolve_loop m bids = Some m' ->
  forall j h, house_map m !! j = Some h ->
    exists h', house_map m' !! j = Some h' /\ same_attributes h h'.
Proof.
  revert m. induction bids as [|[k bs] bids IH]; intros m H j h Hh.
  - inversion H; subst m'. exists h. split; [exact Hh|]. repeat split.
  - cbn in H. destruct (select_winner m bs) as [w|]; [|discriminate]. cbn in H.
    destruct (execute_move m w k) as [m1|] eqn:Hm; [|discriminate]. cbn in H.
    destruct (execute_move_attributes m m1 w k Hm j h Hh) as (h1 & Hh1 & Hs1).
    destruct (IH m1 H j h1 Hh1) as (h' & Hh' & Hs').
    exists h'. split; [exact Hh'|].
    destruct Hs1 as (? & ? & ? & ?), Hs' as (? & ? & ? & ?).
    repeat split; congruence.
Qed.

Lemma upgrade_loop_houses (idxs : list nat) (m : HousingModel) :
  wf m -> NoDup idxs ->
  forall j h, house_map m !! j = Some h ->
    exists h', house_map (fold_left upgrade_agent idxs m) !! j = Some h' /\
      (h' = h \/
       (h' = update_energy_label h 1 /\
        exists i a, i ∈ idxs /\ agents m !! i = Some a /\ house a = j /\
                    intention a = UPGRADE)).
Proof.
  revert m. induction idxs as [|j0 idxs IH]; intros m Hwf Hnd j h Hh; cbn.
  - exists h. auto.
  - apply NoDup_cons in Hnd as [Hj0 Hnd].
    destruct (upgrade_agent_cases m j0) as [E|(a0 & Ha0 & Hi0 & E)]; rewrite E.
    + destruct (IH m Hwf Hnd j h Hh) as (h' & Hh' & [->|(-> & i & a & Hi & Ha & Hj & Hu)]).
      * exists h. auto.
      * eexists. split; [exact Hh'|]. right. split; [reflexivity|].
        exists i, a. split; [now right|auto].
    + pose proof (upgraded_wf m j0 a0 Hwf Ha0) as Hwf1.
      destruct (decide (house a0 = j)) as [Ej|Nj].
      * assert (Hh1 : house_map (upgraded m j0 a0) !! j = Some (update_energy_label h 1)).
        { cbn. now rewrite Ej, list_lookup_alter_eq, Hh. }
        destruct (IH _ Hwf1 Hnd j _ Hh1)
          as (h' & Hh' & [->|(_ & i & a & Hi & Ha & Hj & Hu)]).
        -- eexists. split; [exact Hh'|]. right. split; [reflexivity|].
           exists j0, a0. split; [now left|auto].
        -- exfalso. assert (Hne : i <> j0) by (intros ->; contradiction).
           cbn in Ha. rewrite list_lookup_insert_ne in Ha by congruence.
           destruct (wf_agent_house m Hwf i a Ha) as (h1 & Hl1 & Ho1).
           destruct (wf_agent_house m Hwf j0 a0 Ha0) as (h2 & Hl2 & Ho2).
           rewrite Hj, <- Ej, Hl2 in Hl1. inversion Hl1; subst. congruence.
      * assert (Hh1 : house_map (upgraded m j0 a0) !! j = Some h).
        { cbn. now rewrite list_lookup_alter_ne by exact Nj. }
        destruct (IH _ Hwf1 Hnd j _ Hh1)
          as (h' & Hh' & [->|(-> & i & a & Hi & Ha & Hj & Hu)]).
        -- exists h. auto.
        -- eexists. split; [exact Hh'|]. right. split; [reflexivity|].
           assert (Hne : i <> j0) by (intros ->; contradiction).
           cbn in Ha. rewrite list_lookup_insert_ne in Ha by congruence.
           exists i, a. split; [now right|auto].
Qed.

(** X18.  In a tick from a reachable state the size and the quality of
    every house stay as they are, and its label and value either both stay
    or go up together by exactly one level and 2000: no house is upgraded
    twice in a tick. *)
Theorem house_change_per_tick (m m' : HousingModel) :
  reachable m -> HousingModel_step m = Some m' ->
  length (house_map m') = length (house_map m) /\
  forall j h, house_map m !! j = Some h ->
    exists h', house_map m' !! j = Some h' /\
      size h' = size h /\ quality h' = quality h /\
      ((energy_label h' = energy_label h /\ market_value h' = market_value h) \/
       (energy_label h' = (energy_label h + 1)%Z /\
        market_value h' = (market_value h + 2000)%Z)).
Proof.
  intros Hr H. destruct (reachable_inv m Hr) as [Hwf _].
  destruct (step_counts m m' Hwf H) as (_ & Elen & _). split; [exact Elen|].
  destruct (step_phases m m' Hwf H)
    as (m1 & m2 & _ & Hres & -> & Eh & _ & _ & _ & Hwf2 & _ & _).
  intros j h Hh. rewrite <- Eh in Hh.
  destruct (resolve_loop_attributes _ m1 m2 Hres j h Hh) as (h2 & Hh2 & Hl & Hs & Hq & Hv).
  destruct (upgrade_loop_houses (seq 0 (length (agents m2))) m2 Hwf2 (NoDup_seq _ _) j h2 Hh2)
    as (h' & Hh' & [->|(-> & _)]).
  - exists h2. split; [exact Hh'|]. split; [exact Hs|]. split; [exact Hq|]. now left.
  - eexists. split; [exact Hh'|]. cbn. split; [exact Hs|]. split; [exact Hq|].
    right. split; lia.
Qed.

End HouseExtras.

(** * The reported metric *)

Section AverageLabel.

Local Open Scope Q_scope.

Lemma sum_labels_bounds (ls : list Z) :
  Forall (fun l => (0 <= l <= 7)%Z) ls ->
  (0 <= sum_labels ls <= 7 * Z.of_nat (length ls))%Z.
Proof.
  induction 1 as [|l ls Hl _ IH]; cbn; [lia|]. unfold sum_labels in IH. lia.
Qed.

Lemma agent_labels_wf (m : HousingModel) :
  wf m -> labels_ok m ->
  length (agent_labels m) = length (agents m) /\
  Forall (fun l => (0 <= l <= 7)%Z) (agent_labels m).
Proof.
  intros Hwf Hl. unfold agent_labels.
  assert (Hres : forall a, a ∈ agents m ->
            exists h, house_map m !! house a = Some h /\ (0 <= energy_label h <= 7)%Z).
  { intros a Ha. apply list_elem_of_lookup in Ha as [i Ha].
    destruct (wf_agent_house m Hwf i a Ha) as (h & Hh & _). eauto. }
  induction (agents m) as [|a l IH]; cbn; [split; [reflexivity|constructor]|].
  destruct (Hres a) as (h & Hh & Hb); [now left|]. rewrite Hh. cbn.
  destruct IH as [IH1 IH2]; [intros a' Ha'; apply Hres; now right|].
  split; [now rewrite IH1|]. constructor; [exact Hb|exact IH2].
Qed.

(** X19.  [compute_avg_label] returns 0 for an empty schedule, and in every
    reachable state the number it returns lies between 0 and 7 and counts
    every participant once. *)
Theorem average_label_bounds (m : HousingModel) :
  reachable m ->
  0 <= compute_avg_label m /\ compute_avg_label m <= 7 /\
  (agents m = [] -> compute_avg_label m = 0) /\
  length (agent_labels m) = length (agents m).
Proof.
  intros Hr. destruct (reachable_inv m Hr) as [Hwf Hl].
  destruct (agent_labels_wf m Hwf Hl) as [Hlen Hall].
  assert (Hempty : agents m = [] -> compute_avg_label m = 0).
  { intros E. unfold compute_avg_label, agent_labels. now rewrite E. }
  split; [|split; [|split; [exact Hempty|exact Hlen]]];
    unfold compute_avg_label; destruct (agent_labels m) as [|l ls] eqn:E;
    try discriminate.
  - pose proof (sum_labels_bounds _ Hall) as [Hs _].
    apply Qle_shift_div_l; [reflexivity|]. rewrite Qmult_0_l.
    now apply (inject_Z_le 0).
  - pose proof (sum_labels_bounds _ Hall) as [_ Hs].
    apply Qle_shift_div_r; [reflexivity|].
    rewrite <- (inject_Z_mult 7). now apply inject_Z_le.
Qed.

End AverageLabel.

Section UpgradeSavings.

(** X20.  An upgrade never leaves a participant in debt: in a tick from a
    reachable state, whoever pays the upgrade cost had more than that cost
    in savings, so their savings stay positive.  (Only a move can make
    savings negative.) *)
Theorem upgrade_keeps_savings_positive (m m' : HousingModel) (i : nat)
    (a a' : HomeOwner) :
  reachable m -> HousingModel_step m = Some m' ->
  agents m !! i = Some a -> agents m' !! i = Some a' ->
  savings a' = (savings a - COST_PER_LABEL_UPGRADE)%Z ->
  (0 < savings a')%Z /\ intention a' = STAY /\ house a' = house a.
Proof.
  intros Hr H Ha Ha' Hpaid. destruct (reachable_inv m Hr) as [Hwf _].
  unfold HousingModel_step in H.
  destruct (schedule_step_spec m Hwf) as (m1 & Hs & _ & _ & Hc & _ & Hdec).
  rewrite Hs in H. cbn in H.
  destruct (resolve_market_conflicts m1) as [m2|] eqn:Hres; [|discriminate].
  cbn in H. inversion H; subst m'. clear H.
  destruct (collect_bids_ok m1) as (_ & Hg & Hnd).
  destruct (resolve_loop_savings _ m1 m2 Hnd Hres) as (_ & Hsav).
  pose proof (handle_upgrades_lookup m2) as Hup.
  destruct (Forall2_lookup_l _ _ _ _ _ Hc Ha) as (a1 & Ha1 & (_ & Es1 & Eh1)).
  destruct (Hsav i a1 Ha1) as (a2 & Ha2 & Hint2 & _ & Hs2).
  rewrite (Hup i a2 Ha2) in Ha'. inversion Ha' as [Ea']. clear Ha'.
  destruct (decide (intention a2 = UPGRADE)) as [Hu|Hn].
  - destruct (decided_upgrade m1 a1 (Hdec i a1 Ha1)) as (own & _ & _ & Hgate);
      [congruence|].
    assert (Hsame : savings a2 = savings a1 /\ house a2 = house a1).
    { destruct (resolve_loop_outcome (collect_bids m1) m1 m1 m2 Hnd
                  (fun _ _ => eq_refl) Hres) as (Hout & _).
      assert (Hnb : i ∉ bidders (collect_bids m1)).
      { intros Hin. apply bidders_elem in Hin as (k & bs & Hg' & Hi).
        destruct (proj1 (Forall_forall _ _) Hg _ Hg') as [_ Hb]. cbn in Hb.
        destruct (Hb i Hi) as (a1' & Ha1' & Hbuy & _).
        rewrite Ha1 in Ha1'. inversion Ha1'; subst a1'. congruence. }
      rewrite (Hout i Hnb), Ha1 in Ha2. inversion Ha2; subst a2. auto. }
    destruct Hsame as [Es2 Eh2]. subst a'. cbn in *. split; [lia|].
    split; [reflexivity|congruence].
  - exfalso. subst a'. unfold COST_PER_LABEL_UPGRADE, MOVING_COST_FIXED in *.
    destruct Hs2 as [Hs2|[_ Hs2]]; lia.
Qed.

End UpgradeSavings.

(** * The further properties at the example worlds *)

Section ExtraWitnesses.

Lemma normalize_unit_interval_witness :
  double_value 6 /\ double_value 2 /\
  (- DOUBLE_MAX <= 2 - 6)%Q /\ (2 - 6 <= DOUBLE_MAX)%Q /\
  (0 <= normalize 9 6 2)%Q /\ (normalize 9 6 2 <= 1)%Q.
Proof.
  assert (H6 : double_value 6).
  { exists 6%Z, 0%Z. split; [reflexivity|]. split; [lia|reflexivity]. }
  assert (H2 : double_value 2).
  { exists 1%Z, 1%Z. split; [reflexivity|]. split; [lia|reflexivity]. }
  assert (Hl : (- DOUBLE_MAX <= 2 - 6)%Q) by (vm_compute; discriminate).
  assert (Hu : (2 - 6 <= DOUBLE_MAX)%Q) by (vm_compute; discriminate).
  split; [exact H6|]. split; [exact H2|]. split; [exact Hl|]. split; [exact Hu|].
  exact (normalize_unit_interval 9 6 2 H6 H2 Hl Hu).
Defined.

Lemma satisfaction_monotone_witness :
  exists a h h',
    agents example_world !! 0 = Some a /\
    house_map example_world !! 0 = Some h /\ house_map example_world !! 1 = Some h' /\
    (calculate_satisfaction a h 0 2000 0 <= calculate_satisfaction a h' 0 0 0)%Q.
Proof.
  do 3 eexists. split; [reflexivity|]. split; [reflexivity|]. split; [reflexivity|].
  apply satisfaction_monotone; cbn; [lia|lia|discriminate].
Defined.

Lemma execute_move_fails_iff_witness :
  execute_move example_world 0 (Some 7) = None <->
  Some 7 = None \/ exists t, Some 7 = Some t /\ house_map example_world !! t = None.
Proof.
  apply (execute_move_fails_iff example_world 0 (Some 7)). eexists. reflexivity.
Defined.

Lemma move_into_own_house_witness :
  exists b, agents example_world !! 1 = Some b /\
    execute_move example_world 1 (Some (house b)) =
      Some {| agents := <[1 := pay_move b (house b)]> (agents example_world);
              house_map := house_map example_world;
              vacancy_pool := vacancy_pool example_world |}.
Proof.
  eexists. split; [reflexivity|].
  apply move_into_own_house; [|reflexivity].
  exact (init_state_wf _ _ _ example_world_init).
Defined.

Lemma winner_is_first_of_maximal_capacity_witness :
  exists before after,
    [1; 0] = before ++ 0 :: after /\
    (forall z, z ∈ before -> (capacity_of bidders_world z < capacity_of bidders_world 0)%Z) /\
    (forall z, z ∈ after -> (capacity_of bidders_world z <= capacity_of bidders_world 0)%Z).
Proof.
  apply (winner_is_first_of_maximal_capacity bidders_world [1; 0] 0). reflexivity.
Defined.

Lemma init_closed_form_witness :
  agents example_world = imap initial_owner example_owners /\
  house_map example_world = imap (initial_house (length example_owners)) example_houses /\
  vacancy_pool example_world = seq 2 1.
Proof.
  exact (init_closed_form example_houses example_owners example_world eq_refl).
Defined.

Lemma decisions_write_intentions_only_witness :
  exists m1, schedule_step example_world = Some m1 /\
             house_map m1 = house_map example_world /\
             vacancy_pool m1 = vacancy_pool example_world.
Proof.
  eexists. split; [vm_compute; reflexivity|].
  match goal with
  | |- house_map ?m1 = _ /\ _ =>
      destruct (decisions_write_intentions_only example_world m1 eq_refl)
        as (Hh & Hp & _)
  end.
  split; [exact Hh|exact Hp].
Defined.

Lemma decisions_order_independent_witness :
  schedule_loop example_world [1; 0; 1] = schedule_step example_world.
Proof.
  apply decisions_order_independent.
  - exact (init_state_wf _ _ _ example_world_init).
  - intros i. cbn. split.
    + intros Hi. repeat (apply elem_of_cons in Hi as [->|Hi]; [lia|]). inversion Hi.
    + intros Hlt. destruct i as [|[|i]]; [right; left|left|lia].
Defined.

Lemma decisions_idempotent_witness :
  exists m1, schedule_step example_world = Some m1 /\ schedule_step m1 = Some m1.
Proof.
  eexists. split; [vm_compute; reflexivity|].
  apply (decisions_idempotent example_world).
  - exact (init_state_wf _ _ _ example_world_init).
  - vm_compute. reflexivity.
Defined.

Lemma savings_change_per_tick_witness :
  exists m', HousingModel_step example_world = Some m' /\
             length (agents m') = length (agents example_world).
Proof.
  eexists. split; [vm_compute; reflexivity|].
  match goal with
  | |- length (agents ?m') = _ =>
      exact (proj1 (savings_change_per_tick example_world m' eq_refl))
  end.
Defined.


Lemma ownership_one_to_one_witness :
  reachable example_world /\
  forall i a, agents example_world !! i = Some a ->
    exists h, house_map example_world !! house a = Some h /\ owner h = Some i.
Proof.
  assert (Hr : reachable example_world).
  { apply (reachable_init example_houses example_owners).
    - exact example_houses_valid.
    - exact example_owners_valid.
    - reflexivity. }
  split; [exact Hr|]. exact (proj1 (ownership_one_to_one example_world Hr)).
Defined.

Lemma population_is_conserved_witness :
  exists m, run 2 example_world = Some m /\
    length (agents m) = 2 /\ length (house_map m) = 3 /\
    length (vacancy_pool m) + 2 = 3 /\ NoDup (vacancy_pool m).
Proof.
  eexists. split; [vm_compute; reflexivity|].
  match goal with
  | |- length (agents ?m) = _ /\ _ =>
      exact (population_is_conserved example_houses example_owners example_world m 2
               eq_refl eq_refl)
  end.
Defined.

Lemma house_change_per_tick_witness :
  exists m', HousingModel_step example_world = Some m' /\
             length (house_map m') = length (house_map example_world).
Proof.
  assert (Hr : reachable example_world).
  { apply (reachable_init example_houses example_owners).
    - exact example_houses_valid.
    - exact example_owners_valid.
    - reflexivity. }
  eexists. split; [vm_compute; reflexivity|].
  match goal with
  | |- length (house_map ?m') = _ =>
      exact (proj1 (house_change_per_tick example_world m' Hr eq_refl))
  end.
Defined.

Lemma average_label_bounds_witness :
  reachable example_world /\
  (0 <= compute_avg_label example_world)%Q /\ (compute_avg_label example_world <= 7)%Q.
Proof.
  assert (Hr : reachable example_world).
  { apply (reachable_init example_houses example_owners).
    - exact example_houses_valid.
    - exact example_owners_valid.
    - reflexivity. }
  split; [exact Hr|].
  destruct (average_label_bounds example_world Hr) as (H1 & H2 & _).
  split; [exact H1|exact H2].
Defined.

Lemma upgrade_keeps_savings_positive_witness :
  exists m' a a',
    HousingModel_step example_world = Some m' /\
    agents example_world !! 0 = Some a /\ agents m' !! 0 = Some a' /\
    savings a' = (savings a - COST_PER_LABEL_UPGRADE)%Z /\ (0 < savings a')%Z.
Proof.
  assert (Hr : reachable example_world).
  { apply (reachable_init example_houses example_owners).
    - exact example_houses_valid.
    - exact example_owners_valid.
    - reflexivity. }
  do 3 eexists. split; [vm_compute; reflexivity|]. split; [reflexivity|].
  split; [reflexivity|]. split; [reflexivity|].
  match goal with
  | |- (0 < savings ?a')%Z =>
      exact (proj1 (upgrade_keeps_savings_positive example_world _ 0 _ a' Hr
                      eq_refl eq_refl eq_refl eq_refl))
  end.
Defined.

Example average_label_example : (compute_avg_label example_world == 2)%Q.
Proof. vm_compute. reflexivity. Qed.

Example average_label_empty :
  compute_avg_label {| agents := []; house_map := house_map example_world;
                       vacancy_pool := [0; 1; 2] |} = 0%Q.
Proof. reflexivity. Qed.

End ExtraWitnesses.
